(** * markdown-editor: the line classifier, the inline renderer, the
    structural parser and canonicalizer, and the undo/redo history.

    The development follows the JavaScript sources:
    - [utils.js]          ([esc], [isHtml]),
    - [line-renderer.js]  ([lineType], [inlineRender], [renderLine], [editLine]),
    - [code-block.js]     ([makeCodeBlock]),
    - [MarkdownEditor.js] ([loadValue], [clear], [_sync], [_draw], [_pushUndo],
                           [_undo], [_redo], [_focusLine], [_blurLine], ...,
                           and further on [_insertText], [_execCommand],
                           [_togglePrefix], [_updateWordCount],
                           [_updatePlaceholder]),
    - [html-to-md.js]     ([htmlToMarkdown]).

    A JavaScript string is a sequence of UTF-16 code units; it is modelled
    as a list of code units, each a number of type [N]. *)

From Stdlib Require Import String Ascii.
From Stdlib Require Import List NArith Bool Arith Lia.
Import ListNotations.

(* ===================================================================== *)
(** * Part I: definitions *)
(* ===================================================================== *)

(** ** JavaScript strings and the regular-expression pieces the code uses *)

Module Js.

Definition char := N.
Definition str := list char.

(** The code units of an ASCII literal. *)
Definition ch (a : ascii) : char := N_of_ascii a.
Definition u (s : string) : str := List.map N_of_ascii (list_ascii_of_string s).
Arguments ch a%_char.
Arguments u s%_string.

Definition nl : char := 10%N.   (* "\n" *)
Definition cr : char := 13%N.   (* "\r" *)
Definition dq : char := 34%N.   (* the double quote *)

Definition str_eq_dec : forall a b : str, {a = b} + {a <> b} :=
  list_eq_dec N.eq_dec.

(** [a === b] on strings. *)
Definition str_eqb (a b : str) : bool :=
  if str_eq_dec a b then true else false.

(** [!s] on a string: only the empty string is falsy. *)
Definition falsy (s : str) : bool :=
  match s with [] => true | _ => false end.

(** [\s] of a regular expression, which is also what [trim] strips:
    WhiteSpace and LineTerminator code points. *)
Definition is_space (c : char) : bool :=
  ((9 <=? c) && (c <=? 13) || (c =? 32) || (c =? 160) || (c =? 5760)
   || (8192 <=? c) && (c <=? 8202) || (c =? 8232) || (c =? 8233)
   || (c =? 8239) || (c =? 8287) || (c =? 12288) || (c =? 65279))%N.

(** What [.] refuses: the line terminators. *)
Definition is_line_terminator (c : char) : bool :=
  ((c =? 10) || (c =? 13) || (c =? 8232) || (c =? 8233))%N.

(** [\d]. *)
Definition is_digit (c : char) : bool := ((48 <=? c) && (c <=? 57))%N.

(** [[a-z]] under the [i] flag. *)
Definition is_letter (c : char) : bool :=
  ((97 <=? c) && (c <=? 122) || (65 <=? c) && (c <=? 90))%N.

(** The longest prefix whose code units satisfy [p], and what follows it:
    a greedy [[class]*]. *)
Fixpoint span (p : char -> bool) (s : str) : str * str :=
  match s with
  | [] => ([], [])
  | c :: s' =>
      if p c then let (r, rest) := span p s' in (c :: r, rest)
      else ([], s)
  end.

Fixpoint drop_while (p : char -> bool) (s : str) : str :=
  match s with
  | [] => []
  | c :: s' => if p c then drop_while p s' else s
  end.

(** [s.trim()]. *)
Definition trim (s : str) : str :=
  rev (drop_while is_space (rev (drop_while is_space s))).

Fixpoint starts_with (p s : str) : bool :=
  match p, s with
  | [], _ => true
  | _ :: _, [] => false
  | a :: p', b :: s' => (a =? b)%N && starts_with p' s'
  end.

(** [s.split('\n')]: never empty, the empty string gives one empty piece. *)
Fixpoint split_nl (s : str) : list str :=
  match s with
  | [] => [[]]
  | c :: s' =>
      if (c =? nl)%N then [] :: split_nl s'
      else match split_nl s' with
           | l :: ls => (c :: l) :: ls
           | [] => [[c]]
           end
  end.

(** [parts.join('\n')]. *)
Fixpoint join_nl (parts : list str) : str :=
  match parts with
  | [] => []
  | [p] => p
  | p :: rest => p ++ nl :: join_nl rest
  end.

(** [s.replace(re, ...)] with a global regular expression.  [m] tries the
    expression at the head of what is left of the string and answers the
    replacement text and the length of the match (never zero for the
    expressions of this program); the search resumes after the match,
    which the counter [skip] implements. *)
Fixpoint replace_from (m : str -> option (str * nat)) (skip : nat) (s : str)
  : str :=
  match s with
  | [] => []
  | c :: s' =>
      match skip with
      | S k => replace_from m k s'
      | O =>
          match m s with
          | Some (rep, len) => rep ++ replace_from m (pred len) s'
          | None => c :: replace_from m 0 s'
          end
      end
  end.

Definition replace_all (m : str -> option (str * nat)) (s : str) : str :=
  replace_from m 0 s.

(** A literal pattern replaced by a literal text. *)
Definition lit (pat rep : str) (s : str) : option (str * nat) :=
  if starts_with pat s then Some (rep, length pat) else None.

(** [(.+?)] followed by the closing delimiter [d]: the shortest run [g] of
    code units other than line terminators with [s = g ++ d ++ _]. *)
Fixpoint lazy_until (d : str) (s : str) : option str :=
  if starts_with d s then Some []
  else match s with
       | [] => None
       | c :: s' =>
           if is_line_terminator c then None
           else match lazy_until d s' with
                | Some g => Some (c :: g)
                | None => None
                end
       end.

(** [d(.+?)d] at the head of [s]: the captured group. *)
Definition lazy_delim (d : str) (s : str) : option str :=
  if starts_with d s then
    match skipn (length d) s with
    | c :: s' =>
        if is_line_terminator c then None
        else match lazy_until d s' with
             | Some g => Some (c :: g)
             | None => None
             end
    | [] => None
    end
  else None.

(** [o([^o\n]+)o] for a one-unit delimiter [o] at the head of [s]. *)
Definition run_delim (o : char) (s : str) : option str :=
  match s with
  | c :: s' =>
      if (c =? o)%N then
        let (g, rest) := span (fun x => negb (x =? o)%N && negb (x =? nl)%N) s' in
        match g, rest with
        | _ :: _, c' :: _ => if (c' =? o)%N then Some g else None
        | _, _ => None
        end
      else None
  | [] => None
  end.

(** [^c{3,}\s*$]: three or more [c], then white space up to the end. *)
Definition run3_ws (c : char) (text : str) : bool :=
  let (r, rest) := span (fun x => (x =? c)%N) text in
  (3 <=? length r) && forallb is_space rest.

End Js.

(** ** utils.js *)

Module Utils.
Import Js.

(** [esc]: ampersands first, then the two angle brackets. *)
Definition esc (s : str) : str :=
  replace_all (lit (u ">") (u "&gt;"))
    (replace_all (lit (u "<") (u "&lt;"))
       (replace_all (lit (u "&") (u "&amp;")) s)).

(** Is there a [>] somewhere in [s]: the tail [[\s\S]*>] of [isHtml]. *)
Definition has_gt (s : str) : bool := existsb (fun c => (c =? ch ">")%N) s.

(** [isHtml]: [/<[a-z][\s\S]*>/i.test(s)]. *)
Fixpoint isHtml (s : str) : bool :=
  match s with
  | [] => false
  | c :: s' =>
      ((c =? ch "<")%N &&
       match s' with
       | l :: s'' => is_letter l && has_gt s''
       | [] => false
       end)
      || isHtml s'
  end.

End Utils.

(** ** line-renderer.js *)

Module LineRenderer.
Import Js.

(** The semantic types of a line; [lineType] returns their names
    (['h1'] .. ['h6'], ['hr'], ['bq'], ['ul'], ['ol'], ['empty'], ['p']). *)
Inductive LineKind :=
| Heading1 | Heading2 | Heading3 | Heading4 | Heading5 | Heading6
| HorizontalRule | Blockquote | BulletItem | NumberedItem | Empty | Paragraph.

Definition kind_name (k : LineKind) : str :=
  match k with
  | Heading1 => u "h1" | Heading2 => u "h2" | Heading3 => u "h3"
  | Heading4 => u "h4" | Heading5 => u "h5" | Heading6 => u "h6"
  | HorizontalRule => u "hr" | Blockquote => u "bq" | BulletItem => u "ul"
  | NumberedItem => u "ol" | Empty => u "empty" | Paragraph => u "p"
  end.

(** [/^#{n} /]: [n] hashes and a space. *)
Definition re_heading (n : nat) (text : str) : bool :=
  starts_with (repeat (ch "#") n ++ [ch " "]) text.

(** [/^(---+|\*\*\*+)\s*$/]. *)
Definition re_hr (text : str) : bool :=
  run3_ws (ch "-") text || run3_ws (ch "*") text.

(** [/^> ?/]. *)
Definition re_bq (text : str) : bool := starts_with (u ">") text.

(** [/^[-*+] /]. *)
Definition re_ul (text : str) : bool :=
  match text with
  | c :: c' :: _ =>
      ((c =? ch "-") || (c =? ch "*") || (c =? ch "+"))%N && (c' =? ch " ")%N
  | _ => false
  end.

(** [/^\d+\. /]. *)
Definition re_ol (text : str) : bool :=
  let (ds, rest) := span is_digit text in
  negb (falsy ds) && starts_with (u ". ") rest.

(** [text.trim() === '']. *)
Definition is_blank (text : str) : bool := str_eqb (trim text) [].

Definition lineType (text : str) : LineKind :=
  if re_heading 6 text then Heading6 else
  if re_heading 5 text then Heading5 else
  if re_heading 4 text then Heading4 else
  if re_heading 3 text then Heading3 else
  if re_heading 2 text then Heading2 else
  if re_heading 1 text then Heading1 else
  if re_hr text then HorizontalRule else
  if re_bq text then Blockquote else
  if re_ul text then BulletItem else
  if re_ol text then NumberedItem else
  if is_blank text then Empty else
  Paragraph.

(** A text between double quotes, for the attribute values of the
    replacement templates. *)
Definition quoted (s : str) : str := dq :: s ++ [dq].

(** [/`([^`\n]+)`/g] and its template. *)
Definition re_code (s : str) : option (str * nat) :=
  match run_delim (ch "`") s with
  | Some g =>
      Some (u "<span class=" ++ quoted (u "ic") ++ u ">" ++ g ++ u "</span>",
            length g + 2)
  | None => None
  end.

(** [/d(.+?)d/g] replaced by the group between [before] and [after]. *)
Definition re_wrap (d before after : str) (s : str) : option (str * nat) :=
  match lazy_delim d s with
  | Some g => Some (before ++ g ++ after, length d + length g + length d)
  | None => None
  end.

(** [/o([^o\n]+)o/g] replaced by the group inside [<em>]. *)
Definition re_em (o : char) (s : str) : option (str * nat) :=
  match run_delim o s with
  | Some g => Some (u "<em>" ++ g ++ u "</em>", length g + 2)
  | None => None
  end.

(** What follows an opening bracket: [t\](h\)] with [t] free of closing
    brackets and [h], not empty, free of closing parentheses. *)
Definition bracket_paren (s : str) : option (str * str) :=
  let (t, r) := span (fun c => negb (c =? ch "]")%N) s in
  if starts_with (u "](") r then
    let (h, r') := span (fun c => negb (c =? ch ")")%N) (skipn 2 r) in
    match h, r' with
    | _ :: _, _ :: _ => Some (t, h)
    | _, _ => None
    end
  else None.

(** The image expression (a bang, a bracketed text that may be empty, a
    parenthesised address) and its template. *)
Definition re_image (s : str) : option (str * nat) :=
  if starts_with (u "![") s then
    match bracket_paren (skipn 2 s) with
    | Some (alt, src) =>
        Some (u "<img src=" ++ quoted src ++ u " alt=" ++ quoted alt
                ++ u " loading=" ++ quoted (u "lazy") ++ u ">",
              2 + length alt + 2 + length src + 1)
    | None => None
    end
  else None.

(** The link expression (a bracketed text, not empty, and a parenthesised
    address) and its template. *)
Definition re_link (s : str) : option (str * nat) :=
  if starts_with (u "[") s then
    match bracket_paren (skipn 1 s) with
    | Some (c :: t, href) =>
        Some (u "<a href=" ++ quoted href ++ u " target=" ++ quoted (u "_blank")
                ++ u " rel=" ++ quoted (u "noopener") ++ u ">"
                ++ (c :: t) ++ u "</a>",
              1 + length (c :: t) + 2 + length href + 1)
    | _ => None
    end
  else None.

(** [inlineRender]: escape, then the nine replacements in the order of
    the source. *)
Definition inlineRender (raw : str) : str :=
  let s := Utils.esc raw in
  let s := replace_all re_code s in
  let s := replace_all (re_wrap (u "***") (u "<strong><em>") (u "</em></strong>")) s in
  let s := replace_all (re_wrap (u "**") (u "<strong>") (u "</strong>")) s in
  let s := replace_all (re_wrap (u "__") (u "<strong>") (u "</strong>")) s in
  let s := replace_all (re_em (ch "*")) s in
  let s := replace_all (re_em (ch "_")) s in
  let s := replace_all (re_wrap (u "~~") (u "<del>") (u "</del>")) s in
  let s := replace_all re_image s in
  let s := replace_all re_link s in
  s.

End LineRenderer.

(** ** The tree under the live area: code-block.js and the line helpers *)

Module Dom.
Import Js.

(** What an element of the live area holds. *)
Inductive content :=
| Rendered (text : str)   (* the preview that renderLine(el, text) wrote *)
| Raw (text : str)        (* el.textContent = text *)
| Widget.                 (* the header and the textarea of a code block *)

(** A child element of the live area: the two classes the editor looks
    for, and its data attributes.  A data attribute that is not set reads
    as the empty string: every read in the source is [dataset.x || '']. *)
Record node := {
  cls_ln : bool;        (* classList.contains('ln') *)
  cls_is_ed : bool;     (* classList.contains('is-ed') *)
  data_cb : bool;       (* dataset.cb *)
  data_md : str;        (* dataset.md *)
  data_lang : str;      (* dataset.lang *)
  data_code : str;      (* dataset.code *)
  body : content
}.

Definition set_md (md : str) (n : node) : node :=
  {| cls_ln := cls_ln n; cls_is_ed := cls_is_ed n; data_cb := data_cb n;
     data_md := md; data_lang := data_lang n; data_code := data_code n;
     body := body n |}.

(** [renderLine(el, text)]: the class becomes [ln] and the type of the
    line, the content its preview. *)
Definition renderLine (el : node) (text : str) : node :=
  {| cls_ln := true; cls_is_ed := false; data_cb := data_cb el;
     data_md := data_md el; data_lang := data_lang el;
     data_code := data_code el; body := Rendered text |}.

(** [editLine(el, text)]: the class becomes [ln is-ed], the content the
    raw text. *)
Definition editLine (el : node) (text : str) : node :=
  {| cls_ln := true; cls_is_ed := true; data_cb := data_cb el;
     data_md := data_md el; data_lang := data_lang el;
     data_code := data_code el; body := Raw text |}.

(** [_makeLine(text)]. *)
Definition makeLine (text : str) : node :=
  renderLine
    {| cls_ln := true; cls_is_ed := false; data_cb := false; data_md := text;
       data_lang := []; data_code := []; body := Raw [] |}
    text.

(** [makeCodeBlock(lang, code, editor)]. *)
Definition makeCodeBlock (lang code : str) : node :=
  {| cls_ln := false; cls_is_ed := false; data_cb := true; data_md := [];
     data_lang := lang; data_code := code; body := Widget |}.

(** [_setText(el, text)]. *)
Definition setText (el : node) (text : str) : node :=
  {| cls_ln := cls_ln el; cls_is_ed := cls_is_ed el; data_cb := data_cb el;
     data_md := text; data_lang := data_lang el; data_code := data_code el;
     body := Raw text |}.

(** [el.textContent].  The text of a preview is what the browser makes of
    the markup that [renderLine] wrote: [renderedText]. *)
Definition textContent (renderedText : str -> str) (el : node) : str :=
  match body el with
  | Rendered text => renderedText text
  | Raw text => text
  | Widget =>
      (if falsy (data_lang el) then u "code" else data_lang el) ++ u "Copy"
  end.

(** The children of the live area are addressed by their position. *)
Fixpoint update (i : nat) (f : node -> node) (nodes : list node) : list node :=
  match nodes, i with
  | [], _ => []
  | n :: rest, O => f n :: rest
  | n :: rest, S j => n :: update j f rest
  end.

(** [el.remove()]. *)
Fixpoint remove_at (i : nat) (nodes : list node) : list node :=
  match nodes, i with
  | [], _ => []
  | _ :: rest, O => rest
  | n :: rest, S j => n :: remove_at j rest
  end.

(** [_insertAfter(ref, newEl)]. *)
Fixpoint insertAfter (ref : nat) (newEl : node) (nodes : list node)
  : list node :=
  match nodes, ref with
  | [], _ => [newEl]
  | n :: rest, O => n :: newEl :: rest
  | n :: rest, S j => n :: insertAfter j newEl rest
  end.

(** [querySelector]: the first element, in document order, that [p]
    selects. *)
Fixpoint find_index (p : node -> bool) (nodes : list node) : option nat :=
  match nodes with
  | [] => None
  | n :: rest =>
      if p n then Some 0
      else match find_index p rest with
           | Some i => Some (S i)
           | None => None
           end
  end.

(** The selector [.ln.is-ed]. *)
Definition sel_ln_is_ed (n : node) : bool := cls_ln n && cls_is_ed n.

(** What [_prevLine] and [_nextLine] stop at: a line or a code block. *)
Definition navigable (n : node) : bool := cls_ln n || data_cb n.

(** [_prevLine(el)]. *)
Fixpoint prevLine (nodes : list node) (el : nat) : option nat :=
  match el with
  | O => None
  | S j =>
      match nth_error nodes j with
      | Some n => if navigable n then Some j else prevLine nodes j
      | None => prevLine nodes j
      end
  end.

(** [_nextLine(el)]. *)
Definition nextLine (nodes : list node) (el : nat) : option nat :=
  match find_index navigable (skipn (S el) nodes) with
  | Some k => Some (S el + k)
  | None => None
  end.

End Dom.

(** ** MarkdownEditor.js *)

Module Editor.
Import Js Utils LineRenderer Dom.

(** *** The structural parser of [_draw] *)

(** Three or more [c] at the head of [line], and then the group that the
    dot-star captures: everything up to the first line terminator. *)
Definition fence_run (c : char) (line : str) : option (str * str) :=
  let (r, rest) := span (fun x => (x =? c)%N) line in
  if 3 <=? length r
  then Some (r, fst (span (fun x => negb (is_line_terminator x)) rest))
  else None.

(** The opening expression of [_draw]: a run of three or more backticks,
    or else of three or more tildes, then anything.  The answer is the
    pair of its groups. *)
Definition re_fence (line : str) : option (str * str) :=
  match fence_run (ch "`") line with
  | Some g => Some g
  | None => fence_run (ch "~") line
  end.

(** The closing expression of [_draw]: a run of three or more backticks,
    or else of three or more tildes, then white space only. *)
Definition re_fence_close (line : str) : bool :=
  run3_ws (ch "`") line || run3_ws (ch "~") line.

(** The two loops of [_draw] over what is left of [lines]: [draw_lines] is
    the outer loop, [collect] the inner one, which gathers [codeLines]
    until a closing fence or the end of the input and then falls back
    into the outer loop. *)
Fixpoint draw_lines (lines : list str) : list node :=
  match lines with
  | [] => []
  | line :: rest =>
      match re_fence line with
      | Some (_, tail) => collect (trim tail) [] rest
      | None => makeLine line :: draw_lines rest
      end
  end
with collect (lang : str) (codeLines : list str) (lines : list str)
  : list node :=
  match lines with
  | [] => [makeCodeBlock lang (join_nl codeLines)]
  | l :: rest =>
      if re_fence_close l
      then makeCodeBlock lang (join_nl codeLines) :: draw_lines rest
      else collect lang (codeLines ++ [l]) rest
  end.

(** The children that [_draw] gives the live area for the text [md]. *)
Definition draw_nodes (md : str) : list node :=
  if falsy md then [makeLine []] else draw_lines (split_nl md).

(** *** The editor *)

Record editor := {
  _md : str;
  _live : option (list node);   (* null until init() has built the tree *)
  _undoStack : list str;        (* oldest first: push and pop at the end *)
  _redoStack : list str
}.

Definition with_md (md : str) (e : editor) : editor :=
  {| _md := md; _live := _live e;
     _undoStack := _undoStack e; _redoStack := _redoStack e |}.

Definition with_live (nodes : list node) (e : editor) : editor :=
  {| _md := _md e; _live := Some nodes;
     _undoStack := _undoStack e; _redoStack := _redoStack e |}.

(** The editor as the constructor leaves it. *)
Definition new_editor : editor :=
  {| _md := []; _live := None; _undoStack := []; _redoStack := [] |}.

(** [_draw()].  Without a live area its first statement throws, and the
    editor stays as it is. *)
Definition _draw (e : editor) : editor :=
  match _live e with
  | Some _ => with_live (draw_nodes (_md e)) e
  | None => e
  end.

(** [stack[stack.length - 1]], undefined on the empty stack. *)
Definition top (stack : list str) : option str :=
  last (List.map Some stack) None.

(** [stack.pop()]: what is left of the stack. *)
Definition popped (stack : list str) : list str := removelast stack.

(** [state === stack[stack.length - 1]]. *)
Definition is_top (state : str) (stack : list str) : bool :=
  match top stack with
  | Some t => str_eqb state t
  | None => false
  end.

(** [_pushUndo(state)]. *)
Definition _pushUndo (state : str) (e : editor) : editor :=
  if falsy state || is_top state (_undoStack e) then e else
  let pushed := _undoStack e ++ [state] in
  {| _md := _md e; _live := _live e;
     _undoStack := if 150 <? length pushed then tl pushed else pushed;
     _redoStack := [] |}.

(** [_undo()]. *)
Definition _undo (e : editor) : editor :=
  match top (_undoStack e) with
  | None => e
  | Some state =>
      _draw {| _md := state; _live := _live e;
               _undoStack := popped (_undoStack e);
               _redoStack := _redoStack e ++ [_md e] |}
  end.

(** [_redo()]. *)
Definition _redo (e : editor) : editor :=
  match top (_redoStack e) with
  | None => e
  | Some state =>
      _draw {| _md := state; _live := _live e;
               _undoStack := _undoStack e ++ [_md e];
               _redoStack := popped (_redoStack e) |}
  end.

(** [clear()]. *)
Definition clear (e : editor) : editor :=
  let e' := {| _md := []; _live := _live e;
               _undoStack := []; _redoStack := [] |} in
  match _live e with Some _ => _draw e' | None => e' end.

Section Browser.

(** What the browser and the rich-markup converter contribute:
    - [renderedText text] is the text content of a line element after
      [renderLine(el, text)];
    - [htmlToMarkdown] is the converter of html-to-md.js, which walks the
      tree that the browser's DOMParser builds;
    - [nextNumber digits] is the text of [parseInt(digits, 10) + 1]. *)
Variable renderedText : str -> str.
Variable htmlToMarkdown : str -> str.
Variable nextNumber : str -> str.

(** The two line-ending replacements of [loadValue]. *)
Definition normalize_eol (s : str) : str :=
  replace_all (lit [cr] [nl]) (replace_all (lit [cr; nl] [nl]) s).

(** [loadValue(value)]; [_syncHidden] writes to elements outside the
    editor. *)
Definition loadValue (value : str) (e : editor) : editor :=
  let e' :=
    with_md
      (normalize_eol
         (if falsy value then []
          else if isHtml value then htmlToMarkdown value
          else value))
      e in
  match _live e with Some _ => _draw e' | None => e' end.

(** [init()] where the container element exists: [_buildDOM] makes the
    live area, then the initial value is loaded or the empty text drawn. *)
Definition init (initialValue : str) (e : editor) : editor :=
  let e' := with_live [] e in
  if falsy initialValue then _draw e' else loadValue initialValue e'.

(** *** [_sync]: from the tree to the text *)

(** An element in edit mode hands its text to its [dataset.md]. *)
Definition commit (n : node) : node :=
  if negb (data_cb n) && cls_ln n && cls_is_ed n
  then set_md (textContent renderedText n) n
  else n.

(** What an element, once committed, pushes on [parts]. *)
Definition parts (n : node) : list str :=
  if data_cb n then
    (u "```" ++ data_lang n) :: split_nl (data_code n) ++ [u "```"]
  else if cls_ln n then [data_md n]
  else [].

(** The text that [_sync] builds from the children of the live area. *)
Definition canonical (nodes : list node) : str :=
  join_nl (flat_map parts (List.map commit nodes)).

(** [_sync()]. *)
Definition _sync (e : editor) : editor :=
  match _live e with
  | None => e
  | Some nodes =>
      let newMd := canonical nodes in
      let e' := with_live (List.map commit nodes) e in
      if str_eqb newMd (_md e') then e'
      else with_md newMd (_pushUndo (_md e') e')
  end.

(** *** Focus and blur *)

(** [_blurLine(el)]; [el] may be null. *)
Definition _blurLine (el : option nat) (nodes : list node) : list node :=
  match el with
  | None => nodes
  | Some i =>
      update i
        (fun n =>
           if data_cb n then n
           else let md := textContent renderedText n in
                renderLine (set_md md n) md)
        nodes
  end.

(** [_focusLine(el, atStart)].  On a code block it only moves the
    keyboard focus into the textarea, when there is one; the caret is not
    part of this model. *)
Definition _focusLine (el : nat) (nodes : list node) : list node :=
  match nth_error nodes el with
  | None => nodes
  | Some n =>
      if data_cb n then nodes
      else
        let nodes' :=
          match find_index sel_ln_is_ed nodes with
          | Some current =>
              if current =? el then nodes else _blurLine (Some current) nodes
          | None => nodes
          end in
        update el (fun n' => editLine n' (data_md n')) nodes'
  end.

(** *** The handlers of the live area *)

(** [_onClick(e)].  [target] is the child of the live area that the click
    landed in, or nothing for a click on the live area itself.  A click in
    an element built by [makeCodeBlock] is kept by the listener of that
    element, which stops the propagation and changes no class. *)
Definition _onClick (target : option nat) (e : editor) : editor :=
  match _live e with
  | None => e
  | Some nodes =>
      match target with
      | Some i =>
          match nth_error nodes i with
          | Some n =>
              if data_cb n then e
              else if cls_ln n && negb (cls_is_ed n)
                   then with_live (_focusLine i nodes) e
                   else e
          | None => e
          end
      | None =>
          match find_index cls_ln (rev nodes) with
          | Some k => with_live (_focusLine (length nodes - 1 - k) nodes) e
          | None =>
              let nodes' := nodes ++ [makeLine []] in
              with_live (_focusLine (length nodes) nodes') e
          end
      end
  end.

(** [text.match(re)[0]] for the list-marker expression of [_handleEnter]:
    a bullet sign or digits and a period, then a space. *)
Definition list_marker (text : str) : option str :=
  if re_ul text then Some (firstn 2 text)
  else if re_ol text then Some (fst (span is_digit text) ++ u ". ")
  else None.

(** The continuation prefix of [_handleEnter]. *)
Definition continuation (type : LineKind) (text : str) : str :=
  match type with
  | BulletItem => firstn 2 text
  | NumberedItem => nextNumber (fst (span is_digit text)) ++ u ". "
  | Blockquote => if starts_with (u "> ") text then u "> " else u ">"
  | _ => []
  end.

(** The common end of the two branches of [_handleEnter]: the focused
    line keeps [keep], a new line with [fresh] follows it and takes the
    focus. *)
Definition split_line (focused : nat) (keep fresh : str) (e : editor)
  : editor :=
  match _live e with
  | None => e
  | Some nodes =>
      let nodes := update focused (fun n => setText n keep) nodes in
      let nodes := insertAfter focused (makeLine fresh) nodes in
      let nodes := _blurLine (Some focused) nodes in
      let nodes := _focusLine (S focused) nodes in
      _sync (with_live nodes e)
  end.

(** [_handleEnter(focused)], the caret being at [pos]. *)
Definition _handleEnter (focused : nat) (pos : nat) (e : editor) : editor :=
  match _live e with
  | None => e
  | Some nodes =>
      match nth_error nodes focused with
      | None => e
      | Some n =>
          let text := textContent renderedText n in
          let type := lineType text in
          let is_list :=
            match type with
            | BulletItem | NumberedItem => true
            | _ => false
            end in
          match (if is_list then list_marker text else Some []) with
          | None => e   (* match(...)[0] on null throws before any change *)
          | Some marker =>
              if is_list && str_eqb (trim text) marker
              then split_line focused [] [] e
              else split_line focused (firstn pos text)
                     (continuation type text ++ skipn pos text) e
          end
      end
  end.

(** [_handleBackspace(e, focused)]; [atStart] tells whether the selection
    is collapsed at offset zero, and is absent when there is no range. *)
Definition _handleBackspace (focused : nat) (atStart : option bool)
  (e : editor) : editor :=
  match _live e, atStart with
  | Some nodes, Some true =>
      match nth_error nodes focused with
      | None => e
      | Some n =>
          let text := textContent renderedText n in
          let prev := prevLine nodes focused in
          if falsy text then
            (* delete the empty line *)
            let e := _sync (with_live (remove_at focused nodes) e) in
            match prev, _live e with
            | Some p, Some nodes =>
                let nodes := _blurLine (find_index cls_is_ed nodes) nodes in
                with_live (update p (fun n' => editLine n' (data_md n')) nodes) e
            | _, _ => e
            end
          else
            (* merge with the previous line, but not into a code block *)
            match prev with
            | Some p =>
                match nth_error nodes p with
                | Some pn =>
                    if data_cb pn then e
                    else
                      let merged := data_md pn ++ text in
                      let nodes := remove_at focused nodes in
                      let nodes :=
                        update p (fun n' => set_md merged (editLine n' merged))
                          nodes in
                      _sync (with_live nodes e)
                | None => e
                end
            | None => e
            end
      end
  | _, _ => e
  end.

(** The requests that reach the live area. *)
Inductive request :=
| Click (target : option nat)
| Escape
| Enter (caret : nat)
| Backspace (atStart : option bool)
| ArrowUp (caret : nat)
| ArrowDown (caret : nat).

(** [_onKeydown(e)] for the keys that act on the focused line. *)
Definition _onKeydown (key : request) (e : editor) : editor :=
  match _live e with
  | None => e
  | Some nodes =>
      match find_index sel_ln_is_ed nodes with
      | None => e
      | Some focused =>
          match key with
          | Click _ => e
          | Escape => with_live (_blurLine (Some focused) nodes) e
          | Enter pos => _handleEnter focused pos e
          | Backspace atStart => _handleBackspace focused atStart e
          | ArrowUp pos =>
              if pos <=? 1 then
                match prevLine nodes focused with
                | Some prev =>
                    with_live
                      (_focusLine prev (_blurLine (Some focused) nodes)) e
                | None => e
                end
              else e
          | ArrowDown pos =>
              let text :=
                match nth_error nodes focused with
                | Some n => textContent renderedText n
                | None => []
                end in
              if length text <=? pos + 1 then
                match nextLine nodes focused with
                | Some next =>
                    with_live
                      (_focusLine next (_blurLine (Some focused) nodes)) e
                | None => e
                end
              else e
          end
      end
  end.

Definition handle (r : request) (e : editor) : editor :=
  match r with
  | Click target => _onClick target e
  | key => _onKeydown key e
  end.

(** The requests of [rs], one after the other. *)
Definition run (rs : list request) (e : editor) : editor :=
  fold_left (fun e r => handle r e) rs e.

(** An edit: the user changes the tree under the live area, by typing or
    by a command, and [_sync] runs. *)
Definition edit (nodes : list node) (e : editor) : editor :=
  _sync (with_live nodes e).

End Browser.

End Editor.

(* ===================================================================== *)
(** * Part II: the vocabulary of the statements *)
(* ===================================================================== *)

Import Js Utils LineRenderer Dom Editor.

(** ** The classifier *)

(** The patterns of the kinds, stated on the text itself. *)
Definition heading_line (n : nat) (text : str) : Prop :=
  exists rest, text = repeat (ch "#") n ++ ch " " :: rest.

Definition rule_line (text : str) : Prop :=
  exists c n ws,
    (c = ch "-" \/ c = ch "*") /\ 3 <= n /\ forallb is_space ws = true /\
    text = repeat c n ++ ws.

Definition quote_line (text : str) : Prop :=
  exists rest, text = ch ">" :: rest.

Definition bullet_line (text : str) : Prop :=
  exists c rest,
    (c = ch "-" \/ c = ch "*" \/ c = ch "+") /\ text = c :: ch " " :: rest.

Definition numbered_line (text : str) : Prop :=
  exists ds rest,
    ds <> [] /\ forallb is_digit ds = true /\ text = ds ++ u ". " ++ rest.

Definition blank_line (text : str) : Prop := forallb is_space text = true.

(** The pattern of each kind; a paragraph is what nothing else claims. *)
Definition pattern (k : LineKind) (text : str) : Prop :=
  match k with
  | Heading6 => heading_line 6 text
  | Heading5 => heading_line 5 text
  | Heading4 => heading_line 4 text
  | Heading3 => heading_line 3 text
  | Heading2 => heading_line 2 text
  | Heading1 => heading_line 1 text
  | HorizontalRule => rule_line text
  | Blockquote => quote_line text
  | BulletItem => bullet_line text
  | NumberedItem => numbered_line text
  | Empty => blank_line text
  | Paragraph => True
  end.

(** The precedence of the kinds: the lower rank is tested first. *)
Definition rank (k : LineKind) : nat :=
  match k with
  | Heading6 => 0 | Heading5 => 1 | Heading4 => 2 | Heading3 => 3
  | Heading2 => 4 | Heading1 => 5 | HorizontalRule => 6 | Blockquote => 7
  | BulletItem => 8 | NumberedItem => 9 | Empty => 10 | Paragraph => 11
  end.

(** [k] is the first kind, in the order of precedence, whose pattern
    [text] matches. *)
Definition first_match (text : str) (k : LineKind) : Prop :=
  pattern k text /\ forall k', rank k' < rank k -> ~ pattern k' text.

(** ** The structural parser *)

(** A text seen as a sequence of segments: plain lines, and fenced groups
    made of an opening line, interior lines and a closing line. *)
Inductive segment :=
| STextLine (line : str)
| SFenced (opening : str) (interior : list str) (closing : str).

Definition seg_lines (sg : segment) : list str :=
  match sg with
  | STextLine line => [line]
  | SFenced opening interior closing => opening :: interior ++ [closing]
  end.

Definition is_fenced (sg : segment) : bool :=
  match sg with STextLine _ => false | SFenced _ _ _ => true end.

(** The language of an opening line: what follows the run of fence
    characters, up to a line terminator, trimmed. *)
Definition fence_lang (opening : str) : str :=
  match re_fence opening with
  | Some (_, tail) => trim tail
  | None => []
  end.

(** The block that a segment stands for. *)
Definition seg_node (sg : segment) : node :=
  match sg with
  | STextLine line => makeLine line
  | SFenced opening interior _ =>
      makeCodeBlock (fence_lang opening) (join_nl interior)
  end.

Definition opens (line : str) : bool :=
  match re_fence line with Some _ => true | None => false end.

(** The segments as the parser delimits them: a plain line does not open
    a fence; a fenced group is closed by the first line after the opening
    one that is a run of three or more backticks, or of three or more
    tildes, followed by white space only. *)
Definition seg_ok (sg : segment) : bool :=
  match sg with
  | STextLine line => negb (opens line)
  | SFenced opening interior closing =>
      opens opening
      && forallb (fun l => negb (re_fence_close l)) interior
      && re_fence_close closing
  end.

(** The closing rule as the specification words it: three or more of the
    fence character that opened the group, then white space only. *)
Definition closes_same (opening line : str) : bool :=
  match re_fence opening with
  | Some (c :: _, _) => run3_ws c line
  | _ => false
  end.

(** The segments as the specification delimits them. *)
Definition seg_ok_same (sg : segment) : bool :=
  match sg with
  | STextLine line => negb (opens line)
  | SFenced opening interior closing =>
      opens opening
      && forallb (fun l => negb (closes_same opening l)) interior
      && closes_same opening closing
  end.

(** ** The round trip through [_sync] and [_draw] *)

(** The text of [_sync], drawn and synchronised again, is the same text. *)
Definition round_trips (renderedText : str -> str) (D : list node) : Prop :=
  canonical renderedText (draw_nodes (canonical renderedText D))
  = canonical renderedText D.

(** A language that the opening line gives back: it does not begin with
    a backtick, holds no line terminator and is trimmed. *)
Definition lang_ok (lang : str) : bool :=
  negb (starts_with (u "`") lang)
  && forallb (fun x => negb (is_line_terminator x)) lang
  && str_eqb (trim lang) lang.

(** A code none of whose lines closes a fence. *)
Definition code_ok (code : str) : bool :=
  forallb (fun l => negb (re_fence_close l)) (split_nl code).

(** A line text none of whose lines opens a fence. *)
Definition text_ok (md : str) : bool :=
  forallb (fun l => negb (opens l)) (split_nl md).

(** The blocks whose text the parser reads back as the same block. *)
Definition block_ok (n : node) : bool :=
  if data_cb n then lang_ok (data_lang n) && code_ok (data_code n)
  else if cls_ln n then text_ok (data_md n)
  else true.

(** The segments that a block contributes to the text. *)
Definition node_segs (n : node) : list segment :=
  if data_cb n then
    [SFenced (u "```" ++ data_lang n) (split_nl (data_code n)) (u "```")]
  else if cls_ln n then List.map STextLine (split_nl (data_md n))
  else [].

(** ** The history *)

(** No two neighbours of the list are equal. *)
Fixpoint no_adj (l : list str) : Prop :=
  match l with
  | a :: (b :: _) as t => a <> b /\ no_adj t
  | _ => True
  end.

(** A stack without an empty entry and without equal neighbours. *)
Definition clean (l : list str) : Prop := ~ In [] l /\ no_adj l.

(** The invariant of the history.  With an empty redo stack the undo
    stack is clean.  Otherwise the undo stack, the current text and the
    redo stack from its top down to, and without, its oldest entry are
    one clean sequence: the states that undo and redo walk through. *)
Definition hist_ok (e : editor) : Prop :=
  match _redoStack e with
  | [] => clean (_undoStack e)
  | _ :: later => clean (_undoStack e ++ _md e :: rev later)
  end.

(** The history states that the editor reaches from empty stacks by
    edits, undos and redos. *)
Inductive reachable (renderedText : str -> str) : editor -> Prop :=
| reach_start e :
    _undoStack e = [] -> _redoStack e = [] -> reachable renderedText e
| reach_edit e nodes :
    reachable renderedText e ->
    reachable renderedText (edit renderedText nodes e)
| reach_undo e : reachable renderedText e -> reachable renderedText (_undo e)
| reach_redo e : reachable renderedText e -> reachable renderedText (_redo e).

(** ** The bound of the undo stack *)

(** The snapshots of [ss] pushed one after the other. *)
Definition push_all (ss : list str) (e : editor) : editor :=
  fold_left (fun e' s => _pushUndo s e') ss e.

(** A decidable form of [NoDup] for concrete lists of snapshots. *)
Fixpoint distinct (ss : list str) : bool :=
  match ss with
  | [] => true
  | s :: rest => negb (existsb (str_eqb s) rest) && distinct rest
  end.

(** ** Loading *)

(** Line endings made uniform in one pass: a carriage return, with the
    line feed that follows it if there is one, becomes one line feed. *)
Fixpoint unify_eol (s : str) : str :=
  match s with
  | [] => []
  | c :: s' =>
      if (c =? cr)%N then
        nl :: match s' with
              | c' :: s'' => if (c' =? nl)%N then unify_eol s'' else unify_eol s'
              | [] => []
              end
      else c :: unify_eol s'
  end.

(** ** Focus *)




(** The text lines that are in edit mode. *)
Definition editing_lines (e : editor) : list str :=
  match _live e with
  | Some nodes =>
      List.map data_md
        (filter (fun n => cls_ln n && cls_is_ed n && negb (data_cb n)) nodes)
  | None => []
  end.

(* ===================================================================== *)
(** * Part II, continued: further parts of the program *)
(* ===================================================================== *)

(** ** Escaping, one code unit at a time *)

(** What [esc] makes of one code unit. *)
Definition esc_char (c : char) : str :=
  if (c =? ch "&")%N then u "&amp;"
  else if (c =? ch "<")%N then u "&lt;"
  else if (c =? ch ">")%N then u "&gt;"
  else [c].

(** ** Texts in the form that [_sync] writes *)

(** A fenced group as [_sync] writes it: the opening line is three
    backticks and the language that the parser reads from it, there is at
    least one interior line, and the closing line is three backticks. *)
Definition seg_canonical (sg : segment) : bool :=
  match sg with
  | STextLine _ => true
  | SFenced opening interior closing =>
      str_eqb opening (u "```" ++ fence_lang opening)
      && negb (match interior with [] => true | _ => false end)
      && str_eqb closing (u "```")
  end.

(** ** The shapes of the patterns of [lineType] *)

(** What a pattern says about the first two code units of the text and
    about its leading run of hashes. *)
Definition shape (k : LineKind) (text : str) : Prop :=
  match k with
  | Heading6 | Heading5 | Heading4 | Heading3 | Heading2 | Heading1 =>
      (exists rest, text = ch "#" :: rest)
      /\ length (fst (span (fun x => (x =? ch "#")%N) text)) = 6 - rank k
  | HorizontalRule =>
      exists c rest, (c = ch "-" \/ c = ch "*") /\ text = c :: c :: rest
  | Blockquote => exists rest, text = ch ">" :: rest
  | BulletItem =>
      exists c rest,
        (c = ch "-" \/ c = ch "*" \/ c = ch "+") /\ text = c :: ch " " :: rest
  | NumberedItem => exists d rest, is_digit d = true /\ text = d :: rest
  | Empty =>
      text = [] \/ exists c rest, is_space c = true /\ text = c :: rest
  | Paragraph => True
  end.


(** ** Texts without inline markup *)

(** The code units that no expression of [esc] and [inlineRender] reacts
    to. *)
Definition plain_char (c : char) : bool :=
  negb ((c =? ch "&") || (c =? ch "<") || (c =? ch ">") || (c =? ch "`")
        || (c =? ch "*") || (c =? ch "_") || (c =? ch "~") || (c =? ch "["))%N.

Definition plain (s : str) : bool := forallb plain_char s.

(** Two neighbours of [s] are both [c]. *)
Fixpoint adjacent (c : char) (s : str) : bool :=
  match s with
  | x :: (y :: _) as rest => ((x =? c)%N && (y =? c)%N) || adjacent c rest
  | _ => false
  end.

(** ** Navigation *)

(** The child at position [j] exists and is a line or a code block. *)
Definition nav_at (nodes : list node) (j : nat) : bool :=
  match nth_error nodes j with
  | Some n => navigable n
  | None => false
  end.

(** ** line-renderer.js: the markup that [renderLine] writes *)

(** [s || '<br>']. *)
Definition or_br (s : str) : str := if falsy s then u "<br>" else s.

(** [text.replace(/^#+\s/, '')]: the leading hashes and the one white
    space after them. *)
Definition strip_hashes (text : str) : str :=
  let (hashes, rest) := span (fun c => (c =? ch "#")%N) text in
  match hashes, rest with
  | _ :: _, c :: rest' => if is_space c then rest' else text
  | _, _ => text
  end.

(** [text.replace(/^> ?/, '')]. *)
Definition strip_quote (text : str) : str :=
  if starts_with (u "> ") text then skipn 2 text
  else if starts_with (u ">") text then skipn 1 text
  else text.

(** [text.replace(/^[-*+] /, '')]. *)
Definition strip_bullet (text : str) : str :=
  if re_ul text then skipn 2 text else text.

(** The two groups of the match of [renderLine] on a numbered item: the
    digits, and what follows the period and the space up to the first
    line terminator. *)
Definition ol_groups (text : str) : option (str * str) :=
  let (ds, rest) := span is_digit text in
  if negb (falsy ds) && starts_with (u ". ") rest
  then Some (ds, fst (span (fun c => negb (is_line_terminator c))
                        (skipn 2 rest)))
  else None.

(** The literal in front of a bullet item, as the source file has it. *)
Definition bullet : str := [226; 8364; 162; 32]%N.

(** [el.innerHTML] after [renderLine(el, text)]. *)
Definition innerHTML (text : str) : str :=
  match lineType text with
  | Heading1 | Heading2 | Heading3 | Heading4 | Heading5 | Heading6 =>
      or_br (inlineRender (strip_hashes text))
  | HorizontalRule => []
  | Blockquote => or_br (inlineRender (strip_quote text))
  | BulletItem => bullet ++ inlineRender (strip_bullet text)
  | NumberedItem =>
      match ol_groups text with
      | Some (n, rest) => n ++ u ". " ++ inlineRender rest
      | None => inlineRender text
      end
  | Empty => u "<br>"
  | Paragraph => or_br (inlineRender text)
  end.

(** ** MarkdownEditor.js: the prefix commands of the toolbar *)

(** [current.replace(/^#+\s*/, '')]: the leading hashes and all the white
    space after them. *)
Definition strip_heading (current : str) : str :=
  let (hashes, rest) := span (fun c => (c =? ch "#")%N) current in
  match hashes with
  | _ :: _ => drop_while is_space rest
  | [] => current
  end.

(** The length of a match of [\d+\. ] at the head of [s]. *)
Definition number_marker (s : str) : option nat :=
  let (ds, rest) := span is_digit s in
  if negb (falsy ds) && starts_with (u ". ") rest
  then Some (length ds + 2) else None.

(** [s.replace(/\d+\. /, '')]: the leftmost match goes. *)
Fixpoint strip_number (s : str) : str :=
  match number_marker s with
  | Some len => skipn len s
  | None =>
      match s with
      | [] => []
      | c :: s' => c :: strip_number s'
      end
  end.

(** [current.replace(/^#+\s*|^> ?|^[-*+] |\d+\. /, '')].  Only the last
    alternative can match behind the start of the text; at the start the
    alternatives are tried from left to right. *)
Definition strip_prefix (current : str) : str :=
  if starts_with (u "#") current then strip_heading current
  else if starts_with (u ">") current then strip_quote current
  else if re_ul current then skipn 2 current
  else strip_number current.

(** The text that [_togglePrefix(el, prefix)] sets, [current] being the
    text of the element. *)
Definition toggled (prefix current : str) : str :=
  if starts_with prefix current then strip_prefix current
  else prefix ++ strip_prefix current.

(** The text that the commands [h1], [h2] and [h3] set. *)
Definition heading_toggled (prefix current : str) : str :=
  if starts_with prefix current then strip_heading current
  else prefix ++ strip_heading current.

(** The kind of line that a prefix of the toolbar stands for. *)
Definition prefix_kind (prefix : str) : option LineKind :=
  if str_eqb prefix (u "# ") then Some Heading1
  else if str_eqb prefix (u "## ") then Some Heading2
  else if str_eqb prefix (u "### ") then Some Heading3
  else if str_eqb prefix (u "> ") then Some Blockquote
  else if str_eqb prefix (u "- ") then Some BulletItem
  else if str_eqb prefix (u "1. ") then Some NumberedItem
  else None.


(** ** MarkdownEditor.js: the toolbar and pasted text *)






Section Toolbar.

(** What the browser contributes:
    - [renderedText], as before;
    - [execInsertText text] is [document.execCommand('insertText', false,
      text)], which replaces the selection by [text] in the element that
      is being edited. *)
Variable renderedText : str -> str.
Variable execInsertText : str -> list node -> list node.







End Toolbar.

(** ** MarkdownEditor.js: the word count and the placeholder *)

(** [(3 backticks)[\s\S]*?(3 backticks)] at the head of [s]: the length
    of the shortest match. *)
Fixpoint lazy_any_until (d : str) (s : str) : option nat :=
  if starts_with d s then Some 0
  else match s with
       | [] => None
       | _ :: s' =>
           match lazy_any_until d s' with
           | Some k => Some (S k)
           | None => None
           end
       end.

Definition re_fenced (s : str) : option (str * nat) :=
  if starts_with (u "```") s then
    match lazy_any_until (u "```") (skipn 3 s) with
    | Some k => Some (u " ", 3 + k + 3)
    | None => None
    end
  else None.

(** The class of markup signs that the word count blanks out. *)
Definition is_markup (c : char) : bool :=
  ((c =? ch "#") || (c =? ch "*") || (c =? ch "`") || (c =? ch ">")
   || (c =? ch "_") || (c =? ch "~") || (c =? ch "[") || (c =? ch "]")
   || (c =? ch "!") || (c =? ch "|"))%N.

Definition re_markup (s : str) : option (str * nat) :=
  match s with
  | c :: _ => if is_markup c then Some (u " ", 1) else None
  | [] => None
  end.

(** [s.split(/\s+/)]: [in_sep] tells that the code unit before was white
    space. *)
Fixpoint split_ws_from (in_sep : bool) (s : str) : list str :=
  match s with
  | [] => [[]]
  | c :: s' =>
      if is_space c then
        if in_sep then split_ws_from true s' else [] :: split_ws_from true s'
      else match split_ws_from false s' with
           | l :: ls => (c :: l) :: ls
           | [] => [[c]]
           end
  end.

Definition split_ws (s : str) : list str := split_ws_from false s.

(** The number that [_updateWordCount] shows. *)
Definition wordCount (md : str) : nat :=
  let text := trim (replace_all re_markup (replace_all re_fenced md)) in
  if falsy text then 0
  else length (filter (fun w => negb (falsy w)) (split_ws text)).

(** The class [ph] of the live area after [_updatePlaceholder].  The
    selector of the source chooses the elements of class [ln] or [cb]:
    the lines, and the code blocks, whose class is [cb] until [editLine]
    or [renderLine] makes it [ln]. *)
Definition placeholder (nodes : list node) (md : str) : bool :=
  (length (filter navigable nodes) =? 1) && falsy (trim md).


(** ** The text under the tree *)

(** What an element contributes to the text that [_sync] builds. *)
Definition contribution (renderedText : str -> str) (n : node) : list str :=
  parts (commit renderedText n).

(** A line that is shown: not in edit mode and not a code block. *)
Definition shown (n : node) : bool :=
  cls_ln n && negb (cls_is_ed n) && negb (data_cb n).

(** The step of [_blurLine] on one element. *)
Definition blurred (renderedText : str -> str) (n : node) : node :=
  if data_cb n then n
  else let md := textContent renderedText n in renderLine (set_md md n) md.

(** ** Words *)

(** A code unit of a word: neither white space nor a markup sign. *)
Definition word_char (c : char) : bool := negb (is_space c) && negb (is_markup c).

(** A word: at least one code unit, all of them of a word. *)
Definition word (w : str) : bool := negb (falsy w) && forallb word_char w.

(** The words of [ws] with one space between neighbours. *)
Fixpoint unwords (ws : list str) : str :=
  match ws with
  | [] => []
  | [w] => w
  | w :: rest => w ++ ch " " :: unwords rest
  end.

(** ** One line in edit mode *)






(** ** html-to-md.js *)

Module HtmlToMd.

(** The tree that the parser of the browser builds from the markup: text
    nodes, elements with their attributes and child nodes, and the nodes
    of any other type.  [tag] is the tag name in lower case. *)
#[warnings="-register-all"] Inductive hnode :=
| HText (data : str)
| HOther
| HElem (tag : str) (attrs : list (str * str)) (children : list hnode).

Definition is_element (n : hnode) : bool :=
  match n with HElem _ _ _ => true | _ => false end.

Definition tag_of (n : hnode) : str :=
  match n with HElem tag _ _ => tag | _ => [] end.

(** [node.getAttribute(name) || '']. *)
Fixpoint getAttribute (name : str) (attrs : list (str * str)) : str :=
  match attrs with
  | [] => []
  | (k, v) :: rest => if str_eqb k name then v else getAttribute name rest
  end.

Definition attrs_of (n : hnode) : list (str * str) :=
  match n with HElem _ attrs _ => attrs | _ => [] end.

(** [node.textContent] of an element or a text node. *)
Fixpoint textContent (n : hnode) : str :=
  match n with
  | HText data => data
  | HOther => []
  | HElem _ _ children => flat_map textContent children
  end.

(** The elements below [n], in document order: what the selectors of
    [querySelector] and [querySelectorAll] choose from. *)
Fixpoint descendants (n : hnode) : list hnode :=
  match n with
  | HElem _ _ children =>
      flat_map
        (fun k =>
           match k with
           | HElem _ _ _ => k :: descendants k
           | _ => []
           end)
        children
  | _ => []
  end.

(** [node.querySelectorAll(sel)] for a selector that is a list of tag
    names. *)
Definition querySelectorAll (tags : list str) (n : hnode) : list hnode :=
  filter (fun k => existsb (str_eqb (tag_of k)) tags) (descendants n).

(** [node.querySelector(sel)]. *)
Definition querySelector (tags : list str) (n : hnode) : option hnode :=
  match querySelectorAll tags n with
  | k :: _ => Some k
  | [] => None
  end.

(** [\w]. *)
Definition is_word (c : char) : bool :=
  is_letter c || is_digit c || (c =? ch "_")%N.

(** The group of [className.match(/language-(\w+)/)]: the word after the
    first [language-] that a word follows. *)
Fixpoint language_of (cls : str) : option str :=
  match (if starts_with (u "language-") cls
         then match fst (span is_word (skipn 9 cls)) with
              | [] => None
              | w => Some w
              end
         else None) with
  | Some w => Some w
  | None =>
      match cls with
      | [] => None
      | _ :: cls' => language_of cls'
      end
  end.

(** [s.replace(/\n$/, '')]: a line break at the very end goes. *)
Definition strip_final_nl (s : str) : str :=
  match rev s with
  | c :: r => if (c =? nl)%N then rev r else s
  | [] => s
  end.

(** [parts.join(sep)]. *)
Fixpoint join (sep : str) (parts : list str) : str :=
  match parts with
  | [] => []
  | [p] => p
  | p :: rest => p ++ sep ++ join sep rest
  end.

(** The decimal digits of [n], for the template literal of the numbered
    list. *)
Fixpoint decimal_from (fuel n : nat) : str :=
  match fuel with
  | O => []
  | S fuel' =>
      (if n <? 10 then [] else decimal_from fuel' (n / 10))
        ++ [(48 + N.of_nat (n mod 10))%N]
  end.

Definition decimal (n : nat) : str := decimal_from (S n) n.

(** The items of a numbered list, [i] being the number of the first. *)
Fixpoint numbered (i : nat) (items : list str) : list str :=
  match items with
  | [] => []
  | item :: rest => (decimal i ++ u ". " ++ item) :: numbered (S i) rest
  end.

(** A row of a table. *)
Definition table_row (cells : list str) : str :=
  u "| " ++ join (u " | ") cells ++ u " |" ++ [nl].

(** The case [table] of [walk]. *)
Definition walk_table (n : hnode) : str :=
  match querySelectorAll [u "tr"] n with
  | [] => []
  | first :: others =>
      let heads :=
        List.map (fun c => trim (textContent c))
          (querySelectorAll [u "th"; u "td"] first) in
      table_row heads
        ++ table_row (List.map (fun _ => u "---") heads)
        ++ flat_map
             (fun r =>
                table_row
                  (List.map (fun c => trim (textContent c))
                     (querySelectorAll [u "td"] r)))
             others
  end.

(** The case [pre] of [walk]. *)
Definition walk_pre (n : hnode) : str :=
  let codeEl := querySelector [u "code"] n in
  let lang :=
    match codeEl with
    | Some c =>
        match language_of (getAttribute (u "class") (attrs_of c)) with
        | Some w => w
        | None => []
        end
    | None => []
    end in
  let code :=
    strip_final_nl
      (match codeEl with
       | Some c => textContent c
       | None => textContent n
       end) in
  u "```" ++ lang ++ [nl] ++ code ++ [nl] ++ u "```" ++ [nl].

(** [walk(node)]; [in_pre] tells that the parent element is a [pre].  The
    parameter [depth] of the source is passed on and never read. *)
Fixpoint walk (in_pre : bool) (node : hnode) : str :=
  match node with
  | HText data => data
  | HOther => []
  | HElem tag attrs kids =>
      let tag_is (t : str) := str_eqb tag t in
      let children := flat_map (walk (str_eqb tag (u "pre"))) kids in
      let items :=
        flat_map
          (fun k =>
             match k with
             | HElem _ _ _ => [trim (walk (str_eqb tag (u "pre")) k)]
             | _ => []
             end)
          kids in
      if tag_is (u "h1") then u "# " ++ trim children ++ [nl]
      else if tag_is (u "h2") then u "## " ++ trim children ++ [nl]
      else if tag_is (u "h3") then u "### " ++ trim children ++ [nl]
      else if tag_is (u "h4") then u "#### " ++ trim children ++ [nl]
      else if tag_is (u "h5") then u "##### " ++ trim children ++ [nl]
      else if tag_is (u "h6") then u "###### " ++ trim children ++ [nl]
      else if tag_is (u "p") then
        if falsy (trim children) then [] else trim children ++ [nl]
      else if tag_is (u "strong") || tag_is (u "b") then u "**" ++ children ++ u "**"
      else if tag_is (u "em") || tag_is (u "i") then u "*" ++ children ++ u "*"
      else if tag_is (u "del") || tag_is (u "s") then u "~~" ++ children ++ u "~~"
      else if tag_is (u "a") then
        u "[" ++ children ++ u "](" ++ getAttribute (u "href") attrs ++ u ")"
      else if tag_is (u "img") then
        u "![" ++ getAttribute (u "alt") attrs ++ u "]("
          ++ getAttribute (u "src") attrs ++ u ")"
      else if tag_is (u "br") then [nl]
      else if tag_is (u "hr") then u "---" ++ [nl]
      else if tag_is (u "blockquote") then
        join_nl (List.map (fun l => u "> " ++ l) (split_nl (trim children)))
          ++ [nl]
      else if tag_is (u "code") then
        if in_pre then textContent node
        else u "`" ++ textContent node ++ u "`"
      else if tag_is (u "pre") then walk_pre node
      else if tag_is (u "ul") then
        join_nl (List.map (fun item => u "- " ++ item) items) ++ [nl]
      else if tag_is (u "ol") then join_nl (numbered 1 items) ++ [nl]
      else if tag_is (u "li") then trim children
      else if tag_is (u "table") then walk_table node
      else children
  end.

(** [/\n{3,}/g]: a run of three or more line breaks becomes two. *)
Definition re_nl3 (s : str) : option (str * nat) :=
  let run := fst (span (fun c => (c =? nl)%N) s) in
  if 3 <=? length run then Some ([nl; nl], length run) else None.

(** [htmlToMarkdown(html)]; [parse html] is the body of the document that
    the parser of the browser makes of [html]. *)
Definition htmlToMarkdown (parse : str -> hnode) (html : str) : str :=
  if falsy html then []
  else trim (replace_all re_nl3 (walk false (parse html))).

End HtmlToMd.

(** The tag name of the heading of level [n]. *)
Definition heading_tag (n : nat) : str := u "h" ++ HtmlToMd.decimal n.

(** ** Texts that an expression matches nowhere *)

(** The expression [m] matches at no position of [s]. *)
Fixpoint unmatched (m : str -> option (str * nat)) (s : str) : bool :=
  match m s with
  | Some _ => false
  | None =>
      match s with
      | [] => true
      | _ :: s' => unmatched m s'
      end
  end.

(** A text without three line breaks in a row. *)
Definition nl3_free (s : str) : bool := unmatched HtmlToMd.re_nl3 s.

(* ===================================================================== *)
(** * Part III: lemmas and theorems *)
(* ===================================================================== *)

(** ** Facts about the string primitives *)

Lemma starts_with_prefix (p s : str) :
  starts_with p s = true <-> exists rest, s = p ++ rest.
Proof.
  revert s; induction p as [|a p IH]; intros s; simpl.
  - split; [intros _; now exists s | reflexivity].
  - destruct s as [|b s].
    + split; [discriminate | intros [rest H]; discriminate].
    + rewrite andb_true_iff, N.eqb_eq, IH. split.
      * intros [-> [rest ->]]. now exists rest.
      * intros [rest H]. injection H as -> ->. split; [reflexivity | now exists rest].
Qed.

Lemma starts_with_app (p rest : str) : starts_with p (p ++ rest) = true.
Proof. apply starts_with_prefix. now exists rest. Qed.

Lemma span_app (p : char -> bool) (s : str) :
  fst (span p s) ++ snd (span p s) = s.
Proof.
  induction s as [|c s IH]; simpl; [reflexivity|].
  destruct (p c); [|reflexivity].
  destruct (span p s) as [r rest]; simpl in *. now rewrite IH.
Qed.

Lemma span_fst_all (p : char -> bool) (s : str) :
  forallb p (fst (span p s)) = true.
Proof.
  induction s as [|c s IH]; simpl; [reflexivity|].
  destruct (p c) eqn:E; [|reflexivity].
  destruct (span p s) as [r rest]; simpl in *. now rewrite E, IH.
Qed.

Lemma span_snd_head (p : char -> bool) (s : str) (c : char) (rest : str) :
  snd (span p s) = c :: rest -> p c = false.
Proof.
  induction s as [|a s IH]; simpl; [discriminate|].
  destruct (p a) eqn:E.
  - destruct (span p s) as [r rest']; simpl in *. exact IH.
  - intros H; injection H as -> _. exact E.
Qed.

(** [span] on a run that is followed by a unit outside the class, or by
    nothing. *)
Lemma span_exact (p : char -> bool) (r rest : str) :
  forallb p r = true ->
  match rest with [] => True | c :: _ => p c = false end ->
  span p (r ++ rest) = (r, rest).
Proof.
  intros Hr Hrest. induction r as [|a r IH]; simpl in *.
  - destruct rest as [|c rest]; [reflexivity|]. simpl. now rewrite Hrest.
  - apply andb_true_iff in Hr as [Ha Hr]. now rewrite Ha, IH.
Qed.

Lemma forallb_eqb_repeat (c : char) (r : str) :
  forallb (fun x => (x =? c)%N) r = true -> r = repeat c (length r).
Proof.
  induction r as [|a r IH]; simpl; [reflexivity|].
  rewrite andb_true_iff, N.eqb_eq. intros [-> H]. now rewrite <- IH.
Qed.

Lemma forallb_repeat (p : char -> bool) (c : char) (n : nat) :
  p c = true -> forallb p (repeat c n) = true.
Proof. intros H; induction n; simpl; [reflexivity | now rewrite H]. Qed.

Lemma drop_while_nil (p : char -> bool) (s : str) :
  drop_while p s = [] <-> forallb p s = true.
Proof.
  induction s as [|c s IH]; simpl; [tauto|].
  destruct (p c); simpl; [exact IH | split; discriminate].
Qed.

Lemma drop_while_all (p : char -> bool) (s : str) :
  forallb p (drop_while p s) = true -> forallb p s = true.
Proof.
  induction s as [|c s IH]; simpl; [reflexivity|].
  destruct (p c) eqn:E; simpl; [exact IH | now rewrite E].
Qed.

Lemma forallb_rev (p : char -> bool) (s : str) :
  forallb p (rev s) = forallb p s.
Proof.
  induction s as [|c s IH]; simpl; [reflexivity|].
  rewrite forallb_app, IH. simpl. rewrite andb_true_r. apply andb_comm.
Qed.

(** The trimmed text is empty exactly for a text of white space. *)
Lemma trim_nil (s : str) : trim s = [] <-> forallb is_space s = true.
Proof.
  unfold trim. split.
  - intros H. apply (f_equal (@rev char)) in H. rewrite rev_involutive in H.
    simpl in H. apply drop_while_nil in H. rewrite forallb_rev in H.
    now apply drop_while_all.
  - intros H. apply drop_while_nil in H. now rewrite H.
Qed.

(** ** The classifier *)

Lemma re_heading_spec (n : nat) (text : str) :
  re_heading n text = true <-> heading_line n text.
Proof.
  unfold re_heading, heading_line. rewrite starts_with_prefix.
  split; intros [rest H]; exists rest; rewrite H, <- app_assoc; reflexivity.
Qed.

Lemma run3_ws_spec (c : char) (text : str) :
  is_space c = false ->
  run3_ws c text = true <->
  exists n ws, 3 <= n /\ forallb is_space ws = true /\ text = repeat c n ++ ws.
Proof.
  intros Hc. unfold run3_ws. split.
  - pose proof (span_app (fun x => (x =? c)%N) text) as Happ.
    pose proof (span_fst_all (fun x => (x =? c)%N) text) as Hall.
    destruct (span (fun x => (x =? c)%N) text) as [r rest]; cbn [fst snd] in *.
    rewrite andb_true_iff, Nat.leb_le. intros [Hn Hws].
    exists (length r), rest. repeat split; try assumption.
    now rewrite <- (forallb_eqb_repeat _ _ Hall).
  - intros (n & ws & Hn & Hws & ->).
    rewrite span_exact.
    + rewrite repeat_length. apply andb_true_iff. split; [now apply Nat.leb_le | exact Hws].
    + apply forallb_repeat. apply N.eqb_refl.
    + destruct ws as [|w ws]; [exact I|]. simpl in Hws.
      apply andb_true_iff in Hws as [Hw _].
      destruct (N.eqb_spec w c) as [->|]; [congruence | reflexivity].
Qed.

Lemma re_hr_spec (text : str) : re_hr text = true <-> rule_line text.
Proof.
  unfold re_hr, rule_line. rewrite orb_true_iff.
  rewrite !run3_ws_spec by reflexivity. split.
  - intros [(n & ws & H)|(n & ws & H)]; [exists (ch "-") | exists (ch "*")];
      exists n, ws; tauto.
  - intros (c & n & ws & [->| ->] & H); [left | right]; exists n, ws; exact H.
Qed.

Lemma re_bq_spec (text : str) : re_bq text = true <-> quote_line text.
Proof. unfold re_bq, quote_line. apply starts_with_prefix. Qed.

Lemma re_ul_spec (text : str) : re_ul text = true <-> bullet_line text.
Proof.
  unfold re_ul, bullet_line. split.
  - destruct text as [|c [|c' rest]]; try discriminate.
    rewrite andb_true_iff, !orb_true_iff, !N.eqb_eq.
    intros [H ->]. exists c, rest. tauto.
  - intros (c & rest & H & ->).
    rewrite andb_true_iff, !orb_true_iff, !N.eqb_eq. tauto.
Qed.

Lemma re_ol_spec (text : str) : re_ol text = true <-> numbered_line text.
Proof.
  unfold re_ol, numbered_line. split.
  - pose proof (span_app is_digit text) as Happ.
    pose proof (span_fst_all is_digit text) as Hall.
    destruct (span is_digit text) as [ds rest]; cbn [fst snd] in *.
    rewrite andb_true_iff, negb_true_iff, starts_with_prefix.
    intros [Hds [rest' ->]]. exists ds, rest'. repeat split.
    + now destruct ds.
    + exact Hall.
    + now rewrite <- Happ.
  - intros (ds & rest & Hne & Hall & ->).
    rewrite span_exact; [| exact Hall | reflexivity].
    rewrite starts_with_app. destruct ds; [contradiction | reflexivity].
Qed.

Lemma is_blank_spec (text : str) : is_blank text = true <-> blank_line text.
Proof.
  unfold is_blank, blank_line, str_eqb. rewrite <- trim_nil.
  destruct (str_eq_dec (trim text) []); split; congruence.
Qed.

Lemma not_true_false (b : bool) (P : Prop) : (b = true <-> P) -> b = false -> ~ P.
Proof. intros H Hb HP. apply H in HP. congruence. Qed.

(** What [lineType] answers is the first match. *)
Lemma lineType_first_match (text : str) : first_match text (lineType text).
Proof.
  unfold lineType, first_match.
  destruct (re_heading 6 text) eqn:E6;
    [| destruct (re_heading 5 text) eqn:E5;
    [| destruct (re_heading 4 text) eqn:E4;
    [| destruct (re_heading 3 text) eqn:E3;
    [| destruct (re_heading 2 text) eqn:E2;
    [| destruct (re_heading 1 text) eqn:E1;
    [| destruct (re_hr text) eqn:Ehr;
    [| destruct (re_bq text) eqn:Ebq;
    [| destruct (re_ul text) eqn:Eul;
    [| destruct (re_ol text) eqn:Eol;
    [| destruct (is_blank text) eqn:Eem ]]]]]]]]]];
    (split;
     [ simpl;
       first [ exact I
             | now apply re_heading_spec | now apply re_hr_spec
             | now apply re_bq_spec | now apply re_ul_spec
             | now apply re_ol_spec | now apply is_blank_spec ]
     | intros k' Hk'; destruct k'; simpl in Hk'; try lia; simpl;
       first [ now apply (not_true_false _ _ (re_heading_spec _ text))
             | now apply (not_true_false _ _ (re_hr_spec text))
             | now apply (not_true_false _ _ (re_bq_spec text))
             | now apply (not_true_false _ _ (re_ul_spec text))
             | now apply (not_true_false _ _ (re_ol_spec text))
             | now apply (not_true_false _ _ (is_blank_spec text)) ] ]).
Qed.

Lemma rank_inj (k k' : LineKind) : rank k = rank k' -> k = k'.
Proof. destruct k, k'; simpl; intros H; first [reflexivity | discriminate H]. Qed.

Lemma first_match_unique (text : str) (k k' : LineKind) :
  first_match text k -> first_match text k' -> k = k'.
Proof.
  intros [Hk Hlow] [Hk' Hlow'].
  destruct (Nat.lt_total (rank k) (rank k')) as [Hlt|[Heq|Hgt]].
  - exfalso. exact (Hlow' _ Hlt Hk).
  - now apply rank_inj.
  - exfalso. exact (Hlow _ Hgt Hk').
Qed.

(** C9.  The classifier is a function defined on every string (it has no
    failure value), and what it returns is the one kind that the ordered
    tests select: the first kind, in the order Heading6 down to Heading1,
    HorizontalRule, Blockquote, BulletItem, NumberedItem, Empty, whose
    pattern the text matches, and Paragraph when none does. *)
Theorem lineType_precedence (text : str) (k : LineKind) :
  lineType text = k <-> first_match text k.
Proof.
  split.
  - intros <-. apply lineType_first_match.
  - intros H. apply (first_match_unique text _ _ (lineType_first_match text) H).
Qed.

(** ** Lines: [split] and [join] *)

Lemma split_nl_not_nil (s : str) : split_nl s <> [].
Proof.
  induction s as [|c s IH]; simpl; [discriminate|].
  destruct (c =? nl)%N; [discriminate|].
  destruct (split_nl s); [contradiction | discriminate].
Qed.

Lemma join_nl_cons (p : str) (rest : list str) :
  rest <> [] -> join_nl (p :: rest) = p ++ nl :: join_nl rest.
Proof. destruct rest; [contradiction | reflexivity]. Qed.

Lemma join_split_nl (s : str) : join_nl (split_nl s) = s.
Proof.
  induction s as [|c s IH]; [reflexivity|]. simpl.
  destruct (N.eqb_spec c nl) as [->|Hc].
  - rewrite join_nl_cons by apply split_nl_not_nil. now rewrite IH.
  - pose proof (split_nl_not_nil s) as Hne.
    destruct (split_nl s) as [|l ls]; [contradiction|].
    destruct ls as [|l' ls]; simpl in *; now rewrite <- IH.
Qed.

Lemma split_nl_app (a b : str) :
  split_nl (a ++ nl :: b) = split_nl a ++ split_nl b.
Proof.
  induction a as [|c a IH]; simpl; [reflexivity|].
  destruct (c =? nl)%N; rewrite IH; [reflexivity|].
  pose proof (split_nl_not_nil a) as Hne.
  destruct (split_nl a); [contradiction | reflexivity].
Qed.

Lemma split_join_nl (parts : list str) :
  parts <> [] -> split_nl (join_nl parts) = flat_map split_nl parts.
Proof.
  induction parts as [|p rest IH]; [contradiction|]. intros _.
  destruct rest as [|q rest].
  - simpl. now rewrite app_nil_r.
  - rewrite join_nl_cons by discriminate. rewrite split_nl_app, IH by discriminate.
    reflexivity.
Qed.

Lemma join_nl_app (l1 l2 : list str) :
  l1 <> [] -> l2 <> [] -> join_nl (l1 ++ l2) = join_nl l1 ++ nl :: join_nl l2.
Proof.
  induction l1 as [|p l1 IH]; [contradiction|]. intros _ H2.
  destruct l1 as [|q l1].
  - simpl app. now rewrite join_nl_cons.
  - change ((p :: q :: l1) ++ l2) with (p :: (q :: l1) ++ l2).
    rewrite join_nl_cons by (simpl; discriminate).
    rewrite IH by (discriminate || assumption).
    rewrite (join_nl_cons p (q :: l1)) by discriminate.
    now rewrite <- app_assoc.
Qed.

(** Splitting the pieces again changes nothing. *)
Lemma join_flat_map_split (parts : list str) :
  join_nl (flat_map split_nl parts) = join_nl parts.
Proof.
  induction parts as [|p rest IH]; [reflexivity|]. simpl flat_map.
  destruct rest as [|q rest].
  - simpl. rewrite app_nil_r. apply join_split_nl.
  - rewrite join_nl_app.
    + rewrite IH, join_split_nl. reflexivity.
    + apply split_nl_not_nil.
    + simpl. intros H. apply app_eq_nil in H as [H _].
      exact (split_nl_not_nil _ H).
Qed.

Lemma split_nl_line (l : str) :
  forallb (fun c => negb (c =? nl)%N) l = true -> split_nl l = [l].
Proof.
  induction l as [|c l IH]; simpl; [reflexivity|].
  rewrite andb_true_iff, negb_true_iff. intros [-> H]. now rewrite IH.
Qed.

Lemma split_nl_pieces (s : str) :
  Forall (fun l => forallb (fun c => negb (c =? nl)%N) l = true) (split_nl s).
Proof.
  induction s as [|c s IH]; simpl.
  - now constructor.
  - destruct (c =? nl)%N eqn:E.
    + now constructor.
    + destruct (split_nl s) as [|l ls]; [repeat constructor; simpl; now rewrite E|].
      inversion IH; subst. constructor; [simpl; now rewrite E | assumption].
Qed.

Lemma flat_map_split_pieces (ls : list str) :
  Forall (fun l => forallb (fun c => negb (c =? nl)%N) l = true) ls ->
  flat_map split_nl ls = ls.
Proof.
  induction 1 as [|l ls Hl _ IH]; simpl; [reflexivity|].
  now rewrite (split_nl_line _ Hl), IH.
Qed.

Lemma split_split_nl (s : str) : flat_map split_nl (split_nl s) = split_nl s.
Proof. apply flat_map_split_pieces, split_nl_pieces. Qed.

(** ** The structural parser *)

Lemma collect_until_close (lang : str) (interior : list str) :
  forallb (fun l => negb (re_fence_close l)) interior = true ->
  forall (codeLines : list str) (closing : str) (rest : list str),
    re_fence_close closing = true ->
    collect lang codeLines (interior ++ closing :: rest)
    = makeCodeBlock lang (join_nl (codeLines ++ interior)) :: draw_lines rest.
Proof.
  induction interior as [|l interior IH]; intros Hint codeLines closing rest Hc.
  - simpl. now rewrite Hc, app_nil_r.
  - simpl in Hint. apply andb_true_iff in Hint as [Hl Hint].
    apply negb_true_iff in Hl. simpl. rewrite Hl.
    rewrite (IH Hint _ _ _ Hc), <- app_assoc. reflexivity.
Qed.

(** The parser inverts the flattening of well-delimited segments. *)
Lemma draw_lines_segments (segs : list segment) (rest : list str) :
  forallb seg_ok segs = true ->
  draw_lines (flat_map seg_lines segs ++ rest)
  = List.map seg_node segs ++ draw_lines rest.
Proof.
  induction segs as [|sg segs IH]; intros Hok; [reflexivity|].
  simpl in Hok. apply andb_true_iff in Hok as [Hsg Hok].
  destruct sg as [line|opening interior closing]; simpl in Hsg.
  - unfold opens in Hsg. simpl.
    destruct (re_fence line); [discriminate|]. now rewrite IH.
  - apply andb_true_iff in Hsg as [Hsg Hc].
    apply andb_true_iff in Hsg as [Ho Hint].
    unfold opens in Ho. simpl. unfold fence_lang.
    destruct (re_fence opening) as [[run tail]|]; [|discriminate].
    rewrite <- !app_assoc. simpl.
    rewrite (collect_until_close _ _ Hint _ _ _ Hc).
    now rewrite IH.
Qed.

Lemma filter_map_seg_node (segs : list segment) :
  filter data_cb (List.map seg_node segs)
  = List.map seg_node (filter is_fenced segs).
Proof.
  induction segs as [|[line|o ls c] segs IH]; simpl; [reflexivity|exact IH|].
  now rewrite IH.
Qed.

(** C2, as amended.  For every text whose lines are the lines of a
    sequence of well-delimited segments, N of them fenced groups, the
    parser produces exactly N code blocks, in order, each with the
    interior lines of its group joined by line breaks as code and the
    trimmed tail of the opening line as language; a group is closed by a
    line of three or more backticks or of three or more tildes, whichever
    character opened it, followed by white space only. *)
Theorem draw_fenced_groups (text : str) (segs : list segment) :
  split_nl text = flat_map seg_lines segs ->
  forallb seg_ok segs = true ->
  filter data_cb (draw_nodes text) = List.map seg_node (filter is_fenced segs)
  /\ length (filter data_cb (draw_nodes text)) = length (filter is_fenced segs).
Proof.
  intros Hlines Hok.
  assert (H : filter data_cb (draw_nodes text)
              = List.map seg_node (filter is_fenced segs)).
  { unfold draw_nodes. destruct text as [|c text].
    - simpl in *. destruct segs as [|[line|o ls c] segs]; simpl in Hlines.
      + discriminate.
      + injection Hlines as <- Hrest.
        destruct segs as [|[l|o ls c] segs]; simpl in *;
          [reflexivity | discriminate | discriminate].
      + injection Hlines as <- Hrest. destruct ls; discriminate.
    - cbn [falsy]. rewrite Hlines.
      rewrite <- (app_nil_r (flat_map seg_lines segs)).
      rewrite (draw_lines_segments _ _ Hok). simpl draw_lines.
      rewrite app_nil_r. apply filter_map_seg_node. }
  split; [exact H | now rewrite H, length_map].
Qed.

(** An example for [draw_fenced_groups]: a tilde line closes a backtick
    fence. *)
Lemma draw_fenced_groups_witness :
  let text := join_nl [u "a"; u "```js"; u "x"; u "y"; u "~~~ "; u "b"] in
  let segs := [STextLine (u "a"); SFenced (u "```js") [u "x"; u "y"] (u "~~~ ");
               STextLine (u "b")] in
  split_nl text = flat_map seg_lines segs
  /\ forallb seg_ok segs = true
  /\ filter data_cb (draw_nodes text)
     = [makeCodeBlock (u "js") (join_nl [u "x"; u "y"])]
  /\ length (filter data_cb (draw_nodes text)) = 1.
Proof.
  intros text segs.
  assert (H1 : split_nl text = flat_map seg_lines segs)
    by (vm_compute; reflexivity).
  assert (H2 : forallb seg_ok segs = true) by (vm_compute; reflexivity).
  split; [exact H1 | split; [exact H2 |]].
  exact (draw_fenced_groups text segs H1 H2).
Defined.

(** The groups of the opening expression, spelled out: on a run of three
    or more fence characters followed by a tail that does not go on with
    the same character and holds no line terminator, they are the run and
    the tail. *)
Lemma re_fence_spec (c : char) (n : nat) (tail : str) :
  c = ch "`" \/ c = ch "~" ->
  3 <= n ->
  starts_with [c] tail = false ->
  forallb (fun x => negb (is_line_terminator x)) tail = true ->
  re_fence (repeat c n ++ tail) = Some (repeat c n, tail).
Proof.
  intros Hc Hn Htail Hterm.
  assert (Hspan : span (fun x => (x =? c)%N) (repeat c n ++ tail)
                  = (repeat c n, tail)).
  { apply span_exact.
    - apply forallb_repeat, N.eqb_refl.
    - destruct tail as [|t tail]; [exact I|]. simpl in Htail.
      rewrite andb_true_r in Htail. now rewrite N.eqb_sym. }
  assert (Hrun : fence_run c (repeat c n ++ tail) = Some (repeat c n, tail)).
  { unfold fence_run. rewrite Hspan, repeat_length.
    apply Nat.leb_le in Hn. rewrite Hn.
    rewrite <- (app_nil_r tail) at 1.
    rewrite span_exact; [reflexivity | exact Hterm | exact I]. }
  unfold re_fence. destruct Hc as [-> | ->].
  - now rewrite Hrun.
  - rewrite Hrun.
    destruct n as [|n]; [lia|]. reflexivity.
Qed.

(** C2, as stated, fails: with the closing rule of the specification the
    text below is one matched pair, opened and closed by backticks, with
    three interior lines; the parser closes the group at the tilde line
    and finds two code blocks, the first with the code "code" only. *)
Lemma tilde_closes_backtick_fence :
  let text := join_nl [u "```"; u "code"; u "~~~"; u "more"; u "```"] in
  let segs := [SFenced (u "```") [u "code"; u "~~~"; u "more"] (u "```")] in
  split_nl text = flat_map seg_lines segs
  /\ forallb seg_ok_same segs = true
  /\ List.map seg_node (filter is_fenced segs)
     = [makeCodeBlock [] (join_nl [u "code"; u "~~~"; u "more"])]
  /\ filter data_cb (draw_nodes text)
     = [makeCodeBlock [] (u "code"); makeCodeBlock [] []]
  /\ filter data_cb (draw_nodes text)
     <> List.map seg_node (filter is_fenced segs).
Proof.
  vm_compute. repeat split; discriminate.
Qed.

(** A fence that is never closed takes all the lines that are left. *)
Lemma collect_unterminated (lang : str) (interior : list str) :
  forallb (fun l => negb (re_fence_close l)) interior = true ->
  forall codeLines : list str,
    collect lang codeLines interior
    = [makeCodeBlock lang (join_nl (codeLines ++ interior))].
Proof.
  induction interior as [|l interior IH]; intros Hint codeLines.
  - simpl. now rewrite app_nil_r.
  - simpl in Hint. apply andb_true_iff in Hint as [Hl Hint].
    apply negb_true_iff in Hl. simpl. rewrite Hl.
    rewrite (IH Hint), <- app_assoc. reflexivity.
Qed.

Lemma draw_lines_unterminated (opening : str) (interior : list str) :
  opens opening = true ->
  forallb (fun l => negb (re_fence_close l)) interior = true ->
  draw_lines (opening :: interior)
  = [makeCodeBlock (fence_lang opening) (join_nl interior)].
Proof.
  unfold opens, fence_lang. intros Ho Hint. simpl.
  destruct (re_fence opening) as [[run tail]|]; [|discriminate].
  now rewrite (collect_unterminated _ _ Hint).
Qed.

(** C7.  The text of an opening fence with the language py and the two
    lines line1 and line2, never closed, is drawn as one code block with
    the language py and the code of the two lines. *)
Theorem draw_unterminated_fence :
  draw_nodes (join_nl [u "```py"; u "line1"; u "line2"])
  = [makeCodeBlock (u "py") (join_nl [u "line1"; u "line2"])].
Proof. vm_compute. reflexivity. Qed.

(** ** The round trip through [_sync] and [_draw] *)

Lemma lang_ok_no_nl (lang : str) :
  forallb (fun x => negb (is_line_terminator x)) lang = true ->
  forallb (fun c => negb (c =? nl)%N) (u "```" ++ lang) = true.
Proof.
  intros H. rewrite forallb_app. simpl. 
  apply forallb_forall. intros c Hc.
  rewrite forallb_forall in H. specialize (H c Hc).
  unfold is_line_terminator in H. unfold nl.
  destruct (c =? 10)%N; [discriminate H | reflexivity].
Qed.

Lemma lang_ok_fence (lang : str) :
  lang_ok lang = true ->
  re_fence (u "```" ++ lang) = Some (u "```", lang) /\ trim lang = lang
  /\ split_nl (u "```" ++ lang) = [u "```" ++ lang].
Proof.
  unfold lang_ok. rewrite !andb_true_iff, negb_true_iff.
  intros [[Hstart Hterm] Htrim]. repeat split.
  - apply (re_fence_spec (ch "`") 3 lang); auto.
  - unfold str_eqb in Htrim. now destruct (str_eq_dec (trim lang) lang).
  - apply split_nl_line, lang_ok_no_nl, Hterm.
Qed.

Lemma flat_map_seg_lines_text (ls : list str) :
  flat_map seg_lines (List.map STextLine ls) = ls.
Proof. induction ls as [|l ls IH]; simpl; [reflexivity | now rewrite IH]. Qed.

Lemma node_segs_lines (n : node) :
  block_ok n = true ->
  flat_map seg_lines (node_segs n) = flat_map split_nl (parts n).
Proof.
  unfold block_ok, node_segs, parts. destruct (data_cb n).
  - rewrite andb_true_iff. intros [Hlang _].
    destruct (lang_ok_fence _ Hlang) as (_ & _ & Hsplit).
    cbn [flat_map seg_lines]. rewrite Hsplit, flat_map_app, split_split_nl.
    simpl. now rewrite !app_nil_r.
  - destruct (cls_ln n); intros _; [|reflexivity].
    rewrite flat_map_seg_lines_text. simpl. now rewrite app_nil_r.
Qed.

Lemma node_segs_ok (n : node) :
  block_ok n = true -> forallb seg_ok (node_segs n) = true.
Proof.
  unfold block_ok, node_segs. destruct (data_cb n).
  - rewrite andb_true_iff. intros [Hlang Hcode].
    destruct (lang_ok_fence _ Hlang) as (Hfence & _ & _).
    cbn [forallb seg_ok]. unfold opens. rewrite Hfence. unfold code_ok in Hcode.
    rewrite Hcode. reflexivity.
  - destruct (cls_ln n); [|reflexivity]. unfold text_ok.
    induction (split_nl (data_md n)) as [|l ls IH]; simpl; [reflexivity|].
    rewrite andb_true_iff. intros [Hl Hls]. now rewrite Hl, IH.
Qed.

Lemma commit_seg_node (renderedText : str -> str) (sg : segment) :
  commit renderedText (seg_node sg) = seg_node sg.
Proof. destruct sg; reflexivity. Qed.

Lemma node_segs_parts (renderedText : str -> str) (n : node) :
  block_ok n = true ->
  flat_map parts
    (List.map (commit renderedText) (List.map seg_node (node_segs n)))
  = flat_map seg_lines (node_segs n).
Proof.
  unfold block_ok, node_segs. destruct (data_cb n).
  - rewrite andb_true_iff. intros [Hlang _].
    destruct (lang_ok_fence _ Hlang) as (Hfence & Htrim & _).
    cbn [List.map flat_map seg_lines].
    rewrite commit_seg_node.
    cbn [seg_node]. unfold fence_lang. rewrite Hfence, Htrim.
    unfold parts. cbn [data_cb data_lang data_code makeCodeBlock].
    rewrite join_split_nl. reflexivity.
  - destruct (cls_ln n); intros _; [|reflexivity].
    induction (split_nl (data_md n)) as [|l ls IH]; [reflexivity|].
    simpl in *. now rewrite IH.
Qed.

Lemma segs_of_blocks (renderedText : str -> str) (D : list node) :
  forallb block_ok D = true ->
  flat_map seg_lines (flat_map node_segs D) = flat_map split_nl (flat_map parts D)
  /\ forallb seg_ok (flat_map node_segs D) = true
  /\ flat_map parts
       (List.map (commit renderedText)
          (List.map seg_node (flat_map node_segs D)))
     = flat_map seg_lines (flat_map node_segs D).
Proof.
  induction D as [|n D IH]; simpl; [repeat split|].
  rewrite andb_true_iff. intros [Hn HD].
  destruct (IH HD) as (IH1 & IH2 & IH3).
  repeat split.
  - rewrite !flat_map_app. now rewrite IH1, (node_segs_lines _ Hn).
  - now rewrite forallb_app, IH2, (node_segs_ok _ Hn).
  - rewrite !map_app, !flat_map_app.
    now rewrite IH3, (node_segs_parts renderedText _ Hn).
Qed.

(** C1, as amended.  The round trip holds for every document in which,
    once the lines in edit mode are committed, no line of a text block
    opens a fence, no line of the code of a code block closes one, and
    the language of every code block is trimmed, holds no line terminator
    and does not begin with a backtick. *)
Theorem round_trip_of_plain_blocks (renderedText : str -> str) (D : list node) :
  forallb block_ok (List.map (commit renderedText) D) = true ->
  round_trips renderedText D.
Proof.
  intros Hok. unfold round_trips.
  destruct (segs_of_blocks renderedText _ Hok) as (Hlines & Hsegs & Hparts).
  unfold canonical at 2 3.
  set (L := flat_map parts (List.map (commit renderedText) D)) in *.
  set (segs := flat_map node_segs (List.map (commit renderedText) D)) in *.
  unfold draw_nodes. destruct (join_nl L) as [|c s] eqn:Hs; [reflexivity|].
  cbn [falsy]. rewrite <- Hs.
  assert (HL : L <> []) by (intros E; rewrite E in Hs; discriminate).
  rewrite (split_join_nl L HL), <- Hlines.
  rewrite <- (app_nil_r (flat_map seg_lines segs)).
  rewrite (draw_lines_segments _ _ Hsegs). simpl draw_lines. rewrite app_nil_r.
  unfold canonical. rewrite Hparts, Hlines. apply join_flat_map_split.
Qed.

(** An example for [round_trip_of_plain_blocks]: a line, a code block and
    a line in edit mode. *)
Lemma round_trip_of_plain_blocks_witness :
  let D := [makeLine (u "Before"); makeCodeBlock (u "go") (u "fmt.Println(1)");
            editLine (makeLine (u "old")) (u "After")] in
  forallb block_ok (List.map (commit (fun text => text)) D) = true
  /\ round_trips (fun text => text) D.
Proof.
  intros D.
  assert (H : forallb block_ok (List.map (commit (fun text => text)) D) = true)
    by (vm_compute; reflexivity).
  split; [exact H | exact (round_trip_of_plain_blocks (fun text => text) D H)].
Defined.

(** The text of a tree without an element in edit mode does not depend on
    what the previews read as. *)
Lemma canonical_without_editing (rt1 rt2 : str -> str) (D : list node) :
  forallb (fun n => negb (cls_is_ed n)) D = true ->
  canonical rt1 D = canonical rt2 D.
Proof.
  intros H. unfold canonical. f_equal. f_equal.
  induction D as [|n D IH]; [reflexivity|].
  simpl in H. apply andb_true_iff in H as [Hn HD].
  apply negb_true_iff in Hn. simpl. rewrite (IH HD). f_equal.
  unfold commit. now rewrite Hn, andb_false_r.
Qed.

(** C1, as stated, fails: the text of a document that holds the one line
    of three backticks is drawn as an empty code block, whose text has an
    empty code line and a closing fence more. *)
Lemma fence_line_does_not_round_trip :
  ~ round_trips (fun text => text) [makeLine (u "```")].
Proof. vm_compute. discriminate. Qed.

(** ** The history *)

Lemma top_snoc (l : list str) (x : str) : top (l ++ [x]) = Some x.
Proof. unfold top. rewrite map_app. simpl. apply last_last. Qed.

Lemma top_none (l : list str) : top l = None -> l = [].
Proof.
  destruct l as [|a l] using rev_ind; [reflexivity|].
  rewrite top_snoc. discriminate.
Qed.

Lemma top_some (l : list str) (x : str) :
  top l = Some x -> exists l0, l = l0 ++ [x] /\ popped l = l0.
Proof.
  destruct l as [|a l _] using rev_ind; [discriminate|].
  rewrite top_snoc. intros H; injection H as ->.
  exists l. split; [reflexivity|]. unfold popped. now rewrite removelast_last.
Qed.

Lemma is_top_spec (state : str) (l : list str) :
  is_top state l = true <-> top l = Some state.
Proof.
  unfold is_top, str_eqb. destruct (top l) as [t|]; [|split; discriminate].
  destruct (str_eq_dec state t) as [->|Hne]; split; try congruence; try reflexivity.
Qed.

Lemma falsy_spec (s : str) : falsy s = true <-> s = [].
Proof. destruct s; simpl; split; congruence. Qed.

Lemma no_adj_app_l (l1 l2 : list str) : no_adj (l1 ++ l2) -> no_adj l1.
Proof.
  induction l1 as [|a l1 IH]; [intros _; exact I|].
  destruct l1 as [|b l1]; [intros _; exact I|].
  simpl in *. intros [Hab H]. split; [exact Hab | exact (IH H)].
Qed.

Lemma no_adj_snoc (l : list str) (x : str) :
  no_adj (l ++ [x]) <-> no_adj l /\ top l <> Some x.
Proof.
  induction l as [|a l IH].
  - simpl. unfold top. simpl. split; [split; [exact I | discriminate] | tauto].
  - destruct l as [|b l].
    + simpl. unfold top. simpl. split.
      * intros [H _]. split; [exact I | congruence].
      * intros [_ H]. split; [congruence | exact I].
    + change (no_adj ((a :: b :: l) ++ [x]))
        with (a <> b /\ no_adj ((b :: l) ++ [x])).
      change (no_adj (a :: b :: l)) with (a <> b /\ no_adj (b :: l)).
      change (top (a :: b :: l)) with (top (b :: l)).
      rewrite IH. tauto.
Qed.

Lemma no_adj_tl (l : list str) : no_adj l -> no_adj (tl l).
Proof.
  destruct l as [|a [|b l]]; simpl; try tauto.
Qed.

Lemma clean_app_l (l1 l2 : list str) : clean (l1 ++ l2) -> clean l1.
Proof.
  intros [Hin Hadj]. split.
  - intros H. apply Hin, in_or_app. now left.
  - exact (no_adj_app_l _ _ Hadj).
Qed.

Lemma clean_snoc (l : list str) (x : str) :
  clean (l ++ [x]) <-> clean l /\ x <> [] /\ top l <> Some x.
Proof.
  unfold clean. rewrite no_adj_snoc. split.
  - intros [Hin [Hadj Htop]]. repeat split; try assumption.
    + intros H. apply Hin, in_or_app. now left.
    + intros ->. apply Hin, in_or_app. right. now left.
  - intros [[Hin Hadj] [Hx Htop]]. repeat split; try assumption.
    intros H. apply in_app_or in H as [H|[H|[]]]; [now apply Hin | congruence].
Qed.

Lemma clean_tl (l : list str) : clean l -> clean (tl l).
Proof.
  intros [Hin Hadj]. split; [|now apply no_adj_tl].
  destruct l; simpl in *; tauto.
Qed.

(** In a clean walk the current text is neither empty nor the top of the
    undo stack. *)
Lemma clean_walk_current (U : list str) (md : str) (later : list str) :
  clean (U ++ md :: later) -> clean U /\ md <> [] /\ top U <> Some md.
Proof.
  intros H. change (U ++ md :: later) with (U ++ [md] ++ later) in H.
  rewrite app_assoc in H. apply clean_app_l in H. now apply clean_snoc.
Qed.

Lemma hist_ok_undo_stack (e : editor) : hist_ok e -> clean (_undoStack e).
Proof.
  unfold hist_ok. destruct (_redoStack e); [tauto|].
  intros H. now apply clean_walk_current in H.
Qed.

(** A push that is skipped leaves the editor as it was; a push that is
    not skipped appends the state, drops the oldest entry beyond 150 and
    empties the redo stack. *)
Lemma pushUndo_cases (state : str) (e : editor) :
  ((state = [] \/ top (_undoStack e) = Some state) /\ _pushUndo state e = e)
  \/ (state <> [] /\ top (_undoStack e) <> Some state
      /\ _md (_pushUndo state e) = _md e
      /\ _redoStack (_pushUndo state e) = []
      /\ _undoStack (_pushUndo state e)
         = if 150 <? length (_undoStack e ++ [state])
           then tl (_undoStack e ++ [state]) else _undoStack e ++ [state]).
Proof.
  unfold _pushUndo.
  destruct (falsy state) eqn:Hf; [left; split; [left; now apply falsy_spec | reflexivity]|].
  destruct (is_top state (_undoStack e)) eqn:Ht.
  - left. split; [right; now apply is_top_spec | reflexivity].
  - right. simpl. repeat split.
    + intros H. apply falsy_spec in H. congruence.
    + intros H. apply is_top_spec in H. congruence.
Qed.

Lemma hist_ok_push (state newMd : str) (e : editor) :
  state = _md e -> hist_ok e ->
  hist_ok (with_md newMd (_pushUndo state e))
  /\ (newMd <> _md e -> _redoStack (with_md newMd (_pushUndo state e)) = []).
Proof.
  intros -> Hok.
  destruct (pushUndo_cases (_md e) e) as [[Hskip ->]|(Hne & Htop & Hmd & Hredo & Hundo)].
  - unfold hist_ok in *. cbn [with_md _redoStack _undoStack _md].
    destruct (_redoStack e) as [|r later]; [now split|].
    apply clean_walk_current in Hok as (_ & Hmd & Htop). tauto.
  - unfold hist_ok. cbn [with_md _redoStack _undoStack _md].
    rewrite Hredo, Hundo. split; [|reflexivity].
    assert (Hc : clean (_undoStack e ++ [_md e])).
    { apply clean_snoc. split; [now apply hist_ok_undo_stack | tauto]. }
    destruct (150 <? length (_undoStack e ++ [_md e])); [now apply clean_tl | exact Hc].
Qed.

Lemma draw_history (e : editor) :
  _md (_draw e) = _md e
  /\ _undoStack (_draw e) = _undoStack e
  /\ _redoStack (_draw e) = _redoStack e.
Proof. unfold _draw. destruct (_live e); repeat split. Qed.

Ltac forget_draw :=
  match goal with
  | |- context [_draw ?x] =>
      let Hm := fresh in let Hu := fresh in let Hr := fresh in
      destruct (draw_history x) as (Hm & Hu & Hr);
      rewrite ?Hm, ?Hu, ?Hr; clear Hm Hu Hr
  end.

Section HistoryWalk.

Variable renderedText : str -> str.

Lemma sync_history (e : editor) (nodes : list node) :
  let e' := edit renderedText nodes e in
  (canonical renderedText nodes = _md e /\
   _md e' = _md e /\ _undoStack e' = _undoStack e /\ _redoStack e' = _redoStack e)
  \/ (canonical renderedText nodes <> _md e /\
      exists live,
        e' = with_md (canonical renderedText nodes)
               (_pushUndo (_md e) (with_live live e))).
Proof.
  unfold edit, _sync. cbn [with_live _live _md].
  unfold str_eqb.
  destruct (str_eq_dec (canonical renderedText nodes) (_md e)) as [Heq|Hne].
  - left. repeat split; assumption.
  - right. split; [exact Hne|]. eexists. reflexivity.
Qed.

Lemma hist_ok_edit (e : editor) (nodes : list node) :
  hist_ok e -> hist_ok (edit renderedText nodes e).
Proof.
  intros Hok.
  destruct (sync_history e nodes) as [(_ & Hmd & Hu & Hr)|(Hne & live & ->)].
  - unfold hist_ok in *. now rewrite Hmd, Hu, Hr.
  - now apply hist_ok_push.
Qed.

Lemma hist_ok_undo (e : editor) : hist_ok e -> hist_ok (_undo e).
Proof.
  intros Hok. unfold _undo.
  destruct (top (_undoStack e)) as [state|] eqn:Htop; [|exact Hok].
  apply top_some in Htop as (U & HU & Hpop).
  unfold hist_ok in *. forget_draw. cbn [_redoStack _undoStack _md].
  rewrite Hpop. rewrite HU in Hok.
  destruct (_redoStack e) as [|r later]; simpl app.
  - simpl rev. exact Hok.
  - cbv iota. rewrite rev_app_distr. simpl app. now rewrite <- app_assoc in Hok.
Qed.

Lemma hist_ok_redo (e : editor) : hist_ok e -> hist_ok (_redo e).
Proof.
  intros Hok. unfold _redo.
  destruct (top (_redoStack e)) as [state|] eqn:Htop; [|exact Hok].
  apply top_some in Htop as (R & HR & Hpop).
  unfold hist_ok in *. forget_draw. cbn [_redoStack _undoStack _md].
  rewrite Hpop. rewrite HR in Hok.
  destruct R as [|r later]; simpl app in *.
  - exact Hok.
  - cbv iota in Hok. rewrite rev_app_distr in Hok. simpl app in Hok.
    now rewrite <- app_assoc.
Qed.

Lemma reachable_hist_ok (e : editor) : reachable renderedText e -> hist_ok e.
Proof.
  induction 1 as [e Hu Hr|e nodes _ IH|e _ IH|e _ IH].
  - unfold hist_ok, clean. rewrite Hr, Hu. simpl. tauto.
  - now apply hist_ok_edit.
  - now apply hist_ok_undo.
  - now apply hist_ok_redo.
Qed.

(** An edit that changes the text of a reachable state empties the redo
    stack. *)
Lemma edit_clears_redo (e : editor) (nodes : list node) :
  hist_ok e ->
  canonical renderedText nodes <> _md e ->
  _redoStack (edit renderedText nodes e) = [].
Proof.
  intros Hok Hne.
  destruct (sync_history e nodes) as [(Heq & _)|(_ & live & ->)]; [contradiction|].
  destruct (@hist_ok_push (_md e) (canonical renderedText nodes)
              (with_live live e) eq_refl Hok) as [_ H].
  exact (H Hne).
Qed.

(** C4.  In every history state reached by edits, undos and redos, an
    undo followed by an edit, one whose text differs from the current text
    so that [_sync] pushes a snapshot, leaves the redo stack empty. *)
Theorem redo_invalidation (e : editor) (nodes : list node) :
  reachable renderedText e ->
  canonical renderedText nodes <> _md (_undo e) ->
  _redoStack (edit renderedText nodes (_undo e)) = [].
Proof.
  intros Hreach Hne. apply edit_clears_redo; [|exact Hne].
  apply reachable_hist_ok. now apply reach_undo.
Qed.

End HistoryWalk.

(** An example for [redo_invalidation]: the text a is edited into b, the
    edit is undone, and a new edit into c leaves nothing to redo. *)
Lemma redo_invalidation_witness :
  let rt := fun text : str => text in
  let e := edit rt [makeLine (u "b")] (with_md (u "a") new_editor) in
  reachable rt e
  /\ canonical rt [makeLine (u "c")] <> _md (_undo e)
  /\ _redoStack (_undo e) = [u "b"]
  /\ _redoStack (edit rt [makeLine (u "c")] (_undo e)) = [].
Proof.
  intros rt e.
  assert (Hreach : reachable rt e)
    by (apply reach_edit, reach_start; reflexivity).
  assert (Hne : canonical rt [makeLine (u "c")] <> _md (_undo e))
    by (vm_compute; discriminate).
  split; [exact Hreach | split; [exact Hne | split; [reflexivity |]]].
  exact (redo_invalidation rt e [makeLine (u "c")] Hreach Hne).
Defined.

(** C10, as amended.  A push of the empty string, or of the string on top
    of the undo stack, changes nothing: neither stack.  In every history
    state reached from empty stacks by edits, undos and redos, the undo
    stack therefore holds no empty entry and no two equal neighbours, and
    an undo that restores a state never restores the empty text. *)
Theorem undo_stack_clean (renderedText : str -> str) (e : editor) :
  (forall state,
     state = [] \/ top (_undoStack e) = Some state -> _pushUndo state e = e)
  /\ (reachable renderedText e ->
      ~ In [] (_undoStack e) /\ no_adj (_undoStack e)
      /\ (_undoStack e <> [] -> _md (_undo e) <> [])).
Proof.
  split.
  - intros state Hskip.
    destruct (pushUndo_cases state e) as [[_ H]|(Hne & Htop & _)];
      [exact H | tauto].
  - intros Hreach.
    destruct (hist_ok_undo_stack e (reachable_hist_ok renderedText e Hreach)) as [Hin Hadj].
    repeat split; try assumption.
    intros Hne. unfold _undo.
    destruct (top (_undoStack e)) as [state|] eqn:Htop.
    + forget_draw. cbn [_md]. intros ->.
      apply top_some in Htop as (U & HU & _).
      apply Hin. rewrite HU. apply in_or_app. right. now left.
    + apply top_none in Htop. contradiction.
Qed.

(** An example for [undo_stack_clean]. *)
Lemma undo_stack_clean_witness :
  let rt := fun text : str => text in
  let e := edit rt [makeLine (u "b")] (with_md (u "a") new_editor) in
  reachable rt e
  /\ _undoStack e = [u "a"]
  /\ _pushUndo (u "a") e = e
  /\ _md (_undo e) <> [].
Proof.
  intros rt e.
  assert (Hreach : reachable rt e)
    by (apply reach_edit, reach_start; reflexivity).
  destruct (undo_stack_clean rt e) as [Hskip Hclean].
  destruct (Hclean Hreach) as (_ & _ & Hundo).
  split; [exact Hreach | split; [reflexivity | split]].
  - apply Hskip. right. reflexivity.
  - apply Hundo. vm_compute. discriminate.
Defined.

(** C10, as stated, fails: [_redo] pushes the current text unchecked, and
    [loadValue] replaces the text without touching the history.  After an
    edit, an undo, a load of the empty text and a redo, the undo stack
    holds the empty string, and the next undo restores the empty text. *)
Lemma redo_after_load_stores_empty :
  let rt := fun text : str => text in
  let html := fun text : str => text in
  let e1 := edit rt [makeLine (u "b")] (init html (u "a") new_editor) in
  let e2 := _redo (loadValue html [] (_undo e1)) in
  _undoStack e1 = [u "a"]
  /\ In [] (_undoStack e2)
  /\ _md (_undo e2) = [].
Proof. vm_compute. repeat split. now left. Qed.

(** ** The bound of the undo stack *)

Lemma no_adj_skipn (d : nat) (l : list str) : no_adj l -> no_adj (skipn d l).
Proof.
  revert l; induction d as [|d IH]; intros l H; [exact H|].
  destruct l as [|a l]; [exact I|]. simpl. apply IH.
  destruct l; [exact I | apply H].
Qed.

Lemma NoDup_no_adj (l : list str) : NoDup l -> no_adj l.
Proof.
  induction 1 as [|a l Hin _ IH]; [exact I|].
  destruct l as [|b l]; [exact I|]. split; [|exact IH].
  intros ->. apply Hin. now left.
Qed.

(** Pushing non-empty snapshots, none equal to its predecessor, keeps the
    newest entries: the stack is a suffix of all that was pushed, of
    length 150 at most. *)
Lemma push_all_suffix (ss : list str) :
  forall e : editor,
    length (_undoStack e) <= 150 ->
    ~ In [] ss ->
    no_adj (_undoStack e ++ ss) ->
    exists d,
      _undoStack (push_all ss e) = skipn d (_undoStack e ++ ss)
      /\ length (_undoStack (push_all ss e))
         = Nat.min 150 (length (_undoStack e) + length ss).
Proof.
  induction ss as [|s ss IH]; intros e Hlen Hin Hadj.
  - exists 0. unfold push_all. cbn [fold_left length skipn].
    rewrite app_nil_r. split; [reflexivity | lia].
  - assert (Hs : s <> []) by (intros ->; apply Hin; now left).
    assert (Hadj' : no_adj ((_undoStack e ++ [s]) ++ ss))
      by (now rewrite <- app_assoc).
    assert (Htop : top (_undoStack e) <> Some s)
      by (now apply no_adj_app_l, no_adj_snoc in Hadj').
    destruct (pushUndo_cases s e) as [[[?|?] _]|(_ & _ & _ & _ & HU)];
      [contradiction | contradiction |].
    assert (Hd : exists d1,
               d1 <= length (_undoStack e ++ [s])
               /\ _undoStack (_pushUndo s e) = skipn d1 (_undoStack e ++ [s])
               /\ length (_undoStack (_pushUndo s e))
                  = Nat.min 150 (length (_undoStack e) + 1)).
    { rewrite HU.
      assert (Hl : length (_undoStack e ++ [s]) = length (_undoStack e) + 1)
        by (rewrite length_app; reflexivity).
      rewrite Hl.
      destruct (Nat.ltb_spec 150 (length (_undoStack e) + 1)).
      - exists 1. split; [lia|].
        split; [destruct (_undoStack e ++ [s]); reflexivity|].
        destruct (_undoStack e ++ [s]) as [|a l]; cbn [length tl] in *; lia.
      - exists 0. split; [lia|]. split; [reflexivity | lia]. }
    destruct Hd as (d1 & Hd1 & HU1 & Hlen1).
    assert (Heq : _undoStack (_pushUndo s e) ++ ss
                  = skipn d1 (_undoStack e ++ s :: ss)).
    { rewrite HU1.
      change (_undoStack e ++ s :: ss) with (_undoStack e ++ [s] ++ ss).
      rewrite app_assoc, (skipn_app d1 (_undoStack e ++ [s]) ss).
      replace (d1 - length (_undoStack e ++ [s])) with 0 by lia.
      reflexivity. }
    destruct (IH (_pushUndo s e)) as (d2 & HU2 & Hlen2).
    + lia.
    + intros H. apply Hin. now right.
    + rewrite Heq. now apply no_adj_skipn.
    + exists (d2 + d1). simpl push_all. fold (push_all ss (_pushUndo s e)).
      split.
      * rewrite HU2, Heq. apply skipn_skipn.
      * rewrite Hlen2, Hlen1. cbn [length]. lia.
Qed.

(** C5, as amended.  After 151 distinct snapshots, none of them empty,
    were pushed on an empty undo stack, the stack holds exactly the 150
    most recent ones, oldest first: the first one was evicted. *)
Theorem history_bound (ss : list str) (e : editor) :
  _undoStack e = [] ->
  length ss = 151 ->
  NoDup ss ->
  ~ In [] ss ->
  _undoStack (push_all ss e) = tl ss
  /\ length (_undoStack (push_all ss e)) = 150.
Proof.
  intros HU Hlen Hdup Hin.
  destruct (push_all_suffix ss e) as (d & Hd & Hl).
  - rewrite HU. simpl. lia.
  - exact Hin.
  - rewrite HU. simpl. now apply NoDup_no_adj.
  - rewrite HU in *. simpl in *. rewrite Hlen in Hl. simpl in Hl.
    split; [|exact Hl].
    rewrite Hd in *. rewrite length_skipn in Hl.
    assert (d = 1) by lia. subst d.
    destruct ss; reflexivity.
Qed.

Lemma distinct_NoDup (ss : list str) : distinct ss = true -> NoDup ss.
Proof.
  induction ss as [|s ss IH]; simpl; [constructor|].
  rewrite andb_true_iff, negb_true_iff. intros [Hs Hss].
  constructor; [|now apply IH].
  intros Hin. assert (H : existsb (str_eqb s) ss = true).
  { apply existsb_exists. exists s. split; [exact Hin|].
    unfold str_eqb. now destruct (str_eq_dec s s). }
  congruence.
Qed.

(** An example for [history_bound]: the snapshots a, aa, aaa, ... *)
Lemma history_bound_witness :
  let ss := List.map (fun n => repeat (ch "a") (S n)) (seq 0 151) in
  length ss = 151 /\ NoDup ss /\ ~ In [] ss
  /\ _undoStack (push_all ss new_editor) = tl ss
  /\ length (_undoStack (push_all ss new_editor)) = 150.
Proof.
  intros ss.
  assert (Hlen : length ss = 151) by (vm_compute; reflexivity).
  assert (Hdup : NoDup ss) by (apply distinct_NoDup; vm_compute; reflexivity).
  assert (Hin : ~ In [] ss).
  { unfold ss. rewrite in_map_iff. intros (n & Hn & _). discriminate Hn. }
  split; [exact Hlen | split; [exact Hdup | split; [exact Hin |]]].
  exact (history_bound ss new_editor eq_refl Hlen Hdup Hin).
Defined.

(** C5, as stated, fails: of the 151 distinct snapshots below the last
    one is the empty string, which [_pushUndo] skips; the stack then holds
    the first 150 snapshots, the oldest among them, and not the 150 most
    recent ones. *)
Lemma empty_snapshot_is_not_pushed :
  let ss := List.map (fun n => repeat (ch "a") n) (rev (seq 0 151)) in
  length ss = 151 /\ NoDup ss
  /\ _undoStack (push_all ss new_editor) = removelast ss
  /\ _undoStack (push_all ss new_editor) <> tl ss.
Proof.
  intros ss.
  assert (H : _undoStack (push_all ss new_editor) = removelast ss)
    by (vm_compute; reflexivity).
  split; [vm_compute; reflexivity|].
  split; [apply distinct_NoDup; vm_compute; reflexivity|].
  split; [exact H|].
  rewrite H. intros E.
  apply (f_equal (fun l => length (hd [] l))) in E.
  vm_compute in E. discriminate E.
Qed.

(** ** Loading *)

Lemma replace_cr (s : str) :
  replace_all (lit [cr] [nl]) s
  = List.map (fun c => if (c =? cr)%N then nl else c) s.
Proof.
  unfold replace_all. induction s as [|c s IH]; [reflexivity|].
  cbn [replace_from List.map]. unfold lit at 1. cbn [starts_with].
  rewrite andb_true_r, N.eqb_sym.
  destruct (c =? cr)%N; cbn [length pred app]; now rewrite IH.
Qed.

Lemma replace_crlf_cons (c : char) (s : str) :
  replace_from (lit [cr; nl] [nl]) 0 (c :: s)
  = match s with
    | a :: s' =>
        if ((c =? cr) && (a =? nl))%N
        then nl :: replace_from (lit [cr; nl] [nl]) 0 s'
        else c :: replace_from (lit [cr; nl] [nl]) 0 s
    | [] => [c]
    end.
Proof.
  destruct s as [|a s']; cbn [replace_from]; unfold lit at 1;
    cbn [starts_with].
  - now rewrite andb_false_r.
  - rewrite andb_true_r, (N.eqb_sym cr c), (N.eqb_sym nl a).
    destruct ((c =? cr) && (a =? nl))%N; reflexivity.
Qed.

Lemma normalize_eol_unify (s : str) : normalize_eol s = unify_eol s.
Proof.
  unfold normalize_eol. rewrite replace_cr. unfold replace_all.
  set (f := fun c : N => if (c =? cr)%N then nl else c).
  set (pass := replace_from (lit [cr; nl] [nl]) 0).
  enough (H : List.map f (pass s) = unify_eol s
              /\ forall c, List.map f (pass (c :: s)) = unify_eol (c :: s))
    by apply H.
  induction s as [|a s [IH1 IH2]].
  - split; [reflexivity|]. intros c.
    unfold pass. rewrite replace_crlf_cons. unfold f. cbn [List.map unify_eol].
    now destruct (c =? cr)%N.
  - split; [apply IH2|]. intros c.
    unfold pass at 1. rewrite replace_crlf_cons. fold pass.
    cbn [unify_eol]. fold (unify_eol (a :: s)).
    destruct (c =? cr)%N eqn:Ec; cbn [andb].
    + destruct (a =? nl)%N eqn:Ea; cbn [List.map].
      * now rewrite IH1.
      * unfold f at 1. now rewrite Ec, IH2.
    + cbn [List.map]. unfold f at 1. now rewrite Ec, IH2.
Qed.

Lemma unify_eol_no_cr (s : str) : ~ In cr (unify_eol s).
Proof.
  rewrite <- normalize_eol_unify. unfold normalize_eol. rewrite replace_cr.
  rewrite in_map_iff. intros (c & Hc & _).
  destruct (N.eqb_spec c cr); [discriminate Hc | contradiction].
Qed.

(** What [isHtml] looks for: a less-than sign, a letter right after it,
    and a greater-than sign anywhere later. *)
Lemma isHtml_spec (s : str) :
  isHtml s = true <->
  exists a l b c,
    is_letter l = true /\ s = a ++ ch "<" :: l :: b ++ ch ">" :: c.
Proof.
  split.
  - induction s as [|x s IH]; [discriminate|].
    cbn [isHtml]. rewrite orb_true_iff, andb_true_iff, N.eqb_eq.
    intros [[-> H]|H].
    + destruct s as [|l s]; [discriminate|].
      apply andb_true_iff in H as [Hl Hgt].
      unfold has_gt in Hgt. apply existsb_exists in Hgt as (g & Hin & Hg).
      apply N.eqb_eq in Hg. subst g.
      apply in_split in Hin as (b & c & ->).
      exists [], l, b, c. split; [exact Hl | reflexivity].
    + destruct (IH H) as (a & l & b & c & Hl & ->).
      exists (x :: a), l, b, c. split; [exact Hl | reflexivity].
  - intros (a & l & b & c & Hl & ->).
    induction a as [|x a IH].
    + cbn [app isHtml]. rewrite N.eqb_refl, Hl. cbn [andb].
      unfold has_gt. rewrite existsb_app. cbn [existsb].
      rewrite N.eqb_refl. now rewrite orb_true_r.
    + cbn [app isHtml]. fold (a ++ ch "<" :: l :: b ++ ch ">" :: c).
      rewrite IH. apply orb_true_r.
Qed.

(** C3, as amended.  [loadValue] takes the value for rich markup when
    [isHtml] finds a tag in it and converts it, takes it as it is
    otherwise, makes the line endings uniform (no carriage return is
    left), stores the text, redraws the document from it when the live
    area exists, and leaves the undo stack and the redo stack as they
    were. *)
Theorem loadValue_spec (htmlToMarkdown : str -> str) (value : str)
  (e : editor) :
  let source :=
    if falsy value then []
    else if isHtml value then htmlToMarkdown value else value in
  let e' := loadValue htmlToMarkdown value e in
  _md e' = unify_eol source
  /\ ~ In cr (_md e')
  /\ _live e' = match _live e with
                | Some _ => Some (draw_nodes (_md e'))
                | None => None
                end
  /\ _undoStack e' = _undoStack e
  /\ _redoStack e' = _redoStack e.
Proof.
  intros source e'. unfold e', loadValue.
  rewrite normalize_eol_unify. fold source.
  unfold _draw. cbn [with_md _live].
  destruct (_live e) eqn:El;
    cbn [with_live with_md _md _live _undoStack _redoStack];
    rewrite ?El; repeat split; apply unify_eol_no_cr.
Qed.

(** C3, as stated, fails: a load on a history with one state to undo and
    one to redo leaves both there. *)
Lemma loadValue_keeps_history :
  let rt := fun text : str => text in
  let html := fun text : str => text in
  let e0 := init html (u "a") new_editor in
  let e := _undo (edit rt [makeLine (u "c")] (edit rt [makeLine (u "b")] e0)) in
  _undoStack (loadValue html (u "new") e) = [u "a"]
  /\ _redoStack (loadValue html (u "new") e) = [u "c"]
  /\ _md (loadValue html (u "new") e) = u "new".
Proof. vm_compute. repeat split. Qed.

(** ** The inline renderer *)

(** C6, on the input of a code span with two asterisks inside: the span
    is substituted first, and the italic substitution that runs later
    matches inside the text that the span left, so the asterisks are
    rendered as emphasis. *)
Theorem inlineRender_emphasis_inside_code :
  inlineRender (u "`a*b*c`")
  = u "<span class=" ++ quoted (u "ic") ++ u ">a<em>b</em>c</span>".
Proof. vm_compute. reflexivity. Qed.

(** ** Focus *)


Lemma nth_error_update_other (f : node -> node) (nodes : list node) :
  forall i j : nat, i <> j ->
    nth_error (update i f nodes) j = nth_error nodes j.
Proof.
  induction nodes as [|a nodes IH]; intros [|i] [|j] Hij;
    try reflexivity; try contradiction.
  cbn [update nth_error]. apply IH. congruence.
Qed.



Lemma find_index_some (p : node -> bool) (nodes : list node) :
  forall i : nat,
    find_index p nodes = Some i ->
    exists n, nth_error nodes i = Some n /\ p n = true.
Proof.
  induction nodes as [|a nodes IH]; intros i; [discriminate|].
  cbn [find_index]. destruct (p a) eqn:Ea.
  - intros H; injection H as <-. now exists a.
  - destruct (find_index p nodes) as [k|]; [|discriminate].
    intros H; injection H as <-. apply (IH k eq_refl).
Qed.




(** C8, on a document of a code block, an empty line and the lines a and
    b.  The empty line is clicked and deleted with Backspace, which puts
    the code block before it in edit mode; [_blurLine] then refuses to
    blur that block, [_focusLine] finds it first at every later request,
    and the two lines clicked next are both left in edit mode. *)
Theorem two_lines_in_edit_mode
  (renderedText htmlToMarkdown nextNumber : str -> str) :
  let e0 :=
    init htmlToMarkdown
      (join_nl [u "```"; u "x"; u "```"; []; u "a"; u "b"]) new_editor in
  let requests :=
    [Click (Some 1); Backspace (Some true); Click (Some 1); Click (Some 2)] in
  editing_lines e0 = []
  /\ editing_lines (run renderedText nextNumber requests e0) = [u "a"; u "b"].
Proof. vm_compute. split; reflexivity. Qed.

(* ===================================================================== *)
(** * Part IV: further properties of the code *)
(* ===================================================================== *)

(** ** utils.js: [esc] *)

Lemma replace_unit (a : char) (rep : str) (s : str) :
  replace_all (lit [a] rep) s
  = flat_map (fun c => if (c =? a)%N then rep else [c]) s.
Proof.
  unfold replace_all. induction s as [|c s IH]; [reflexivity|].
  cbn [replace_from flat_map]. unfold lit at 1. cbn [starts_with].
  rewrite andb_true_r, N.eqb_sym.
  destruct (c =? a)%N; cbn [length pred app]; now rewrite IH.
Qed.

Lemma flat_map_thrice (f1 f2 f3 g : char -> str) (s : str) :
  (forall c, flat_map f3 (flat_map f2 (f1 c)) = g c) ->
  flat_map f3 (flat_map f2 (flat_map f1 s)) = flat_map g s.
Proof.
  intros H. induction s as [|c s IH]; [reflexivity|].
  cbn [flat_map]. now rewrite !flat_map_app, IH, H.
Qed.

Lemma esc_flat_map (s : str) : esc s = flat_map esc_char s.
Proof.
  unfold esc.
  change (u ">") with [ch ">"]. change (u "<") with [ch "<"].
  change (u "&") with [ch "&"]. rewrite !replace_unit.
  apply flat_map_thrice. intros c. unfold esc_char.
  destruct (N.eqb_spec c (ch "&")) as [->|Hamp]; [reflexivity|].
  cbn [flat_map app].
  destruct (N.eqb_spec c (ch "<")) as [->|Hlt]; [reflexivity|].
  cbn [flat_map app].
  destruct (N.eqb_spec c (ch ">")) as [->|Hgt]; reflexivity.
Qed.

(** X1.  The escaped text holds no angle bracket. *)
Theorem esc_no_angle_bracket (s : str) :
  ~ In (ch "<") (esc s) /\ ~ In (ch ">") (esc s).
Proof.
  rewrite esc_flat_map.
  split; rewrite in_flat_map; intros (c & _ & Hc); unfold esc_char in Hc;
    destruct (N.eqb_spec c (ch "&")); try (vm_compute in Hc; intuition discriminate);
    destruct (N.eqb_spec c (ch "<")); try (vm_compute in Hc; intuition discriminate);
    destruct (N.eqb_spec c (ch ">")); try (vm_compute in Hc; intuition discriminate);
    destruct Hc as [Hc|[]]; congruence.
Qed.

Lemma esc_char_head (c1 c2 : char) (t1 t2 : str) :
  esc_char c1 ++ t1 = esc_char c2 ++ t2 -> c1 = c2 /\ t1 = t2.
Proof.
  unfold esc_char.
  change (ch "&") with 38%N. change (ch "<") with 60%N.
  change (ch ">") with 62%N.
  destruct (N.eqb_spec c1 38) as [->|H1a];
    [|destruct (N.eqb_spec c1 60) as [->|H1l];
      [|destruct (N.eqb_spec c1 62) as [->|H1g]]];
  (destruct (N.eqb_spec c2 38) as [->|H2a];
    [|destruct (N.eqb_spec c2 60) as [->|H2l];
      [|destruct (N.eqb_spec c2 62) as [->|H2g]]]);
  cbn; intros H; inversion H; subst; auto; congruence.
Qed.

Lemma esc_char_not_nil (c : char) (t : str) : esc_char c ++ t <> [].
Proof.
  unfold esc_char.
  destruct (c =? ch "&")%N; [discriminate|].
  destruct (c =? ch "<")%N; [discriminate|].
  destruct (c =? ch ">")%N; discriminate.
Qed.

(** X2.  [esc] loses nothing: two texts with the same escaped form are the
    same text. *)
Theorem esc_injective (s1 s2 : str) : esc s1 = esc s2 -> s1 = s2.
Proof.
  rewrite !esc_flat_map. revert s2.
  induction s1 as [|c1 s1 IH]; intros [|c2 s2]; cbn [flat_map]; intros H.
  - reflexivity.
  - symmetry in H. now apply esc_char_not_nil in H.
  - now apply esc_char_not_nil in H.
  - apply esc_char_head in H as [-> H]. f_equal. now apply IH.
Qed.

(** An example for [esc_injective]. *)
Lemma esc_injective_witness :
  esc (u "a<b") = esc (u "a<b") /\ u "a<b" = u "a<b".
Proof.
  split; [reflexivity | exact (esc_injective (u "a<b") (u "a<b") eq_refl)].
Defined.

(** ** MarkdownEditor.js: [_draw] and [_sync] *)

Lemma draw_lines_not_nil (lines : list str) :
  (lines <> [] -> draw_lines lines <> [])
  /\ (forall lang codeLines, collect lang codeLines lines <> []).
Proof.
  induction lines as [|l lines [IH1 IH2]].
  - split; [intros H; contradiction | intros; discriminate].
  - split.
    + intros _. simpl. destruct (re_fence l) as [[run tail]|];
        [apply IH2 | discriminate].
    + intros lang codeLines. simpl.
      destruct (re_fence_close l); [discriminate | apply IH2].
Qed.

Lemma draw_lines_rendered (lines : list str) :
  forallb (fun n => negb (cls_is_ed n)) (draw_lines lines) = true
  /\ (forall lang codeLines,
        forallb (fun n => negb (cls_is_ed n)) (collect lang codeLines lines)
        = true).
Proof.
  induction lines as [|l lines [IH1 IH2]].
  - split; [reflexivity | intros; reflexivity].
  - split.
    + simpl. destruct (re_fence l) as [[run tail]|]; [apply IH2 | exact IH1].
    + intros lang codeLines. simpl.
      destruct (re_fence_close l); [exact IH1 | apply IH2].
Qed.

Lemma draw_nodes_shape (md : str) :
  draw_nodes md <> []
  /\ forallb (fun n => negb (cls_is_ed n)) (draw_nodes md) = true.
Proof.
  unfold draw_nodes. destruct (falsy md).
  - split; [discriminate | reflexivity].
  - split.
    + apply draw_lines_not_nil, split_nl_not_nil.
    + apply draw_lines_rendered.
Qed.

(** X3.  Whatever the text, [_draw] leaves at least one block in the live
    area, and none of them in edit mode. *)
Theorem draw_nodes_rendered (md : str) :
  draw_nodes md <> []
  /\ forallb (fun n => negb (cls_is_ed n)) (draw_nodes md) = true.
Proof. exact (draw_nodes_shape md). Qed.

Lemma seg_nodes_parts (renderedText : str -> str) (segs : list segment) :
  forallb seg_canonical segs = true ->
  Forall (fun l => forallb (fun c => negb (c =? nl)%N) l = true)
    (flat_map seg_lines segs) ->
  flat_map parts (List.map (commit renderedText) (List.map seg_node segs))
  = flat_map seg_lines segs.
Proof.
  induction segs as [|sg segs IH]; [reflexivity|].
  cbn [forallb flat_map List.map]. rewrite andb_true_iff.
  intros [Hsg Hsegs] Hnl. apply Forall_app in Hnl as [Hnl1 Hnl2].
  rewrite commit_seg_node, (IH Hsegs Hnl2). f_equal.
  destruct sg as [line|opening interior closing]; [reflexivity|].
  cbn [seg_canonical] in Hsg. apply andb_true_iff in Hsg as [Hsg Hc].
  apply andb_true_iff in Hsg as [Ho Hint].
  unfold str_eqb in Ho, Hc.
  destruct (str_eq_dec opening (u "```" ++ fence_lang opening)) as [Eo|];
    [|discriminate].
  destruct (str_eq_dec closing (u "```")) as [->|]; [|discriminate].
  cbn [seg_node seg_lines]. unfold parts.
  cbn [makeCodeBlock data_cb data_lang data_code].
  rewrite <- Eo. f_equal. f_equal.
  cbn [seg_lines] in Hnl1. inversion Hnl1 as [|? ? _ Hrest]; subst.
  apply Forall_app in Hrest as [Hint' _].
  destruct interior as [|l interior]; [discriminate Hint|].
  rewrite split_join_nl by discriminate.
  now apply flat_map_split_pieces.
Qed.

(** X4.  A text in the form that [_sync] writes is drawn and written back
    unchanged: every fence opened by three backticks and a language that
    reads back as itself, with at least one interior line, and closed by
    three backticks. *)
Theorem draw_then_sync_identity (renderedText : str -> str) (md : str)
  (segs : list segment) :
  split_nl md = flat_map seg_lines segs ->
  forallb seg_ok segs = true ->
  forallb seg_canonical segs = true ->
  canonical renderedText (draw_nodes md) = md.
Proof.
  intros Hlines Hok Hcanon. unfold draw_nodes.
  destruct md as [|c md]; [reflexivity|]. cbn [falsy].
  rewrite Hlines, <- (app_nil_r (flat_map seg_lines segs)).
  rewrite (draw_lines_segments _ _ Hok). simpl draw_lines. rewrite app_nil_r.
  unfold canonical. rewrite seg_nodes_parts.
  - rewrite ?app_nil_r, <- Hlines. apply join_split_nl.
  - exact Hcanon.
  - rewrite ?app_nil_r, <- Hlines. apply split_nl_pieces.
Qed.

(** An example for [draw_then_sync_identity]. *)
Lemma draw_then_sync_identity_witness :
  let md := join_nl [u "# Title"; u "```go"; u "fmt.Println(1)"; u "```";
                     u "After"] in
  let segs := [STextLine (u "# Title");
               SFenced (u "```go") [u "fmt.Println(1)"] (u "```");
               STextLine (u "After")] in
  split_nl md = flat_map seg_lines segs
  /\ forallb seg_ok segs = true
  /\ forallb seg_canonical segs = true
  /\ canonical (fun text => text) (draw_nodes md) = md.
Proof.
  intros md segs.
  assert (H1 : split_nl md = flat_map seg_lines segs) by (vm_compute; reflexivity).
  assert (H2 : forallb seg_ok segs = true) by (vm_compute; reflexivity).
  assert (H3 : forallb seg_canonical segs = true) by (vm_compute; reflexivity).
  split; [exact H1 | split; [exact H2 | split; [exact H3 |]]].
  exact (draw_then_sync_identity (fun text => text) md segs H1 H2 H3).
Defined.

Lemma commit_idempotent (renderedText : str -> str) (n : node) :
  commit renderedText (commit renderedText n) = commit renderedText n.
Proof.
  unfold commit.
  destruct (negb (data_cb n) && cls_ln n && cls_is_ed n) eqn:E; [|now rewrite E].
  cbn [set_md data_cb cls_ln cls_is_ed]. rewrite E.
  unfold set_md, textContent. cbn. reflexivity.
Qed.

Lemma map_commit_idempotent (renderedText : str -> str) (nodes : list node) :
  List.map (commit renderedText) (List.map (commit renderedText) nodes)
  = List.map (commit renderedText) nodes.
Proof.
  rewrite map_map. apply map_ext. intros n. apply commit_idempotent.
Qed.

Lemma sync_result (renderedText : str -> str) (e : editor)
  (nodes : list node) :
  _live e = Some nodes ->
  exists U R,
    _sync renderedText e
    = {| _md := canonical renderedText nodes;
         _live := Some (List.map (commit renderedText) nodes);
         _undoStack := U; _redoStack := R |}.
Proof.
  intros El. unfold _sync. rewrite El. cbn [with_live _md].
  unfold str_eqb.
  destruct (str_eq_dec (canonical renderedText nodes) (_md e)) as [Heq|Hne].
  - exists (_undoStack e), (_redoStack e). unfold with_live. now rewrite Heq.
  - unfold _pushUndo. cbn [with_live _undoStack _md _live].
    destruct (falsy (_md e) || is_top (_md e) (_undoStack e));
      eexists; eexists; reflexivity.
Qed.

(** X5.  A second [_sync] with nothing changed in between does nothing: it
    pushes no snapshot and leaves the editor as the first one left it. *)
Theorem sync_idempotent (renderedText : str -> str) (e : editor) :
  _sync renderedText (_sync renderedText e) = _sync renderedText e.
Proof.
  destruct (_live e) as [nodes|] eqn:El.
  - destruct (sync_result renderedText e nodes El) as (U & R & ->).
    unfold _sync. cbn [with_live _live _md].
    unfold canonical at 1. rewrite !map_commit_idempotent.
    fold (canonical renderedText nodes). unfold str_eqb.
    destruct (str_eq_dec (canonical renderedText nodes)
                (canonical renderedText nodes)); [reflexivity | contradiction].
  - assert (H : _sync renderedText e = e) by (unfold _sync; now rewrite El).
    now rewrite !H.
Qed.

(** ** MarkdownEditor.js: undo and redo *)

Lemma undo_step (e : editor) (x : str) :
  top (_undoStack e) = Some x ->
  _md (_undo e) = x
  /\ _undoStack (_undo e) = popped (_undoStack e)
  /\ _redoStack (_undo e) = _redoStack e ++ [_md e].
Proof.
  intros H. unfold _undo. rewrite H. forget_draw. repeat split.
Qed.

Lemma redo_step (e : editor) (x : str) :
  top (_redoStack e) = Some x ->
  _md (_redo e) = x
  /\ _undoStack (_redo e) = _undoStack e ++ [_md e]
  /\ _redoStack (_redo e) = popped (_redoStack e).
Proof.
  intros H. unfold _redo. rewrite H. forget_draw. repeat split.
Qed.

Lemma popped_snoc (l : list str) (x : str) : popped (l ++ [x]) = l.
Proof. unfold popped. apply removelast_last. Qed.

Lemma top_capped (U : list str) (x : str) :
  top (if 150 <? length (U ++ [x]) then tl (U ++ [x]) else U ++ [x]) = Some x.
Proof.
  destruct U as [|a U]; [reflexivity|].
  destruct (150 <? length ((a :: U) ++ [x])); [|apply top_snoc].
  cbn [app tl]. apply top_snoc.
Qed.

(** X6.  After an edit of a text that is not empty, an undo restores the text
    as it was before the edit, and a redo then brings the edited text
    back. *)
Theorem undo_restores_text (renderedText : str -> str) (e : editor)
  (nodes : list node) :
  _md e <> [] ->
  canonical renderedText nodes <> _md e ->
  _md (_undo (edit renderedText nodes e)) = _md e
  /\ _md (_redo (_undo (edit renderedText nodes e)))
     = canonical renderedText nodes.
Proof.
  intros Hmd Hne.
  destruct (sync_history renderedText e nodes) as [(Heq & _)|(_ & live & ->)];
    [contradiction|].
  set (e1 := with_md (canonical renderedText nodes)
               (_pushUndo (_md e) (with_live live e))).
  assert (Htop : top (_undoStack e1) = Some (_md e)).
  { unfold e1.
    destruct (pushUndo_cases (_md e) (with_live live e))
      as [[[H|H] ->]|(_ & _ & _ & _ & HU)].
    - cbn [with_live _md] in H. contradiction.
    - exact H.
    - cbn [with_md _undoStack]. rewrite HU. apply top_capped. }
  destruct (undo_step e1 (_md e) Htop) as (Hm & _ & Hr).
  split; [exact Hm|].
  assert (Htop' : top (_redoStack (_undo e1))
                  = Some (canonical renderedText nodes)).
  { rewrite Hr. unfold e1 at 2. cbn [with_md _md]. apply top_snoc. }
  now destruct (redo_step (_undo e1) _ Htop') as (Hm' & _).
Qed.

(** An example for [undo_restores_text]. *)
Lemma undo_restores_text_witness :
  let rt := fun text : str => text in
  let e := with_md (u "a") new_editor in
  _md e <> []
  /\ canonical rt [makeLine (u "b")] <> _md e
  /\ _md (_undo (edit rt [makeLine (u "b")] e)) = _md e
  /\ _md (_redo (_undo (edit rt [makeLine (u "b")] e)))
     = canonical rt [makeLine (u "b")].
Proof.
  intros rt e.
  assert (H1 : _md e <> []) by discriminate.
  assert (H2 : canonical rt [makeLine (u "b")] <> _md e)
    by (vm_compute; discriminate).
  split; [exact H1 | split; [exact H2 |]].
  exact (undo_restores_text rt e [makeLine (u "b")] H1 H2).
Defined.

(** X7.  A redo takes back an undo: text and both stacks are as before. *)
Theorem redo_after_undo (e : editor) :
  _undoStack e <> [] ->
  _md (_redo (_undo e)) = _md e
  /\ _undoStack (_redo (_undo e)) = _undoStack e
  /\ _redoStack (_redo (_undo e)) = _redoStack e.
Proof.
  intros HU. destruct (top (_undoStack e)) as [x|] eqn:Htop;
    [|apply top_none in Htop; contradiction].
  destruct (undo_step e x Htop) as (Hm & Hu & Hr).
  assert (Htop' : top (_redoStack (_undo e)) = Some (_md e))
    by (rewrite Hr; apply top_snoc).
  destruct (redo_step (_undo e) _ Htop') as (Hm' & Hu' & Hr').
  apply top_some in Htop as (U & HUeq & Hpop).
  rewrite Hm', Hu', Hr', Hm, Hu, Hr, Hpop, popped_snoc. now rewrite HUeq.
Qed.

(** An example for [redo_after_undo]. *)
Lemma redo_after_undo_witness :
  let rt := fun text : str => text in
  let e := edit rt [makeLine (u "b")] (with_md (u "a") new_editor) in
  _undoStack e <> []
  /\ _md (_redo (_undo e)) = _md e
  /\ _undoStack (_redo (_undo e)) = _undoStack e
  /\ _redoStack (_redo (_undo e)) = _redoStack e.
Proof.
  intros rt e.
  assert (H : _undoStack e <> []) by (vm_compute; discriminate).
  split; [exact H | exact (redo_after_undo e H)].
Defined.

(** X8.  An undo takes back a redo: text and both stacks are as before. *)
Theorem undo_after_redo (e : editor) :
  _redoStack e <> [] ->
  _md (_undo (_redo e)) = _md e
  /\ _undoStack (_undo (_redo e)) = _undoStack e
  /\ _redoStack (_undo (_redo e)) = _redoStack e.
Proof.
  intros HR. destruct (top (_redoStack e)) as [x|] eqn:Htop;
    [|apply top_none in Htop; contradiction].
  destruct (redo_step e x Htop) as (Hm & Hu & Hr).
  assert (Htop' : top (_undoStack (_redo e)) = Some (_md e))
    by (rewrite Hu; apply top_snoc).
  destruct (undo_step (_redo e) _ Htop') as (Hm' & Hu' & Hr').
  apply top_some in Htop as (R & HReq & Hpop).
  rewrite Hm', Hu', Hr', Hm, Hu, Hr, Hpop, popped_snoc. now rewrite HReq.
Qed.

(** An example for [undo_after_redo]. *)
Lemma undo_after_redo_witness :
  let rt := fun text : str => text in
  let e := _undo (edit rt [makeLine (u "b")] (with_md (u "a") new_editor)) in
  _redoStack e <> []
  /\ _md (_undo (_redo e)) = _md e
  /\ _undoStack (_undo (_redo e)) = _undoStack e
  /\ _redoStack (_undo (_redo e)) = _redoStack e.
Proof.
  intros rt e.
  assert (H : _redoStack e <> []) by (vm_compute; discriminate).
  split; [exact H | exact (undo_after_redo e H)].
Defined.

Lemma length_popped (l : list str) (x : str) :
  top l = Some x -> length l = S (length (popped l)).
Proof.
  intros H. apply top_some in H as (l0 & -> & ->).
  rewrite length_app. cbn [length]. lia.
Qed.

(** X9.  In every history state reached from empty stacks by edits, undos and
    redos, the two stacks together hold 150 entries at most: [_redo]
    pushes without a cap, but only what an undo popped. *)
Theorem history_total_bound (renderedText : str -> str) (e : editor) :
  reachable renderedText e ->
  length (_undoStack e) + length (_redoStack e) <= 150.
Proof.
  induction 1 as [e Hu Hr|e nodes _ IH|e _ IH|e _ IH].
  - rewrite Hu, Hr. cbn [length]. lia.
  - destruct (sync_history renderedText e nodes)
      as [(_ & _ & Hu & Hr)|(_ & live & ->)]; [now rewrite Hu, Hr|].
    destruct (pushUndo_cases (_md e) (with_live live e))
      as [[_ ->]|(_ & _ & _ & Hr & HU)].
    + exact IH.
    + cbn [with_md _undoStack _redoStack]. rewrite Hr, HU.
      cbn [with_live _undoStack]. cbn [length].
      destruct (Nat.ltb_spec 150 (length (_undoStack e ++ [_md e]))) as [Hlt|Hle];
        [|lia].
      rewrite length_app in Hlt. cbn [length] in Hlt.
      destruct (_undoStack e) as [|a U]; cbn [app tl length] in *; [lia|].
      rewrite length_app. cbn [length]. lia.
  - destruct (top (_undoStack e)) as [x|] eqn:Htop.
    + destruct (undo_step e x Htop) as (_ & Hu & Hr).
      rewrite Hu, Hr, length_app. cbn [length].
      rewrite (length_popped _ _ Htop) in IH. lia.
    + unfold _undo. now rewrite Htop.
  - destruct (top (_redoStack e)) as [x|] eqn:Htop.
    + destruct (redo_step e x Htop) as (_ & Hu & Hr).
      rewrite Hu, Hr, length_app. cbn [length].
      rewrite (length_popped _ _ Htop) in IH. lia.
    + unfold _redo. now rewrite Htop.
Qed.

(** An example for [history_total_bound]. *)
Lemma history_total_bound_witness :
  let rt := fun text : str => text in
  let e := _undo (edit rt [makeLine (u "b")] (with_md (u "a") new_editor)) in
  reachable rt e
  /\ length (_undoStack e) + length (_redoStack e) <= 150.
Proof.
  intros rt e.
  assert (H : reachable rt e)
    by (apply reach_undo, reach_edit, reach_start; reflexivity).
  split; [exact H | exact (history_total_bound rt e H)].
Defined.

(** ** MarkdownEditor.js: [clear] and [loadValue] *)

(** X10.  After [clear()] on a mounted editor the text is empty, the document is
    one empty line, both stacks are empty, and [_sync], [_undo] and
    [_redo] all leave the editor as it is. *)
Theorem clear_resets (renderedText : str -> str) (e : editor)
  (nodes : list node) :
  _live e = Some nodes ->
  clear e
  = {| _md := []; _live := Some [makeLine []];
       _undoStack := []; _redoStack := [] |}
  /\ canonical renderedText [makeLine []] = []
  /\ _sync renderedText (clear e) = clear e
  /\ _undo (clear e) = clear e
  /\ _redo (clear e) = clear e.
Proof.
  intros El.
  assert (H : clear e
              = {| _md := []; _live := Some [makeLine []];
                   _undoStack := []; _redoStack := [] |}).
  { unfold clear. rewrite El. reflexivity. }
  rewrite H. repeat split.
Qed.

(** An example for [clear_resets]. *)
Lemma clear_resets_witness :
  let rt := fun text : str => text in
  let e := edit rt [makeLine (u "b")] (init rt (u "a") new_editor) in
  _live e = Some [makeLine (u "b")]
  /\ clear e
     = {| _md := []; _live := Some [makeLine []];
          _undoStack := []; _redoStack := [] |}.
Proof.
  intros rt e.
  assert (H : _live e = Some [makeLine (u "b")]) by reflexivity.
  split; [exact H|].
  exact (proj1 (clear_resets rt e [makeLine (u "b")] H)).
Defined.

Lemma unify_eol_without_cr (s : str) : ~ In cr s -> unify_eol s = s.
Proof.
  induction s as [|c s IH]; [reflexivity|]. intros H. cbn [unify_eol].
  destruct (N.eqb_spec c cr) as [->|_]; [exfalso; apply H; now left|].
  rewrite IH; [reflexivity|]. intros Hin. apply H. now right.
Qed.

(** X11.  A text that [isHtml] does not take for rich markup and that holds no
    carriage return is stored as it is: [getMarkdown()] after
    [loadValue(value)] gives [value] back. *)
Theorem loadValue_plain_text (htmlToMarkdown : str -> str) (value : str)
  (e : editor) :
  isHtml value = false ->
  ~ In cr value ->
  _md (loadValue htmlToMarkdown value e) = value.
Proof.
  intros Hhtml Hcr.
  assert (Hmd : _md (loadValue htmlToMarkdown value e) = unify_eol value).
  { unfold loadValue. rewrite normalize_eol_unify, Hhtml.
    unfold _draw. cbn [with_md _live].
    destruct value as [|c value]; destruct (_live e); reflexivity. }
  rewrite Hmd. now apply unify_eol_without_cr.
Qed.

(** An example for [loadValue_plain_text]: a less-than sign followed by a
    space is no tag. *)
Lemma loadValue_plain_text_witness :
  let value := join_nl [u "# Title"; u "a < b and c > d"] in
  isHtml value = false
  /\ ~ In cr value
  /\ _md (loadValue (fun html => html) value new_editor) = value.
Proof.
  intros value.
  assert (H1 : isHtml value = false) by (vm_compute; reflexivity).
  assert (H2 : ~ In cr value) by (vm_compute; intuition discriminate).
  split; [exact H1 | split; [exact H2 |]].
  exact (loadValue_plain_text (fun html => html) value new_editor H1 H2).
Defined.

(** ** line-renderer.js: the patterns of [lineType] exclude each other *)

Lemma heading_shape (n : nat) (text : str) :
  1 <= n -> heading_line n text ->
  (exists rest, text = ch "#" :: rest)
  /\ length (fst (span (fun x => (x =? ch "#")%N) text)) = n.
Proof.
  intros Hn [rest ->]. split.
  - destruct n as [|n]; [lia|]. cbn [repeat app]. now eexists.
  - rewrite span_exact; [apply repeat_length | | reflexivity].
    apply forallb_repeat. reflexivity.
Qed.

Lemma pattern_shape (k : LineKind) (text : str) :
  pattern k text -> shape k text.
Proof.
  destruct k; cbn [pattern shape rank Nat.sub];
    try (apply heading_shape; lia).
  - intros (c & n & ws & Hc & Hn & _ & ->).
    destruct n as [|[|n]]; [lia | lia |]. exists c. cbn [repeat app].
    eexists. split; [exact Hc | reflexivity].
  - intros [rest ->]. now exists rest.
  - intros (c & rest & Hc & ->). now exists c, rest.
  - intros (ds & rest & Hne & Hall & ->).
    destruct ds as [|d ds]; [contradiction|]. cbn [forallb] in Hall.
    apply andb_true_iff in Hall as [Hd _]. exists d. eexists.
    split; [exact Hd | reflexivity].
  - unfold blank_line. destruct text as [|c rest]; [now left|].
    cbn [forallb]. rewrite andb_true_iff. intros [Hc _]. right.
    now exists c, rest.
  - trivial.
Qed.

Lemma digit_not_space (c : char) : is_digit c = true -> is_space c = false.
Proof.
  unfold is_digit, is_space. rewrite andb_true_iff, !N.leb_le. intros [H1 H2].
  repeat match goal with
    | |- context [(?a =? ?b)%N] => destruct (N.eqb_spec a b); [lia|]
    | |- context [(?a <=? ?b)%N] => destruct (N.leb_spec a b); try lia
    end; reflexivity.
Qed.

Lemma shapes_exclusive (k k' : LineKind) (text : str) :
  k <> Paragraph -> k' <> Paragraph ->
  shape k text -> shape k' text -> k = k'.
Proof.
  intros Hk Hk'.
  destruct k; try contradiction; destruct k'; try contradiction;
    try reflexivity; cbn [shape rank Nat.sub]; intros H H';
    repeat match goal with
      | H : _ /\ _ |- _ => destruct H
      | H : exists _, _ |- _ => destruct H
      | H : _ \/ _ |- _ => destruct H
      end;
    subst;
    try match goal with
      | H1 : length ?x = _, H2 : length ?x = _ |- _ =>
          rewrite H1 in H2; discriminate H2
      end;
    repeat match goal with
      | H : _ :: _ = _ :: _ |- _ => injection H; clear H; intros; subst
      | H : [] = _ :: _ |- _ => discriminate H
      | H : _ :: _ = [] |- _ => discriminate H
      end;
    try discriminate;
    try match goal with
      | H : is_digit _ = true |- _ => now vm_compute in H
      end;
    try match goal with
      | H : is_space _ = true |- _ => now vm_compute in H
      end;
    match goal with
    | H : is_digit ?c = true, H' : is_space ?c = true |- _ =>
        apply digit_not_space in H; congruence
    end.
Qed.

Lemma lineType_of_pattern (text : str) (k : LineKind) :
  k <> Paragraph -> pattern k text -> lineType text = k.
Proof.
  intros Hk Hp. pose proof (lineType_first_match text) as [Hpat Hlow].
  destruct (lineType text) eqn:E;
    try (symmetry; apply (shapes_exclusive _ _ text); try assumption;
         try discriminate; now apply pattern_shape).
  exfalso. apply (Hlow k); [|exact Hp].
  destruct k; cbn [rank]; try lia. contradiction.
Qed.

(** X12.  Each kind other than Paragraph is decided by its own pattern alone:
    the eleven patterns exclude each other, so the order in which
    [lineType] tests them changes nothing. *)
Theorem lineType_by_pattern_alone (text : str) (k : LineKind) :
  k <> Paragraph ->
  (lineType text = k <-> pattern k text).
Proof.
  intros Hk. split.
  - intros <-. exact (proj1 (lineType_first_match text)).
  - exact (lineType_of_pattern text k Hk).
Qed.

(** An example for [lineType_by_pattern_alone]. *)
Lemma lineType_by_pattern_alone_witness :
  BulletItem <> Paragraph
  /\ (lineType (u "* * *") = BulletItem <-> pattern BulletItem (u "* * *")).
Proof.
  assert (H : BulletItem <> Paragraph) by discriminate.
  split; [exact H | exact (lineType_by_pattern_alone (u "* * *") BulletItem H)].
Defined.

(** ** line-renderer.js: [inlineRender] on texts without markup *)

Lemma starts_with_head (a : char) (p t : str) :
  starts_with (a :: p) t = true -> exists rest, t = a :: rest.
Proof.
  destruct t as [|b t]; [discriminate|]. cbn [starts_with].
  rewrite andb_true_iff, N.eqb_eq. intros [-> _]. now exists t.
Qed.

(** A replacement whose expression needs a code unit that the text does
    not hold leaves the text as it is. *)
Lemma replace_all_untriggered (m : str -> option (str * nat))
  (trig : char -> bool) (s : str) :
  (forall t r, m t = Some r -> existsb trig t = true) ->
  existsb trig s = false ->
  replace_all m s = s.
Proof.
  intros Hm. unfold replace_all. induction s as [|c s IH]; [reflexivity|].
  intros Hs. cbn [replace_from].
  destruct (m (c :: s)) as [[rep len]|] eqn:E.
  - apply Hm in E. congruence.
  - cbn [existsb] in Hs. apply orb_false_iff in Hs as [_ Hs].
    now rewrite IH.
Qed.

Lemma lit_trigger (a : char) (p rep t : str) (r : str * nat) :
  lit (a :: p) rep t = Some r -> existsb (fun x => (x =? a)%N) t = true.
Proof.
  unfold lit. destruct (starts_with (a :: p) t) eqn:E; [|discriminate].
  intros _. apply starts_with_head in E as [rest ->].
  cbn [existsb]. now rewrite N.eqb_refl.
Qed.

Lemma run_delim_trigger (o : char) (t g : str) :
  run_delim o t = Some g -> exists rest, t = o :: rest.
Proof.
  unfold run_delim. destruct t as [|c t]; [discriminate|].
  destruct (N.eqb_spec c o) as [->|]; [|discriminate]. intros _. now exists t.
Qed.

Lemma re_code_trigger (t : str) (r : str * nat) :
  re_code t = Some r -> existsb (fun x => (x =? ch "`")%N) t = true.
Proof.
  unfold re_code. destruct (run_delim (ch "`") t) as [g|] eqn:E; [|discriminate].
  intros _. apply run_delim_trigger in E as [rest ->]. reflexivity.
Qed.

Lemma re_em_trigger (o : char) (t : str) (r : str * nat) :
  re_em o t = Some r -> existsb (fun x => (x =? o)%N) t = true.
Proof.
  unfold re_em. destruct (run_delim o t) as [g|] eqn:E; [|discriminate].
  intros _. apply run_delim_trigger in E as [rest ->].
  cbn [existsb]. now rewrite N.eqb_refl.
Qed.

Lemma re_wrap_starts (d before after t : str) (r : str * nat) :
  re_wrap d before after t = Some r -> starts_with d t = true.
Proof.
  unfold re_wrap, lazy_delim. destruct (starts_with d t); [reflexivity|discriminate].
Qed.

Lemma re_wrap_trigger (a : char) (d before after t : str) (r : str * nat) :
  re_wrap (a :: d) before after t = Some r ->
  existsb (fun x => (x =? a)%N) t = true.
Proof.
  intros H. apply re_wrap_starts in H. apply starts_with_head in H as [rest ->].
  cbn [existsb]. now rewrite N.eqb_refl.
Qed.

Lemma re_image_trigger (t : str) (r : str * nat) :
  re_image t = Some r -> existsb (fun x => (x =? ch "[")%N) t = true.
Proof.
  unfold re_image. destruct (starts_with (u "![") t) eqn:E; [|discriminate].
  intros _. apply starts_with_prefix in E as [rest ->]. reflexivity.
Qed.

Lemma re_link_trigger (t : str) (r : str * nat) :
  re_link t = Some r -> existsb (fun x => (x =? ch "[")%N) t = true.
Proof.
  unfold re_link. destruct (starts_with (u "[") t) eqn:E; [|discriminate].
  intros _. apply starts_with_prefix in E as [rest ->]. reflexivity.
Qed.

Lemma plain_without (c : char) (s : str) :
  plain_char c = false -> plain s = true ->
  existsb (fun x => (x =? c)%N) s = false.
Proof.
  intros Hc. unfold plain. induction s as [|x s IH]; [reflexivity|].
  cbn [forallb existsb]. rewrite andb_true_iff. intros [Hx Hs].
  rewrite (IH Hs), orb_false_r.
  destruct (N.eqb_spec x c) as [->|]; [congruence | reflexivity].
Qed.

(** The passes of [inlineRender] that need a code unit which [s] does not
    hold: all of them but the two that a single asterisk can start. *)
Lemma esc_untriggered (s : str) :
  existsb (fun x => (x =? ch "&")%N) s = false ->
  existsb (fun x => (x =? ch "<")%N) s = false ->
  existsb (fun x => (x =? ch ">")%N) s = false ->
  esc s = s.
Proof.
  intros Ha Hl Hg. unfold esc.
  rewrite (replace_all_untriggered _ (fun x => (x =? ch "&")%N) s);
    [| intros t r; apply (lit_trigger (ch "&") [] _ t r) | exact Ha].
  rewrite (replace_all_untriggered _ (fun x => (x =? ch "<")%N) s);
    [| intros t r; apply (lit_trigger (ch "<") [] _ t r) | exact Hl].
  apply (replace_all_untriggered _ (fun x => (x =? ch ">")%N) s);
    [intros t r; apply (lit_trigger (ch ">") [] _ t r) | exact Hg].
Qed.

Lemma inlineRender_plain (raw : str) :
  plain raw = true -> inlineRender raw = raw.
Proof.
  intros Hp. unfold inlineRender.
  rewrite esc_untriggered by (apply plain_without; [reflexivity | exact Hp]).
  rewrite (replace_all_untriggered re_code (fun x => (x =? ch "`")%N));
    [| exact re_code_trigger | now apply plain_without].
  rewrite (replace_all_untriggered _ (fun x => (x =? ch "*")%N) raw);
    [| intros t r; apply (re_wrap_trigger (ch "*")) | now apply plain_without].
  rewrite (replace_all_untriggered _ (fun x => (x =? ch "*")%N) raw);
    [| intros t r; apply (re_wrap_trigger (ch "*")) | now apply plain_without].
  rewrite (replace_all_untriggered _ (fun x => (x =? ch "_")%N) raw);
    [| intros t r; apply (re_wrap_trigger (ch "_")) | now apply plain_without].
  rewrite (replace_all_untriggered _ (fun x => (x =? ch "*")%N) raw);
    [| intros t r; apply re_em_trigger | now apply plain_without].
  rewrite (replace_all_untriggered _ (fun x => (x =? ch "_")%N) raw);
    [| intros t r; apply re_em_trigger | now apply plain_without].
  rewrite (replace_all_untriggered _ (fun x => (x =? ch "~")%N) raw);
    [| intros t r; apply (re_wrap_trigger (ch "~")) | now apply plain_without].
  rewrite (replace_all_untriggered re_image (fun x => (x =? ch "[")%N));
    [| exact re_image_trigger | now apply plain_without].
  apply (replace_all_untriggered re_link (fun x => (x =? ch "[")%N));
    [exact re_link_trigger | now apply plain_without].
Qed.

(** X13.  A text that holds none of the code units ampersand, angle brackets,
    backtick, asterisk, underscore, tilde and opening bracket is rendered
    as it is. *)
Theorem inlineRender_plain_text (raw : str) :
  plain raw = true -> inlineRender raw = raw.
Proof. exact (inlineRender_plain raw). Qed.

(** An example for [inlineRender_plain_text]. *)
Lemma inlineRender_plain_text_witness :
  plain (u "Hello, world! (1 + 1 = 2)") = true
  /\ inlineRender (u "Hello, world! (1 + 1 = 2)")
     = u "Hello, world! (1 + 1 = 2)".
Proof.
  assert (H : plain (u "Hello, world! (1 + 1 = 2)") = true)
    by (vm_compute; reflexivity).
  split; [exact H | exact (inlineRender_plain_text _ H)].
Defined.

Lemma adjacent_tail (c x : char) (s : str) :
  adjacent c (x :: s) = false -> adjacent c s = false.
Proof.
  destruct s as [|y s]; [reflexivity|]. cbn [adjacent].
  now intros H%orb_false_iff.
Qed.

(** Without two asterisks side by side neither the bold nor the
    bold-italic expression finds a match. *)
Lemma replace_all_no_pair (d before after s : str) :
  adjacent (ch "*") s = false ->
  replace_all (re_wrap (ch "*" :: ch "*" :: d) before after) s = s.
Proof.
  unfold replace_all. induction s as [|c s IH]; [reflexivity|].
  intros Hadj. cbn [replace_from].
  destruct (re_wrap (ch "*" :: ch "*" :: d) before after (c :: s))
    as [[rep len]|] eqn:E.
  - apply re_wrap_starts in E. cbn [starts_with] in E.
    destruct s as [|y s]; [now rewrite andb_false_r in E|].
    apply andb_true_iff in E as [E1 E2]. apply andb_true_iff in E2 as [E2 _].
    cbn [adjacent] in Hadj. apply orb_false_iff in Hadj as [Hadj _].
    rewrite (N.eqb_sym c), (N.eqb_sym y), E1, E2 in Hadj. discriminate.
  - now rewrite (IH (adjacent_tail _ _ _ Hadj)).
Qed.

Lemma adjacent_cons (c x y : char) (s : str) :
  adjacent c (x :: y :: s)
  = ((x =? c)%N && (y =? c)%N) || adjacent c (y :: s).
Proof. reflexivity. Qed.

Lemma adjacent_app_free (c : char) (a r : str) :
  existsb (fun x => (x =? c)%N) a = false ->
  adjacent c (a ++ r) = adjacent c r.
Proof.
  induction a as [|x a IH]; [reflexivity|]. cbn [existsb].
  intros H. apply orb_false_iff in H as [Hx Ha]. specialize (IH Ha).
  cbn [app]. destruct (a ++ r) as [|y t] eqn:E.
  - destruct a; [|discriminate]. cbn in E. now subst.
  - change (adjacent c (x :: y :: t))
      with (((x =? c)%N && (y =? c)%N) || adjacent c (y :: t)).
    now rewrite Hx, IH.
Qed.

Lemma replace_from_prefix (m : str -> option (str * nat))
  (trig : char -> bool) (a r : str) :
  (forall t x, m t = Some x -> exists c rest, t = c :: rest /\ trig c = true) ->
  existsb trig a = false ->
  replace_from m 0 (a ++ r) = a ++ replace_from m 0 r.
Proof.
  intros Hm. induction a as [|c a IH]; [reflexivity|]. cbn [existsb].
  intros H. apply orb_false_iff in H as [Hc Ha]. cbn [app replace_from].
  destruct (m (c :: a ++ r)) as [x|] eqn:E.
  - apply Hm in E as (c' & rest & Heq & Ht). injection Heq as -> _. congruence.
  - now rewrite IH.
Qed.

Lemma replace_from_skip (m : str -> option (str * nat)) (x r : str) :
  replace_from m (length x) (x ++ r) = replace_from m 0 r.
Proof. induction x as [|c x IH]; [reflexivity | exact IH]. Qed.

Lemma re_em_head (o : char) (t : str) (x : str * nat) :
  re_em o t = Some x ->
  exists c rest, t = c :: rest /\ (c =? o)%N = true.
Proof.
  unfold re_em. destruct (run_delim o t) as [g|] eqn:E; [|discriminate].
  intros _. apply run_delim_trigger in E as [rest ->].
  exists o, rest. now rewrite N.eqb_refl.
Qed.

Lemma re_em_match (o : char) (w r : str) :
  w <> [] ->
  forallb (fun x => negb (x =? o)%N && negb (x =? nl)%N) w = true ->
  re_em o (o :: w ++ o :: r)
  = Some (u "<em>" ++ w ++ u "</em>", length w + 2).
Proof.
  intros Hne Hw. unfold re_em, run_delim. rewrite N.eqb_refl.
  rewrite (span_exact _ w (o :: r));
    [| exact Hw | cbn [negb andb]; now rewrite N.eqb_refl].
  destruct w as [|x w]; [contradiction|]. now rewrite N.eqb_refl.
Qed.

(** X14.  A run of plain text between two asterisks, in a line of plain text,
    is wrapped in an emphasis element, and nothing else changes. *)
Theorem inlineRender_emphasis (a w b : str) :
  plain a = true -> plain w = true -> plain b = true ->
  w <> [] -> ~ In nl w ->
  inlineRender (a ++ u "*" ++ w ++ u "*" ++ b)
  = a ++ u "<em>" ++ w ++ u "</em>" ++ b.
Proof.
  intros Ha Hw Hb Hne Hnl.
  set (s0 := a ++ u "*" ++ w ++ u "*" ++ b).
  set (s1 := a ++ u "<em>" ++ w ++ u "</em>" ++ b).
  assert (H0 : forall c, plain_char c = false -> (c =? ch "*")%N = false ->
                         existsb (fun x => (x =? c)%N) s0 = false).
  { intros c Hc Hstar. unfold s0. rewrite !existsb_app.
    assert (Hs : existsb (fun x => (x =? c)%N) (u "*") = false).
    { cbn [u List.map list_ascii_of_string existsb].
      change (N_of_ascii "*") with (ch "*").
      now rewrite (N.eqb_sym (ch "*")), Hstar. }
    apply orb_false_iff; split; [now apply plain_without|].
    apply orb_false_iff; split; [exact Hs|].
    apply orb_false_iff; split; [now apply plain_without|].
    apply orb_false_iff; split; [exact Hs | now apply plain_without]. }
  assert (H1 : forall c, plain_char c = false ->
                         existsb (fun x => (x =? c)%N) (u "<em>") = false ->
                         existsb (fun x => (x =? c)%N) (u "</em>") = false ->
                         existsb (fun x => (x =? c)%N) s1 = false).
  { intros c Hc He1 He2. unfold s1. rewrite !existsb_app.
    apply orb_false_iff; split; [now apply plain_without|].
    apply orb_false_iff; split; [exact He1|].
    apply orb_false_iff; split; [now apply plain_without|].
    apply orb_false_iff; split; [exact He2 | now apply plain_without]. }
  assert (Hadj : adjacent (ch "*") s0 = false).
  { unfold s0.
    rewrite adjacent_app_free by (now apply plain_without).
    destruct w as [|x w]; [contradiction|].
    assert (Hx : (x =? ch "*")%N = false).
    { cbn [plain forallb] in Hw. apply andb_true_iff in Hw as [Hx _].
      destruct (N.eqb_spec x (ch "*")) as [->|]; [discriminate Hx | reflexivity]. }
    change (u "*" ++ (x :: w) ++ u "*" ++ b)
      with (ch "*" :: x :: (w ++ ch "*" :: b)).
    rewrite adjacent_cons, Hx, andb_false_r, orb_false_l.
    change (x :: w ++ ch "*" :: b) with ((x :: w) ++ ch "*" :: b).
    rewrite adjacent_app_free by (now apply plain_without).
    destruct b as [|y b]; [reflexivity|].
    assert (Hy : (y =? ch "*")%N = false).
    { cbn [plain forallb] in Hb. apply andb_true_iff in Hb as [Hy _].
      destruct (N.eqb_spec y (ch "*")) as [->|]; [discriminate Hy | reflexivity]. }
    rewrite adjacent_cons, Hy, andb_false_r, orb_false_l.
    rewrite <- (app_nil_r (y :: b)).
    now rewrite adjacent_app_free by (now apply plain_without). }
  assert (Hem : replace_all (re_em (ch "*")) s0 = s1).
  { unfold replace_all, s0, s1.
    rewrite (replace_from_prefix _ (fun x => (x =? ch "*")%N));
      [| exact (re_em_head (ch "*")) | now apply plain_without].
    f_equal.
    change (u "*" ++ w ++ u "*" ++ b) with (ch "*" :: w ++ ch "*" :: b).
    cbn [replace_from]. rewrite re_em_match.
    - replace (pred (length w + 2)) with (length (w ++ [ch "*"]))
        by (rewrite length_app; cbn [length]; lia).
      change (w ++ ch "*" :: b) with (w ++ [ch "*"] ++ b).
      rewrite (app_assoc w [ch "*"] b), replace_from_skip.
      fold (replace_all (re_em (ch "*")) b).
      rewrite (replace_all_untriggered _ (fun x => (x =? ch "*")%N) b);
        [| intros t r; apply re_em_trigger | now apply plain_without].
      now rewrite <- !app_assoc.
    - exact Hne.
    - apply forallb_forall. intros x Hx.
      assert (Hpx : plain_char x = true)
        by (unfold plain in Hw; rewrite forallb_forall in Hw; now apply Hw).
      destruct (N.eqb_spec x (ch "*")) as [->|]; [discriminate Hpx|].
      destruct (N.eqb_spec x nl) as [->|]; [contradiction | reflexivity]. }
  unfold inlineRender. fold s0.
  rewrite esc_untriggered by (apply H0; reflexivity).
  rewrite (replace_all_untriggered re_code (fun x => (x =? ch "`")%N));
    [| exact re_code_trigger | now apply H0].
  rewrite (replace_all_no_pair [ch "*"]) by exact Hadj.
  rewrite (replace_all_no_pair []) by exact Hadj.
  rewrite (replace_all_untriggered _ (fun x => (x =? ch "_")%N) s0);
    [| intros t r; apply (re_wrap_trigger (ch "_")) | now apply H0].
  rewrite Hem.
  rewrite (replace_all_untriggered _ (fun x => (x =? ch "_")%N) s1);
    [| intros t r; apply re_em_trigger | now apply H1].
  rewrite (replace_all_untriggered _ (fun x => (x =? ch "~")%N) s1);
    [| intros t r; apply (re_wrap_trigger (ch "~")) | now apply H1].
  rewrite (replace_all_untriggered re_image (fun x => (x =? ch "[")%N));
    [| exact re_image_trigger | now apply H1].
  apply (replace_all_untriggered re_link (fun x => (x =? ch "[")%N));
    [exact re_link_trigger | now apply H1].
Qed.

(** An example for [inlineRender_emphasis]. *)
Lemma inlineRender_emphasis_witness :
  plain (u "Some ") = true /\ plain (u "text") = true /\ plain (u ".") = true
  /\ u "text" <> [] /\ ~ In nl (u "text")
  /\ inlineRender (u "Some " ++ u "*" ++ u "text" ++ u "*" ++ u ".")
     = u "Some " ++ u "<em>" ++ u "text" ++ u "</em>" ++ u ".".
Proof.
  assert (H1 : plain (u "Some ") = true) by reflexivity.
  assert (H2 : plain (u "text") = true) by reflexivity.
  assert (H3 : plain (u ".") = true) by reflexivity.
  assert (H4 : u "text" <> []) by discriminate.
  assert (H5 : ~ In nl (u "text")) by (vm_compute; intuition discriminate).
  repeat (split; [assumption|]).
  exact (inlineRender_emphasis _ _ _ H1 H2 H3 H4 H5).
Defined.

(** ** MarkdownEditor.js: [_prevLine] and [_nextLine] *)

Lemma prevLine_spec (nodes : list node) (el p : nat) :
  prevLine nodes el = Some p <->
  p < el /\ nav_at nodes p = true
  /\ forall j, p < j < el -> nav_at nodes j = false.
Proof.
  unfold nav_at. induction el as [|el IH].
  - cbn [prevLine]. split; [discriminate | intros [H _]; lia].
  - cbn [prevLine]. destruct (nth_error nodes el) as [n|] eqn:En.
    + destruct (navigable n) eqn:Hn.
      * split.
        -- intros H; injection H as <-. rewrite En.
           repeat split; [lia | exact Hn | intros j Hj; lia].
        -- intros (Hp & Hnav & Hbetween).
           destruct (Nat.eq_dec p el) as [->|Hne]; [reflexivity|].
           specialize (Hbetween el ltac:(lia)). rewrite En in Hbetween.
           congruence.
      * rewrite IH. split.
        -- intros (Hp & Hnav & Hb). repeat split; [lia | exact Hnav |].
           intros j Hj. destruct (Nat.eq_dec j el) as [->|];
             [now rewrite En | apply Hb; lia].
        -- intros (Hp & Hnav & Hb).
           assert (p <> el) by (intros ->; rewrite En in Hnav; congruence).
           repeat split; [lia | exact Hnav | intros j Hj; apply Hb; lia].
    + rewrite IH. split.
      * intros (Hp & Hnav & Hb). repeat split; [lia | exact Hnav |].
        intros j Hj. destruct (Nat.eq_dec j el) as [->|];
          [now rewrite En | apply Hb; lia].
      * intros (Hp & Hnav & Hb).
        assert (p <> el) by (intros ->; rewrite En in Hnav; congruence).
        repeat split; [lia | exact Hnav | intros j Hj; apply Hb; lia].
Qed.

Lemma find_index_spec (p : node -> bool) (nodes : list node) (i : nat) :
  find_index p nodes = Some i <->
  (exists n, nth_error nodes i = Some n /\ p n = true)
  /\ forall j n, j < i -> nth_error nodes j = Some n -> p n = false.
Proof.
  revert i. induction nodes as [|a nodes IH]; intros i.
  - cbn [find_index]. split; [discriminate|].
    intros [(n & Hn & _) _]. destruct i; discriminate.
  - cbn [find_index]. destruct (p a) eqn:Ea.
    + split.
      * intros H; injection H as <-. split; [now exists a | intros j n Hj; lia].
      * intros [(n & Hn & Hp) Hfirst]. destruct i as [|i]; [reflexivity|].
        specialize (Hfirst 0 a ltac:(lia) eq_refl). congruence.
    + destruct i as [|i].
      * split.
        -- destruct (find_index p nodes); discriminate.
        -- intros [(n & Hn & Hp) _]. injection Hn as ->. congruence.
      * specialize (IH i). split.
        -- destruct (find_index p nodes) as [k|]; [|discriminate].
           intros H; injection H as ->.
           destruct (proj1 IH eq_refl) as [Hex Hfirst]. split; [exact Hex|].
           intros [|j] n Hj Hn.
           ++ injection Hn as <-. exact Ea.
           ++ apply (Hfirst j n); [lia | exact Hn].
        -- intros [Hex Hfirst].
           rewrite (proj2 IH); [reflexivity|]. split; [exact Hex|].
           intros j n Hj Hn. apply (Hfirst (S j) n); [lia | exact Hn].
Qed.

Lemma nth_error_skipn (nodes : list node) (a k : nat) :
  nth_error (skipn a nodes) k = nth_error nodes (a + k).
Proof.
  revert nodes. induction a as [|a IH]; intros nodes; [reflexivity|].
  destruct nodes as [|n nodes]; [now destruct k | apply IH].
Qed.

Lemma nextLine_spec (nodes : list node) (el q : nat) :
  nextLine nodes el = Some q <->
  el < q /\ nav_at nodes q = true
  /\ forall j, el < j < q -> nav_at nodes j = false.
Proof.
  unfold nextLine, nav_at. split.
  - destruct (find_index navigable (skipn (S el) nodes)) as [k|] eqn:E;
      [|discriminate].
    intros H; injection H as Hq.
    apply find_index_spec in E as [(n & Hn & Hp) Hfirst].
    rewrite nth_error_skipn in Hn.
    replace (S el + k) with q in Hn by lia.
    repeat split; [lia | now rewrite Hn |].
    intros j Hj. destruct (nth_error nodes j) as [m|] eqn:Em; [|reflexivity].
    apply (Hfirst (j - S el) m); [lia|].
    rewrite nth_error_skipn. now replace (S el + (j - S el)) with j by lia.
  - intros (Hq & Hnav & Hb).
    destruct (nth_error nodes q) as [n|] eqn:En; [|discriminate].
    assert (E : find_index navigable (skipn (S el) nodes) = Some (q - S el)).
    { apply find_index_spec. split.
      - exists n. rewrite nth_error_skipn.
        replace (S el + (q - S el)) with q by lia. now split.
      - intros j m Hj Hm. rewrite nth_error_skipn in Hm.
        specialize (Hb (S el + j) ltac:(lia)). now rewrite Hm in Hb. }
    rewrite E. f_equal. lia.
Qed.

(** X15.  Moving to the previous line or code block and back to the next one
    returns to the element one started from, and the other way round,
    whenever that element is itself a line or a code block. *)
Theorem prev_next_inverse (nodes : list node) (el : nat) :
  nav_at nodes el = true ->
  (forall p, prevLine nodes el = Some p -> nextLine nodes p = Some el)
  /\ (forall q, nextLine nodes el = Some q -> prevLine nodes q = Some el).
Proof.
  intros Hel. split.
  - intros p Hp. apply prevLine_spec in Hp as (Hlt & _ & Hb).
    apply nextLine_spec. now repeat split.
  - intros q Hq. apply nextLine_spec in Hq as (Hlt & _ & Hb).
    apply prevLine_spec. now repeat split.
Qed.

(** An example for [prev_next_inverse]. *)
Lemma prev_next_inverse_witness :
  let nodes := [makeLine (u "a"); makeCodeBlock (u "js") (u "x");
                makeLine (u "b")] in
  nav_at nodes 1 = true
  /\ prevLine nodes 1 = Some 0 /\ nextLine nodes 0 = Some 1
  /\ nextLine nodes 1 = Some 2 /\ prevLine nodes 2 = Some 1.
Proof.
  intros nodes.
  assert (H : nav_at nodes 1 = true) by reflexivity.
  destruct (prev_next_inverse nodes 1 H) as [Hp Hn].
  split; [exact H|]. split; [reflexivity|].
  split; [exact (Hp 0 eq_refl)|]. split; [reflexivity|].
  exact (Hn 2 eq_refl).
Defined.

(** ** MarkdownEditor.js: [_handleEnter] *)

Lemma drop_while_head (p : char -> bool) (s : str) (c : char) (rest : str) :
  drop_while p s = c :: rest -> p c = false.
Proof.
  induction s as [|a s IH]; cbn [drop_while]; [discriminate|].
  destruct (p a) eqn:E; [exact IH|]. intros H; injection H as -> _. exact E.
Qed.

(** A trimmed text never ends with white space. *)
Lemma trim_last (s : str) (c : char) :
  is_space c = true -> forall init, trim s <> init ++ [c].
Proof.
  intros Hc init H. unfold trim in H.
  apply (f_equal (@rev char)) in H. rewrite rev_involutive, rev_app_distr in H.
  cbn [rev app] in H. apply drop_while_head in H. congruence.
Qed.

Lemma list_marker_ends_with_space (text marker : str) :
  list_marker text = Some marker -> exists init, marker = init ++ [ch " "].
Proof.
  unfold list_marker. destruct (re_ul text) eqn:Eul.
  - intros H; injection H as <-.
    destruct text as [|c [|c' rest]]; try discriminate Eul.
    cbn [re_ul] in Eul. apply andb_true_iff in Eul as [_ E].
    apply N.eqb_eq in E. subst c'. now exists [c].
  - destruct (re_ol text); [|discriminate].
    intros H; injection H as <-.
    exists (fst (span is_digit text) ++ [ch "."]). now rewrite <- app_assoc.
Qed.

(** ** line-renderer.js: the markup of [renderLine] *)

Lemma or_br_not_nil (s : str) : or_br s <> [].
Proof. destruct s; discriminate. Qed.

Lemma or_br_id (s : str) : s <> [] -> or_br s = s.
Proof. destruct s; [contradiction | reflexivity]. Qed.

Lemma ol_groups_numbered (text : str) :
  numbered_line text ->
  exists d ds rest, ol_groups text = Some (d :: ds, rest).
Proof.
  intros H. apply re_ol_spec in H. unfold re_ol in H. unfold ol_groups.
  destruct (span is_digit text) as [ds rest]. rewrite H.
  destruct ds as [|d ds]; [discriminate|]. now eexists _, _, _.
Qed.

(** X16.  The preview of a line is empty for a horizontal rule and for nothing
    else: every other line keeps some content, a line break if need be. *)
Theorem preview_empty_only_for_rule (text : str) :
  innerHTML text = [] <-> lineType text = HorizontalRule.
Proof.
  unfold innerHTML. pose proof (lineType_first_match text) as [Hpat _].
  destruct (lineType text) eqn:E;
    try (split; [intros H; now apply or_br_not_nil in H | discriminate]).
  - tauto.
  - split; [discriminate | discriminate].
  - cbn [pattern] in Hpat. apply ol_groups_numbered in Hpat as (d & ds & rest & ->).
    split; discriminate.
  - split; discriminate.
Qed.

Lemma strip_hashes_heading (n : nat) (title : str) :
  1 <= n -> strip_hashes (repeat (ch "#") n ++ ch " " :: title) = title.
Proof.
  intros Hn. unfold strip_hashes.
  rewrite (span_exact _ (repeat (ch "#") n) (ch " " :: title));
    [| apply forallb_repeat; reflexivity | reflexivity].
  destruct n as [|n]; [lia | reflexivity].
Qed.

Lemma heading_kind (n : nat) (rest : str) (k : LineKind) :
  rank k = 6 - n -> 1 <= n <= 6 ->
  lineType (repeat (ch "#") n ++ ch " " :: rest) = k.
Proof.
  intros Hk Hn. apply lineType_of_pattern.
  - intros ->. cbn [rank] in Hk. lia.
  - destruct k; cbn [rank] in Hk; cbn [pattern];
      try (exists rest; f_equal; f_equal; lia); lia.
Qed.

(** X17.  A line of text without inline markup is shown as it is, without its
    marker: a paragraph, a heading of any level and a quote show the text,
    a bullet item the bullet literal and the text, a numbered item its
    number and the text. *)
Theorem preview_of_plain_line (title : str) :
  plain title = true -> title <> [] ->
  (lineType title = Paragraph -> innerHTML title = title)
  /\ (forall n, 1 <= n <= 6 ->
        innerHTML (repeat (ch "#") n ++ u " " ++ title) = title)
  /\ innerHTML (u "> " ++ title) = title
  /\ (forall c, c = ch "-" \/ c = ch "*" \/ c = ch "+" ->
        innerHTML (c :: u " " ++ title) = bullet ++ title)
  /\ (forall ds, ds <> [] -> forallb is_digit ds = true ->
        forallb (fun c => negb (is_line_terminator c)) title = true ->
        innerHTML (ds ++ u ". " ++ title) = ds ++ u ". " ++ title).
Proof.
  intros Hp Hne. repeat split.
  - intros Hk. unfold innerHTML. rewrite Hk, inlineRender_plain by exact Hp.
    now apply or_br_id.
  - intros n Hn. unfold innerHTML. change (u " " ++ title) with (ch " " :: title).
    assert (Hk : exists k, rank k = 6 - n /\ rank k < 6).
    { destruct n as [|[|[|[|[|[|[|n]]]]]]]; try lia;
        [exists Heading1 | exists Heading2 | exists Heading3
        | exists Heading4 | exists Heading5 | exists Heading6];
        cbn [rank]; lia. }
    destruct Hk as (k & Hk & Hlt).
    rewrite (heading_kind n title k Hk Hn), strip_hashes_heading by lia.
    rewrite inlineRender_plain by exact Hp.
    destruct k; cbn [rank] in Hlt; try lia; now apply or_br_id.
  - unfold innerHTML.
    rewrite (lineType_of_pattern _ Blockquote);
      [| discriminate | now exists (ch " " :: title)].
    change (strip_quote (u "> " ++ title)) with title.
    rewrite inlineRender_plain by exact Hp. now apply or_br_id.
  - intros c Hc. unfold innerHTML.
    rewrite (lineType_of_pattern _ BulletItem);
      [| discriminate | now exists c, title].
    assert (Hul : re_ul (c :: u " " ++ title) = true)
      by (apply re_ul_spec; now exists c, title).
    unfold strip_bullet. rewrite Hul. cbn [skipn app].
    change (skipn 2 (c :: u " " ++ title)) with title.
    now rewrite inlineRender_plain by exact Hp.
  - intros ds Hds Hall Hlt. unfold innerHTML.
    rewrite (lineType_of_pattern _ NumberedItem);
      [| discriminate | now exists ds, title].
    unfold ol_groups.
    rewrite (span_exact is_digit ds (u ". " ++ title));
      [| exact Hall | reflexivity].
    destruct ds as [|d ds]; [contradiction|].
    cbn [falsy negb andb]. rewrite starts_with_app.
    change (skipn 2 (u ". " ++ title)) with title.
    pose proof (span_exact _ title [] Hlt I) as Hsp.
    rewrite app_nil_r in Hsp. rewrite Hsp.
    cbn [fst]. now rewrite inlineRender_plain by exact Hp.
Qed.

(** An example for [preview_of_plain_line]. *)
Lemma preview_of_plain_line_witness :
  plain (u "Title") = true /\ u "Title" <> []
  /\ innerHTML (u "### Title") = u "Title"
  /\ innerHTML (u "> Title") = u "Title".
Proof.
  assert (H1 : plain (u "Title") = true) by reflexivity.
  assert (H2 : u "Title" <> []) by discriminate.
  destruct (preview_of_plain_line (u "Title") H1 H2) as (_ & Hh & Hq & _).
  split; [exact H1 | split; [exact H2 | split; [| exact Hq]]].
  exact (Hh 3 ltac:(lia)).
Defined.

(** ** MarkdownEditor.js: the prefix commands *)

Lemma prefix_kind_cases (prefix : str) (k : LineKind) :
  prefix_kind prefix = Some k ->
  (prefix = u "# " /\ k = Heading1) \/ (prefix = u "## " /\ k = Heading2)
  \/ (prefix = u "### " /\ k = Heading3) \/ (prefix = u "> " /\ k = Blockquote)
  \/ (prefix = u "- " /\ k = BulletItem)
  \/ (prefix = u "1. " /\ k = NumberedItem).
Proof.
  unfold prefix_kind, str_eqb.
  repeat match goal with
    | |- context [str_eq_dec ?a ?b] => destruct (str_eq_dec a b) as [->|?]
    end; intros H; inversion H; tauto.
Qed.

Lemma prefix_line_kind (prefix rest : str) (k : LineKind) :
  prefix_kind prefix = Some k -> lineType (prefix ++ rest) = k.
Proof.
  intros H.
  destruct (prefix_kind_cases prefix k H)
    as [[-> ->]|[[-> ->]|[[-> ->]|[[-> ->]|[[-> ->]|[-> ->]]]]]];
    apply lineType_of_pattern; try discriminate; cbn [pattern].
  - now exists rest.
  - now exists rest.
  - now exists rest.
  - now exists (ch " " :: rest).
  - exists (ch "-"), rest. tauto.
  - exists (u "1"), rest. repeat split; discriminate.
Qed.

(** X18.  A prefix command on a line that does not start with its prefix gives
    the line the kind of the command: the heading commands use
    [heading_toggled], the quote and list commands [toggled]. *)
Theorem prefix_command_sets_kind (prefix current : str) (k : LineKind) :
  prefix_kind prefix = Some k ->
  starts_with prefix current = false ->
  lineType (heading_toggled prefix current) = k
  /\ lineType (toggled prefix current) = k.
Proof.
  intros Hk Hs. unfold heading_toggled, toggled. rewrite Hs.
  split; now apply prefix_line_kind.
Qed.

(** An example for [prefix_command_sets_kind]. *)
Lemma prefix_command_sets_kind_witness :
  prefix_kind (u "- ") = Some BulletItem
  /\ starts_with (u "- ") (u "> some text") = false
  /\ toggled (u "- ") (u "> some text") = u "- some text"
  /\ lineType (toggled (u "- ") (u "> some text")) = BulletItem.
Proof.
  assert (H1 : prefix_kind (u "- ") = Some BulletItem) by reflexivity.
  assert (H2 : starts_with (u "- ") (u "> some text") = false) by reflexivity.
  split; [exact H1 | split; [exact H2 | split; [reflexivity |]]].
  exact (proj2 (prefix_command_sets_kind _ _ _ H1 H2)).
Defined.

(** ** MarkdownEditor.js: what Enter and a paste do to the text *)

Section TextOfTree.

Variable renderedText : str -> str.


Lemma canonical_flat_map (nodes : list node) :
  canonical renderedText nodes
  = join_nl (flat_map (contribution renderedText) nodes).
Proof.
  unfold canonical. f_equal. induction nodes as [|n nodes IH]; [reflexivity|].
  cbn [List.map flat_map]. now rewrite IH.
Qed.

Lemma flat_map_update_same (g : node -> list str) (f : node -> node)
  (nodes : list node) :
  forall i : nat,
    (forall n, nth_error nodes i = Some n -> g (f n) = g n) ->
    flat_map g (update i f nodes) = flat_map g nodes.
Proof.
  induction nodes as [|a nodes IH]; intros [|i] H; try reflexivity.
  - cbn [update flat_map]. now rewrite (H a eq_refl).
  - cbn [update flat_map]. rewrite IH; [reflexivity|].
    intros n Hn. now apply H.
Qed.

Lemma update_app (f : node -> node) (pre post : list node) (n : node) :
  update (length pre) f (pre ++ n :: post) = pre ++ f n :: post.
Proof. induction pre as [|a pre IH]; [reflexivity|]. cbn. now rewrite IH. Qed.

Lemma insertAfter_app (x n : node) (pre post : list node) :
  insertAfter (length pre) x (pre ++ n :: post) = pre ++ n :: x :: post.
Proof. induction pre as [|a pre IH]; [reflexivity|]. cbn. now rewrite IH. Qed.


Lemma nth_error_middle (pre post : list node) (n : node) :
  nth_error (pre ++ n :: post) (length pre) = Some n.
Proof. induction pre as [|a pre IH]; [reflexivity | exact IH]. Qed.

Lemma pc_shown (n : node) :
  shown n = true -> contribution renderedText n = [data_md n].
Proof.
  unfold shown. intros H. apply andb_true_iff in H as [H Hcb].
  apply andb_true_iff in H as [Hln Hed]. apply negb_true_iff in Hed, Hcb.
  unfold contribution, commit. rewrite Hcb, Hln, Hed. cbn [negb andb].
  unfold parts. now rewrite Hcb, Hln.
Qed.

Lemma pc_editing (n : node) :
  sel_ln_is_ed n = true -> data_cb n = false ->
  contribution renderedText n = [textContent renderedText n].
Proof.
  unfold sel_ln_is_ed. intros H Hcb. apply andb_true_iff in H as [Hln Hed].
  unfold contribution, commit. rewrite Hcb, Hln, Hed. cbn [negb andb].
  unfold parts. cbn [set_md data_cb cls_ln data_md]. now rewrite Hcb, Hln.
Qed.

Lemma blurLine_update (i : nat) (nodes : list node) :
  _blurLine renderedText (Some i) nodes = update i (blurred renderedText) nodes.
Proof. reflexivity. Qed.

Lemma pc_blurred (n : node) :
  sel_ln_is_ed n = true ->
  contribution renderedText (blurred renderedText n)
  = contribution renderedText n.
Proof.
  intros H. unfold blurred. destruct (data_cb n) eqn:Ecb; [reflexivity|].
  rewrite (pc_editing n H Ecb). unfold contribution, commit, parts. cbn.
  rewrite ?Ecb; cbn; rewrite ?Ecb; reflexivity.
Qed.

Lemma pc_makeLine (text : str) :
  contribution renderedText (makeLine text) = [text].
Proof. reflexivity. Qed.

Lemma shown_makeLine (text : str) : shown (makeLine text) = true.
Proof. reflexivity. Qed.

Lemma pc_blurred_setText (n : node) (text : str) :
  data_cb n = false ->
  contribution renderedText (blurred renderedText (setText n text)) = [text].
Proof.
  intros H. unfold blurred, contribution, commit, parts. cbn.
  rewrite ?H; cbn; rewrite ?H; cbn; rewrite ?H; reflexivity.
Qed.

(** [_focusLine] on a shown line changes nothing of the text. *)
Lemma focusLine_keeps_text (el : nat) (nodes : list node) (n : node) :
  nth_error nodes el = Some n -> shown n = true ->
  flat_map (contribution renderedText) (_focusLine renderedText el nodes)
  = flat_map (contribution renderedText) nodes.
Proof.
  intros Hn Hs. unfold _focusLine. rewrite Hn.
  assert (Hcb : data_cb n = false).
  { unfold shown in Hs. destruct (data_cb n); [|reflexivity].
    now rewrite andb_false_r in Hs. }
  rewrite Hcb.
  set (nodes' := match find_index sel_ln_is_ed nodes with
                 | Some current =>
                     if current =? el then nodes
                     else _blurLine renderedText (Some current) nodes
                 | None => nodes
                 end).
  assert (H' : flat_map (contribution renderedText) nodes'
               = flat_map (contribution renderedText) nodes
               /\ nth_error nodes' el = Some n).
  { subst nodes'. destruct (find_index sel_ln_is_ed nodes) as [current|] eqn:Ef;
      [|now split].
    destruct (Nat.eqb_spec current el) as [->|Hne]; [now split|].
    rewrite blurLine_update. split.
    - apply flat_map_update_same. intros m Hm.
      apply find_index_some in Ef as (m' & Hm' & Hed).
      rewrite Hm in Hm'. injection Hm' as <-. now apply pc_blurred.
    - rewrite nth_error_update_other by exact Hne. exact Hn. }
  destruct H' as [Hpc Hnth]. rewrite <- Hpc.
  apply flat_map_update_same. intros m Hm. rewrite Hnth in Hm.
  injection Hm as <-. rewrite (pc_shown n Hs).
  unfold contribution, commit, parts, editLine. cbn.
  rewrite ?Hcb; cbn; rewrite ?Hcb; reflexivity.
Qed.


Lemma removelast_last (lines : list str) :
  lines <> [] -> removelast lines ++ [last lines []] = lines.
Proof. intros H. symmetry. now apply app_removelast_last. Qed.




Lemma sync_md (e : editor) (nodes : list node) :
  _md (_sync renderedText (with_live nodes e))
  = join_nl (flat_map (contribution renderedText) nodes).
Proof.
  destruct (sync_result renderedText (with_live nodes e) nodes eq_refl)
    as (U & R & ->).
  cbn [_md]. apply canonical_flat_map.
Qed.

Lemma handleEnter_split (nextNumber : str -> str) (focused pos : nat)
  (e : editor) :
  _handleEnter renderedText nextNumber focused pos e
  = match _live e with
    | Some nodes =>
        match nth_error nodes focused with
        | Some n =>
            let text := textContent renderedText n in
            split_line renderedText focused (firstn pos text)
              (continuation nextNumber (lineType text) text ++ skipn pos text)
              e
        | None => e
        end
    | None => e
    end.
Proof.
  unfold _handleEnter. destruct (_live e) as [nodes|]; [|reflexivity].
  destruct (nth_error nodes focused) as [n|]; [|reflexivity]. cbv zeta.
  set (text := textContent renderedText n).
  assert (Hneq : forall marker, list_marker text = Some marker ->
                                str_eqb (trim text) marker = false).
  { intros marker Hm. apply list_marker_ends_with_space in Hm as [init ->].
    unfold str_eqb. destruct (str_eq_dec (trim text) (init ++ [ch " "])) as [E|];
      [|reflexivity].
    exfalso. now apply (trim_last text (ch " ") eq_refl init). }
  pose proof (lineType_first_match text) as [Hpat _].
  destruct (lineType text) eqn:Ek; try reflexivity.
  - cbn [pattern] in Hpat. apply re_ul_spec in Hpat.
    unfold list_marker at 1. rewrite Hpat.
    rewrite (Hneq (firstn 2 text)); [reflexivity|].
    unfold list_marker. now rewrite Hpat.
  - cbn [pattern] in Hpat. apply re_ol_spec in Hpat.
    destruct (list_marker text) as [marker|] eqn:Em.
    + now rewrite (Hneq marker eq_refl).
    + unfold list_marker in Em. rewrite Hpat in Em.
      destruct (re_ul text); discriminate.
Qed.

(** X19.  The branch of [_handleEnter] that is to break out of an empty list
    item is never taken: the trimmed text cannot equal the list marker,
    which ends with a space.  Enter always splits the line at the caret
    and continues the list or the quote. *)
Theorem handleEnter_always_splits (nextNumber : str -> str)
  (focused pos : nat) (e : editor) :
  _handleEnter renderedText nextNumber focused pos e
  = match _live e with
    | Some nodes =>
        match nth_error nodes focused with
        | Some n =>
            let text := textContent renderedText n in
            split_line renderedText focused (firstn pos text)
              (continuation nextNumber (lineType text) text ++ skipn pos text)
              e
        | None => e
        end
    | None => e
    end.
Proof. exact (handleEnter_split nextNumber focused pos e). Qed.

(** X20.  Enter on the focused line [n] splits its text at the caret: the text
    of the editor changes by that line becoming the two lines before and
    after the caret, the second one behind the continuation prefix, and
    by nothing else. *)
Theorem enter_splits_text (nextNumber : str -> str)
  (pre post : list node) (n : node) (pos : nat) (e : editor) :
  _live e = Some (pre ++ n :: post) ->
  data_cb n = false ->
  let text := textContent renderedText n in
  _md (_handleEnter renderedText nextNumber (length pre) pos e)
  = join_nl (flat_map (contribution renderedText) pre
               ++ [firstn pos text;
                   continuation nextNumber (lineType text) text
                     ++ skipn pos text]
               ++ flat_map (contribution renderedText) post).
Proof.
  intros El Hcb text. rewrite handleEnter_split, El, nth_error_middle.
  cbv zeta. fold text. unfold split_line. rewrite El.
  rewrite sync_md.
  rewrite update_app, insertAfter_app, blurLine_update, update_app.
  set (fresh := continuation nextNumber (lineType text) text ++ skipn pos text).
  rewrite (focusLine_keeps_text _ _ (makeLine fresh)).
  - rewrite flat_map_app. cbn [flat_map].
    rewrite pc_blurred_setText by exact Hcb. rewrite pc_makeLine.
    reflexivity.
  - replace (S (length pre))
      with (length (pre ++ [blurred renderedText (setText n (firstn pos text))]))
      by (rewrite length_app; cbn; lia).
    change (pre ++ blurred renderedText (setText n (firstn pos text))
              :: makeLine fresh :: post)
      with (pre ++ [blurred renderedText (setText n (firstn pos text))]
              ++ makeLine fresh :: post).
    rewrite app_assoc. apply nth_error_middle.
  - apply shown_makeLine.
Qed.


End TextOfTree.

(** An example for [enter_splits_text]. *)
Lemma enter_splits_text_witness :
  let n := editLine (makeLine (u "- ab")) (u "- ab") in
  let e := {| _md := u "- ab" ++ nl :: u "z";
              _live := Some [n; makeLine (u "z")];
              _undoStack := []; _redoStack := [] |} in
  _md (_handleEnter (fun t => t) (fun d => d) 0 3 e)
  = u "- a" ++ nl :: u "- b" ++ nl :: u "z".
Proof.
  intros n e.
  exact (enter_splits_text (fun t => t) (fun d => d) [] [makeLine (u "z")] n 3
           e eq_refl eq_refl).
Defined.


(** ** MarkdownEditor.js: the prefix commands, twice *)

Lemma length_drop_while (p : char -> bool) (s : str) :
  length (drop_while p s) <= length s.
Proof.
  induction s as [|c s IH]; [reflexivity|]. cbn [drop_while].
  destruct (p c); cbn [length]; lia.
Qed.

Lemma starts_with_cons (a c : char) (p r : str) :
  starts_with (a :: p) (c :: r) = (c =? a)%N && starts_with p r.
Proof. cbn [starts_with]. now rewrite N.eqb_sym. Qed.

Lemma strip_number_eq (s : str) :
  strip_number s
  = match number_marker s with
    | Some len => skipn len s
    | None => match s with [] => [] | c :: s' => c :: strip_number s' end
    end.
Proof. destruct s; reflexivity. Qed.

Lemma number_marker_length (s : str) (len : nat) :
  number_marker s = Some len -> 0 < len <= length s.
Proof.
  unfold number_marker. pose proof (span_app is_digit s) as Happ.
  destruct (span is_digit s) as [ds rest]. cbn [fst snd] in Happ.
  destruct (negb (falsy ds) && starts_with (u ". ") rest) eqn:E; [|discriminate].
  intros H; injection H as <-. apply andb_true_iff in E as [_ E].
  apply starts_with_prefix in E as [r ->]. subst s.
  rewrite !length_app. change (length (u ". ")) with 2. lia.
Qed.

(** A text in which the marker expression of [_togglePrefix] finds
    nothing. *)
Lemma strip_prefix_fixed (text : str) :
  strip_prefix text = text ->
  starts_with (u "#") text = false /\ starts_with (u ">") text = false
  /\ re_ul text = false /\ number_marker text = None.
Proof.
  unfold strip_prefix. intros H.
  destruct (starts_with (u "#") text) eqn:Eh.
  { exfalso. apply starts_with_prefix in Eh as [r ->].
    unfold strip_heading in H.
    pose proof (span_app (fun c => (c =? ch "#")%N) (u "#" ++ r)) as Happ.
    destruct (span (fun c => (c =? ch "#")%N) (u "#" ++ r)) as [hs rest] eqn:Es.
    cbn [fst snd] in Happ.
    destruct hs as [|h hs]; [cbn in Es; destruct (span _ r); discriminate|].
    apply (f_equal (@length char)) in H.
    pose proof (length_drop_while is_space rest) as Hle.
    rewrite <- Happ in H. rewrite length_app in H. cbn [length] in H. lia. }
  destruct (starts_with (u ">") text) eqn:Eq.
  { exfalso. apply starts_with_prefix in Eq as [r ->]. unfold strip_quote in H.
    destruct (starts_with (u "> ") (u ">" ++ r)) eqn:E2.
    - apply starts_with_prefix in E2 as [r' E2]. rewrite E2 in H.
      apply (f_equal (@length char)) in H. cbn in H. lia.
    - apply (f_equal (@length char)) in H. cbn in H. lia. }
  destruct (re_ul text) eqn:Eu.
  { exfalso. destruct text as [|c [|c' r]]; try discriminate Eu.
    apply (f_equal (@length char)) in H. cbn in H. lia. }
  repeat split. rewrite strip_number_eq in H.
  destruct (number_marker text) as [len|] eqn:En; [|reflexivity].
  exfalso. apply number_marker_length in En.
  apply (f_equal (@length char)) in H. rewrite length_skipn in H. lia.
Qed.

(** X22.  A prefix command used twice on a line gives the line back, when the
    line holds no marker and does not start with white space. *)
Theorem prefix_command_twice (prefix text : str) (k : LineKind) :
  prefix_kind prefix = Some k ->
  strip_prefix text = text ->
  drop_while is_space text = text ->
  toggled prefix (toggled prefix text) = text
  /\ (rank k < 6 ->
      heading_toggled prefix (heading_toggled prefix text) = text).
Proof.
  intros Hk Hfix Hsp.
  destruct (strip_prefix_fixed text Hfix) as (Hh & Hq & Hu & Hn).
  assert (Hheading : strip_heading text = text).
  { unfold strip_heading. destruct text as [|c r]; [reflexivity|].
    cbn [span]. change (u "#") with [ch "#"] in Hh.
    rewrite starts_with_cons in Hh. cbn [starts_with] in Hh.
    rewrite andb_true_r in Hh. now rewrite Hh. }
  assert (Hs : starts_with prefix text = false).
  { destruct (starts_with prefix text) eqn:E; [|reflexivity].
    apply starts_with_prefix in E as [r ->].
    destruct (prefix_kind_cases prefix k Hk)
      as [[-> _]|[[-> _]|[[-> _]|[[-> _]|[[-> _]|[-> _]]]]]];
      try discriminate Hh; try discriminate Hq; try discriminate Hu;
      discriminate Hn. }
  unfold toggled, heading_toggled. rewrite Hs, Hfix, Hheading.
  rewrite !starts_with_app.
  destruct (prefix_kind_cases prefix k Hk)
    as [[-> ->]|[[-> ->]|[[-> ->]|[[-> ->]|[[-> ->]|[-> ->]]]]]];
    cbn [rank]; (split; [| try lia; intros _]);
    try exact Hsp; try reflexivity.
Qed.

(** An example for [prefix_command_twice]. *)
Lemma prefix_command_twice_witness :
  prefix_kind (u "1. ") = Some NumberedItem
  /\ strip_prefix (u "milk") = u "milk"
  /\ drop_while is_space (u "milk") = u "milk"
  /\ toggled (u "1. ") (u "milk") = u "1. milk"
  /\ toggled (u "1. ") (toggled (u "1. ") (u "milk")) = u "milk".
Proof.
  assert (H1 : prefix_kind (u "1. ") = Some NumberedItem) by reflexivity.
  assert (H2 : strip_prefix (u "milk") = u "milk") by reflexivity.
  assert (H3 : drop_while is_space (u "milk") = u "milk") by reflexivity.
  split; [exact H1 | split; [exact H2 | split; [exact H3 |]]].
  split; [reflexivity |].
  exact (proj1 (prefix_command_twice _ _ _ H1 H2 H3)).
Defined.

Lemma letter_not_digit (c : char) :
  is_letter c || (c =? ch " ")%N = true -> is_digit c = false.
Proof.
  unfold is_letter, is_digit. change (ch " ") with 32%N.
  rewrite !orb_true_iff, !andb_true_iff, !N.leb_le, N.eqb_eq. intros H.
  apply andb_false_iff. rewrite !N.leb_gt. lia.
Qed.

Lemma strip_number_inner (a ds b : str) :
  forallb (fun c => negb (is_digit c)) a = true ->
  ds <> [] -> forallb is_digit ds = true ->
  strip_number (a ++ ds ++ u ". " ++ b) = a ++ b.
Proof.
  intros Ha Hne Hds. induction a as [|c a IH].
  - cbn [app]. rewrite strip_number_eq. unfold number_marker.
    rewrite (span_exact is_digit ds (u ". " ++ b)); [| exact Hds | reflexivity].
    destruct ds as [|d ds]; [contradiction|]. cbn [falsy negb andb].
    rewrite starts_with_app. rewrite skipn_app, skipn_all2 by lia.
    replace (length (d :: ds) + 2 - length (d :: ds)) with 2 by lia.
    reflexivity.
  - cbn [forallb] in Ha. apply andb_true_iff in Ha as [Hc Ha].
    apply negb_true_iff in Hc.
    cbn [app]. rewrite strip_number_eq. unfold number_marker.
    cbn [span]. rewrite Hc. cbn [falsy negb andb]. now rewrite IH.
Qed.

(** X23.  The last alternative of the marker expression of [_togglePrefix] is
    not tied to the start of the text: a number, a period and a space in
    the middle of a line go when a quote or list command is used on it. *)
Theorem toggle_removes_inner_number (prefix a ds b : str) :
  prefix = u "> " \/ prefix = u "- " \/ prefix = u "1. " ->
  a <> [] ->
  forallb (fun c => is_letter c || (c =? ch " ")%N) a = true ->
  ds <> [] -> forallb is_digit ds = true ->
  toggled prefix (a ++ ds ++ u ". " ++ b) = prefix ++ a ++ b.
Proof.
  intros Hp Hne Ha Hd Hds.
  assert (Hnd : forallb (fun c => negb (is_digit c)) a = true).
  { apply forallb_forall. intros c Hc.
    rewrite forallb_forall in Ha. specialize (Ha c Hc).
    now rewrite (letter_not_digit c Ha). }
  destruct a as [|c a]; [contradiction|].
  cbn [forallb] in Ha. apply andb_true_iff in Ha as [Hc _].
  assert (Hc' : (c =? ch "#")%N = false /\ (c =? ch ">")%N = false
                /\ (c =? ch "-")%N = false /\ (c =? ch "*")%N = false
                /\ (c =? ch "+")%N = false /\ (c =? ch "1")%N = false).
  { repeat split; apply N.eqb_neq; intros ->; vm_compute in Hc; discriminate. }
  destruct Hc' as (H1 & H2 & H3 & H4 & H5 & H6).
  assert (Hstrip : strip_prefix ((c :: a) ++ ds ++ u ". " ++ b) = (c :: a) ++ b).
  { unfold strip_prefix. cbn [app].
    change (u "#") with [ch "#"]. change (u ">") with [ch ">"].
    rewrite !starts_with_cons, H1, H2. cbn [andb].
    assert (Hul : re_ul (c :: a ++ ds ++ u ". " ++ b) = false).
    { unfold re_ul. destruct (a ++ ds ++ u ". " ++ b); [reflexivity|].
      now rewrite H3, H4, H5. }
    rewrite Hul. exact (strip_number_inner (c :: a) ds b Hnd Hd Hds). }
  unfold toggled. rewrite Hstrip.
  assert (Hs : starts_with prefix ((c :: a) ++ ds ++ u ". " ++ b) = false).
  { cbn [app]. destruct Hp as [->|[->| ->]].
    - change (u "> ") with (ch ">" :: u " ").
      now rewrite starts_with_cons, H2.
    - change (u "- ") with (ch "-" :: u " ").
      now rewrite starts_with_cons, H3.
    - change (u "1. ") with (ch "1" :: u ". ").
      now rewrite starts_with_cons, H6. }
  now rewrite Hs.
Qed.

(** An example for [toggle_removes_inner_number]. *)
Lemma toggle_removes_inner_number_witness :
  toggled (u "> ") (u "Released in 2024. Notes follow")
  = u "> Released in Notes follow".
Proof.
  exact (toggle_removes_inner_number (u "> ") (u "Released in ") (u "2024")
           (u "Notes follow") (or_introl eq_refl) ltac:(discriminate) eq_refl
           ltac:(discriminate) eq_refl).
Defined.

(** ** MarkdownEditor.js: a toolbar command without a focused line *)



(** ** MarkdownEditor.js: the placeholder *)

Lemma re_fence_blank (line : str) :
  forallb is_space line = true -> re_fence line = None.
Proof.
  intros H. unfold re_fence, fence_run. destruct line as [|c line]; [reflexivity|].
  cbn [forallb] in H. apply andb_true_iff in H as [Hc _]. cbn [span].
  destruct (N.eqb_spec c (ch "`")) as [->|_]; [discriminate Hc|].
  destruct (N.eqb_spec c (ch "~")) as [->|_]; [discriminate Hc|].
  reflexivity.
Qed.

Lemma split_nl_blank (s : str) :
  forallb is_space s = true ->
  Forall (fun line => forallb is_space line = true) (split_nl s).
Proof.
  induction s as [|c s IH]; [now repeat constructor|].
  cbn [forallb split_nl]. intros H. apply andb_true_iff in H as [Hc Hs].
  specialize (IH Hs). destruct (c =? nl)%N; [now constructor|].
  destruct (split_nl s) as [|l ls].
  - constructor; [cbn [forallb]; now rewrite Hc | constructor].
  - inversion IH; subst.
    constructor; [cbn [forallb]; now rewrite Hc | assumption].
Qed.

Lemma draw_lines_blank (lines : list str) :
  Forall (fun line => forallb is_space line = true) lines ->
  draw_lines lines = List.map makeLine lines.
Proof.
  induction 1 as [|line lines Hl _ IH]; [reflexivity|].
  cbn [draw_lines List.map]. now rewrite (re_fence_blank line Hl), IH.
Qed.

Lemma filter_navigable_lines (lines : list str) :
  filter navigable (List.map makeLine lines) = List.map makeLine lines.
Proof.
  induction lines as [|l lines IH]; [reflexivity|].
  cbn [List.map filter]. change (navigable (makeLine l)) with true.
  now rewrite IH.
Qed.

Lemma length_split_nl (s : str) :
  length (split_nl s) = S (length (filter (fun c => (c =? nl)%N) s)).
Proof.
  induction s as [|c s IH]; [reflexivity|]. cbn [split_nl filter].
  destruct (c =? nl)%N; cbn [length]; [now rewrite IH|].
  destruct (split_nl s); [discriminate IH | exact IH].
Qed.

(** X25.  After [_draw] the placeholder shows exactly when the text is white
    space without a line break; spaces alone do not hide it. *)
Theorem placeholder_after_draw (md : str) :
  placeholder (draw_nodes md) md
  = is_blank md && negb (existsb (fun c => (c =? nl)%N) md).
Proof.
  unfold placeholder, is_blank, str_eqb.
  destruct (str_eq_dec (trim md) []) as [Hb|Hb].
  - rewrite Hb. cbn [falsy]. rewrite andb_true_r. cbn [andb].
    apply trim_nil in Hb. unfold draw_nodes.
    destruct md as [|c md]; [reflexivity|]. cbn [falsy].
    rewrite (draw_lines_blank _ (split_nl_blank _ Hb)).
    rewrite filter_navigable_lines, length_map, length_split_nl.
    clear Hb. induction (c :: md) as [|x s IH]; [reflexivity|].
    cbn [filter existsb]. destruct (x =? nl)%N; [reflexivity | exact IH].
  - destruct (trim md); [contradiction|]. cbn [falsy]. now rewrite andb_false_r.
Qed.

(** ** MarkdownEditor.js: the word count *)

Lemma split_ws_from_not_nil (b : bool) (s : str) : split_ws_from b s <> [].
Proof.
  revert b. induction s as [|c s IH]; intros b; [discriminate|].
  cbn [split_ws_from]. destruct (is_space c).
  - destruct b; [apply IH | discriminate].
  - destruct (split_ws_from false s); discriminate.
Qed.

Lemma split_ws_word (w t : str) :
  forallb (fun c => negb (is_space c)) w = true ->
  split_ws_from false (w ++ t)
  = (w ++ hd [] (split_ws_from false t)) :: tl (split_ws_from false t).
Proof.
  intros Hw. induction w as [|c w IH].
  - cbn [app]. pose proof (split_ws_from_not_nil false t).
    now destruct (split_ws_from false t).
  - cbn [forallb] in Hw. apply andb_true_iff in Hw as [Hc Hw].
    apply negb_true_iff in Hc. cbn [app split_ws_from]. rewrite Hc.
    now rewrite (IH Hw).
Qed.

Lemma word_spec (w : str) :
  word w = true ->
  w <> [] /\ forallb (fun c => negb (is_space c)) w = true
  /\ existsb is_markup w = false.
Proof.
  unfold word. intros H. apply andb_true_iff in H as [Hne Hall].
  split; [now destruct w|]. clear Hne.
  induction w as [|c w IH]; [now split|].
  cbn [forallb] in Hall. apply andb_true_iff in Hall as [Hc Hall].
  unfold word_char in Hc. apply andb_true_iff in Hc as [Hs Hm].
  apply negb_true_iff in Hm. destruct (IH Hall) as [IH1 IH2].
  cbn [forallb existsb]. now rewrite Hs, Hm, IH1, IH2.
Qed.

(** A text of words starts and ends with a code unit of a word. *)
Lemma unwords_ends (w : str) (ws : list str) :
  forallb word (w :: ws) = true ->
  (exists c rest, unwords (w :: ws) = c :: rest /\ is_space c = false)
  /\ (exists init c, unwords (w :: ws) = init ++ [c] /\ is_space c = false).
Proof.
  revert w. induction ws as [|w' ws IH]; intros w H;
    cbn [forallb] in H; apply andb_true_iff in H as [Hw Hws].
  - apply word_spec in Hw as (Hne & Hsp & _). cbn [unwords]. split.
    + destruct w as [|c w]; [contradiction|]. exists c, w. split; [reflexivity|].
      cbn [forallb] in Hsp. apply andb_true_iff in Hsp as [Hc _].
      now apply negb_true_iff in Hc.
    + destruct (exists_last Hne) as (init & c & ->). exists init, c.
      split; [reflexivity|]. rewrite forallb_app in Hsp.
      apply andb_true_iff in Hsp as [_ Hc]. cbn [forallb] in Hc.
      rewrite andb_true_r in Hc. now apply negb_true_iff in Hc.
  - destruct (IH w' Hws) as [_ (init & c & Hlast & Hc)].
    apply word_spec in Hw as (Hne & Hsp & _).
    change (unwords (w :: w' :: ws)) with (w ++ ch " " :: unwords (w' :: ws)).
    split.
    + destruct w as [|x w]; [contradiction|]. exists x. eexists.
      split; [reflexivity|].
      cbn [forallb] in Hsp. apply andb_true_iff in Hsp as [Hx _].
      now apply negb_true_iff in Hx.
    + exists (w ++ ch " " :: init), c. rewrite Hlast. split; [|exact Hc].
      now rewrite <- app_assoc.
Qed.

Lemma unwords_no_markup (ws : list str) :
  forallb word ws = true -> existsb is_markup (unwords ws) = false.
Proof.
  induction ws as [|w ws IH]; [reflexivity|]. intros H.
  cbn [forallb] in H. apply andb_true_iff in H as [Hw Hws].
  apply word_spec in Hw as (_ & _ & Hm). destruct ws as [|w' ws]; [exact Hm|].
  change (unwords (w :: w' :: ws)) with (w ++ ch " " :: unwords (w' :: ws)).
  rewrite existsb_app, Hm. cbn [existsb orb]. now apply IH.
Qed.

Lemma split_ws_unwords (w : str) (ws : list str) :
  forallb word (w :: ws) = true -> split_ws (unwords (w :: ws)) = w :: ws.
Proof.
  unfold split_ws. revert w. induction ws as [|w' ws IH]; intros w H.
  - cbn [forallb] in H. apply andb_true_iff in H as [Hw _].
    apply word_spec in Hw as (_ & Hsp & _). cbn [unwords].
    rewrite <- (app_nil_r w) at 1. rewrite (split_ws_word w [] Hsp).
    cbn. now rewrite app_nil_r.
  - pose proof H as H'. cbn [forallb] in H. apply andb_true_iff in H as [Hw Hws].
    apply word_spec in Hw as (_ & Hsp & _).
    change (unwords (w :: w' :: ws)) with (w ++ ch " " :: unwords (w' :: ws)).
    rewrite (split_ws_word w _ Hsp).
    destruct (unwords_ends w' ws Hws) as [(c & rest & Hhead & Hc) _].
    change (split_ws_from false (ch " " :: unwords (w' :: ws)))
      with ([] :: split_ws_from true (unwords (w' :: ws))).
    cbn [hd tl]. rewrite app_nil_r. f_equal.
    etransitivity; [| exact (IH w' Hws)].
    rewrite Hhead. cbn [split_ws_from]. now rewrite Hc.
Qed.

Lemma trim_id (s init rest : str) (c d : char) :
  s = c :: rest -> is_space c = false ->
  s = init ++ [d] -> is_space d = false ->
  trim s = s.
Proof.
  intros Hhead Hc Hlast Hd. unfold trim.
  assert (H1 : drop_while is_space s = s)
    by (rewrite Hhead; cbn [drop_while]; now rewrite Hc).
  rewrite H1. rewrite Hlast at 1. rewrite rev_app_distr. cbn [rev app drop_while].
  rewrite Hd. change (d :: rev init) with (rev [d] ++ rev init).
  now rewrite <- rev_app_distr, rev_involutive.
Qed.

(** X26.  The word count of words that stand one space apart is their number,
    when no word holds white space or a markup sign. *)
Theorem wordCount_of_words (ws : list str) :
  forallb word ws = true -> wordCount (unwords ws) = length ws.
Proof.
  intros H. unfold wordCount.
  pose proof (unwords_no_markup ws H) as Hm.
  rewrite (replace_all_untriggered re_fenced is_markup);
    [| | exact Hm].
  2:{ intros t r Hr. unfold re_fenced in Hr.
      destruct (starts_with (u "```") t) eqn:E; [|discriminate].
      apply starts_with_prefix in E as [t' ->]. reflexivity. }
  rewrite (replace_all_untriggered re_markup is_markup);
    [| | exact Hm].
  2:{ intros t r Hr. unfold re_markup in Hr. destruct t as [|c t]; [discriminate|].
      cbn [existsb]. destruct (is_markup c); [reflexivity | discriminate]. }
  destruct ws as [|w ws]; [reflexivity|].
  destruct (unwords_ends w ws H) as [(c & rest & Hhead & Hc) (init & d & Hlast & Hd)].
  rewrite (trim_id _ _ _ _ _ Hhead Hc Hlast Hd).
  rewrite Hhead at 1. cbn [falsy]. rewrite (split_ws_unwords w ws H).
  clear - H. induction (w :: ws) as [|x l IH]; [reflexivity|].
  cbn [forallb] in H. apply andb_true_iff in H as [Hx Hl].
  apply word_spec in Hx as (Hne & _). cbn [filter].
  destruct x; [contradiction|]. cbn [falsy negb length]. now rewrite IH.
Qed.

(** An example for [wordCount_of_words]. *)
Lemma wordCount_of_words_witness :
  forallb word [u "three"; u "plain"; u "words"] = true
  /\ wordCount (u "three plain words") = 3.
Proof.
  assert (H : forallb word [u "three"; u "plain"; u "words"] = true)
    by reflexivity.
  split; [exact H | exact (wordCount_of_words _ H)].
Defined.

(** ** html-to-md.js *)

Lemma unmatched_replace (m : str -> option (str * nat)) (s : str) :
  unmatched m s = true -> replace_all m s = s.
Proof.
  unfold replace_all. induction s as [|c s IH]; [reflexivity|].
  cbn [unmatched replace_from]. destruct (m (c :: s)); [discriminate|].
  intros H. now rewrite IH.
Qed.

Lemma unmatched_tail (m : str -> option (str * nat)) (a s : str) :
  unmatched m (a ++ s) = true -> unmatched m s = true.
Proof.
  induction a as [|c a IH]; [trivial|]. cbn [app unmatched].
  destruct (m (c :: a ++ s)); [discriminate | exact IH].
Qed.

Lemma span_app_stop (p : char -> bool) (s : str) (x : char) (t : str) :
  p x = false -> fst (span p (s ++ x :: t)) = fst (span p s).
Proof.
  intros Hx. induction s as [|c s IH].
  - cbn [app span]. now rewrite Hx.
  - cbn [app span]. destruct (p c); [|reflexivity].
    destruct (span p (s ++ x :: t)), (span p s). cbn [fst] in *. now rewrite IH.
Qed.

Lemma re_nl3_app_stop (s : str) (x : char) (t : str) :
  x <> nl -> HtmlToMd.re_nl3 (s ++ x :: t) = HtmlToMd.re_nl3 s.
Proof.
  intros Hx. unfold HtmlToMd.re_nl3.
  rewrite span_app_stop; [reflexivity | now apply N.eqb_neq].
Qed.

Lemma unmatched_nl3_app (s : str) (x : char) (t : str) :
  x <> nl ->
  unmatched HtmlToMd.re_nl3 s = true ->
  unmatched HtmlToMd.re_nl3 (x :: t) = true ->
  unmatched HtmlToMd.re_nl3 (s ++ x :: t) = true.
Proof.
  intros Hx Hs Ht. induction s as [|c s IH]; [exact Ht|].
  change ((c :: s) ++ x :: t) with (c :: (s ++ x :: t)).
  cbn [unmatched] in *.
  change (c :: s ++ x :: t) with ((c :: s) ++ x :: t).
  rewrite (re_nl3_app_stop (c :: s) x t Hx).
  destruct (HtmlToMd.re_nl3 (c :: s)); [discriminate | now apply IH].
Qed.

Lemma unmatched_nl3_plain (a s : str) :
  ~ In nl a ->
  unmatched HtmlToMd.re_nl3 s = true ->
  unmatched HtmlToMd.re_nl3 (a ++ s) = true.
Proof.
  intros Ha Hs. induction a as [|c a IH]; [exact Hs|].
  cbn [app unmatched]. unfold HtmlToMd.re_nl3 at 1. cbn [span].
  destruct (N.eqb_spec c nl) as [->|_]; [exfalso; apply Ha; now left|].
  cbn [fst length Nat.leb]. apply IH. intros H. apply Ha. now right.
Qed.

Lemma drop_while_app_all (p : char -> bool) (a b : str) :
  forallb p a = true -> drop_while p (a ++ b) = drop_while p b.
Proof.
  induction a as [|c a IH]; [reflexivity|]. cbn [forallb app drop_while].
  intros H. apply andb_true_iff in H as [Hc Ha]. now rewrite Hc, IH.
Qed.

Lemma trim_app_ws (s init rest ws : str) (c d : char) :
  s = c :: rest -> is_space c = false ->
  s = init ++ [d] -> is_space d = false ->
  forallb is_space ws = true ->
  trim (s ++ ws) = s.
Proof.
  intros Hhead Hc Hlast Hd Hws. unfold trim.
  assert (H1 : drop_while is_space (s ++ ws) = s ++ ws)
    by (rewrite Hhead; cbn [app drop_while]; now rewrite Hc).
  rewrite H1, rev_app_distr, drop_while_app_all by now rewrite forallb_rev.
  rewrite Hlast at 1. rewrite rev_app_distr. cbn [rev app drop_while].
  rewrite Hd. change (d :: rev init) with (rev [d] ++ rev init).
  now rewrite <- rev_app_distr, rev_involutive.
Qed.

(** What [trim] leaves is empty, or starts and ends with a code unit that
    is not white space. *)
Lemma trim_ends (s : str) :
  trim s = []
  \/ (exists c rest, trim s = c :: rest /\ is_space c = false)
     /\ (exists init d, trim s = init ++ [d] /\ is_space d = false).
Proof.
  unfold trim. set (s1 := drop_while is_space s).
  destruct (drop_while is_space (rev s1)) as [|d r] eqn:E2; [now left|].
  right. pose proof (drop_while_head _ _ _ _ E2) as Hd.
  assert (Hsuffix : exists dropped, rev s1 = dropped ++ d :: r).
  { clear Hd. revert E2. generalize (rev s1). intros l.
    induction l as [|x l IH]; [discriminate|]. cbn [drop_while].
    destruct (is_space x).
    - intros H. destruct (IH H) as [dr ->]. now exists (x :: dr).
    - intros H. exists []. exact H. }
  destruct Hsuffix as [dropped Hsuf].
  apply (f_equal (@rev char)) in Hsuf. rewrite rev_involutive, rev_app_distr in Hsuf.
  cbn [rev] in *. split.
  - destruct (rev r ++ [d]) as [|c rest] eqn:Ec;
      [now destruct (rev r)|].
    exists c, rest. split; [reflexivity|].
    assert (Hs1 : s1 = c :: rest ++ rev dropped) by (now rewrite Hsuf).
    unfold s1 in Hs1. now apply drop_while_head in Hs1.
  - now exists (rev r), d.
Qed.

Lemma trim_idempotent (s : str) : trim (trim s) = trim s.
Proof.
  destruct (trim_ends s) as [->|[(c & rest & Hh & Hc) (init & d & Hl & Hd)]];
    [reflexivity|].
  exact (trim_id _ _ _ _ _ Hh Hc Hl Hd).
Qed.

Lemma trim_middle (s : str) : exists l r, s = l ++ trim s ++ r.
Proof.
  assert (Hdrop : forall t, exists l, t = l ++ drop_while is_space t).
  { induction t as [|x t [l IH]]; [now exists []|]. cbn [drop_while].
    destruct (is_space x); [exists (x :: l); cbn; now f_equal | now exists []]. }
  unfold trim. destruct (Hdrop s) as [l Hl].
  destruct (Hdrop (rev (drop_while is_space s))) as [r Hr].
  exists l, (rev r). rewrite <- rev_app_distr, <- Hr, rev_involutive. exact Hl.
Qed.

Lemma re_nl3_run (j : nat) (t : str) :
  match t with [] => True | x :: _ => x <> nl end ->
  HtmlToMd.re_nl3 (repeat nl j ++ t)
  = if 3 <=? j then Some ([nl; nl], j) else None.
Proof.
  intros Ht. unfold HtmlToMd.re_nl3.
  rewrite span_exact; [cbn [fst]; now rewrite repeat_length
                      | now apply forallb_repeat |].
  destruct t as [|x t]; [exact I | now apply N.eqb_neq].
Qed.

(** The runs of line breaks in the result of the replacement. *)
Lemma replace_nl3_run (k : nat) (t : str) :
  match t with [] => True | x :: _ => x <> nl end ->
  replace_all HtmlToMd.re_nl3 (repeat nl k ++ t)
  = repeat nl (Nat.min k 2) ++ replace_all HtmlToMd.re_nl3 t.
Proof.
  intros Ht.
  pose proof (re_nl3_run 1 t Ht) as E1. pose proof (re_nl3_run 2 t Ht) as E2.
  change (repeat nl 1 ++ t) with (nl :: t) in E1.
  change (repeat nl 2 ++ t) with (nl :: nl :: t) in E2.
  change (3 <=? 1) with false in E1. change (3 <=? 2) with false in E2.
  destruct k as [|[|[|k]]].
  - reflexivity.
  - unfold replace_all. cbn [repeat app replace_from Nat.min].
    now rewrite E1.
  - unfold replace_all. cbn [repeat app replace_from Nat.min].
    now rewrite E2, E1.
  - pose proof (re_nl3_run (S (S (S k))) t Ht) as E3.
    change (3 <=? S (S (S k))) with true in E3.
    change (repeat nl (S (S (S k))) ++ t)
      with (nl :: (repeat nl (S (S k)) ++ t)) in *.
    unfold replace_all. cbn [replace_from]. rewrite E3.
    pose proof (replace_from_skip HtmlToMd.re_nl3 (repeat nl (S (S k))) t)
      as Hskip.
    rewrite repeat_length in Hskip.
    change (Nat.pred (S (S (S k)))) with (S (S k)). rewrite Hskip.
    reflexivity.
Qed.

Lemma leading_run (s : str) :
  exists k t, s = repeat nl k ++ t
              /\ match t with [] => True | x :: _ => x <> nl end.
Proof.
  induction s as [|c s (k & t & -> & Ht)]; [now exists 0, []|].
  destruct (N.eq_dec c nl) as [->|Hc].
  - now exists (S k), t.
  - exists 0, (c :: repeat nl k ++ t). now split.
Qed.

Lemma short_run_free (j : nat) : j <= 2 -> nl3_free (repeat nl j) = true.
Proof. intros H. destruct j as [|[|[|j]]]; try reflexivity. lia. Qed.

Lemma replace_nl3_free (s : str) :
  nl3_free (replace_all HtmlToMd.re_nl3 s) = true.
Proof.
  remember (length s) as n eqn:Hn. revert s Hn.
  induction n as [n IH] using lt_wf_ind. intros s Hn.
  destruct (leading_run s) as (k & t & -> & Ht).
  rewrite (replace_nl3_run k t Ht). destruct t as [|x t].
  - unfold replace_all. cbn [replace_from]. rewrite app_nil_r.
    apply short_run_free. lia.
  - assert (Hx : HtmlToMd.re_nl3 (x :: t) = None).
    { unfold HtmlToMd.re_nl3. cbn [span].
      destruct (N.eqb_spec x nl); [contradiction | reflexivity]. }
    assert (Hx' : forall t', HtmlToMd.re_nl3 (x :: t') = None).
    { intros t'. unfold HtmlToMd.re_nl3. cbn [span].
      destruct (N.eqb_spec x nl); [contradiction | reflexivity]. }
    unfold replace_all at 1. cbn [replace_from]. rewrite Hx.
    fold (replace_all HtmlToMd.re_nl3 t).
    apply unmatched_nl3_app; [exact Ht | apply short_run_free; lia |].
    cbn [unmatched]. rewrite Hx'.
    apply (IH (length t)); [|reflexivity].
    subst n. rewrite length_app. cbn [length]. lia.
Qed.

Lemma nl3_free_spec (s : str) :
  nl3_free s = true -> forall a b, s <> a ++ [nl; nl; nl] ++ b.
Proof.
  intros H a b ->. apply unmatched_tail in H. cbn [app unmatched] in H.
  unfold HtmlToMd.re_nl3 in H. cbn [span] in H.
  change (nl =? nl)%N with true in H. cbv iota in H.
  destruct (span (fun c => (c =? nl)%N) b). cbn in H. discriminate.
Qed.

(** X27.  The result of the conversion is trimmed and never holds three line
    breaks in a row, whatever the markup. *)
Theorem htmlToMarkdown_tidy (parse : str -> HtmlToMd.hnode) (html : str) :
  let md := HtmlToMd.htmlToMarkdown parse html in
  trim md = md /\ forall a b, md <> a ++ [nl; nl; nl] ++ b.
Proof.
  unfold HtmlToMd.htmlToMarkdown. destruct (falsy html).
  - split; [reflexivity | intros [|x a] b; discriminate].
  - split; [apply trim_idempotent|]. intros a b Heq.
    set (w := replace_all HtmlToMd.re_nl3 (HtmlToMd.walk false (parse html))) in *.
    destruct (trim_middle w) as (l & r & Hw). rewrite Heq in Hw.
    apply (nl3_free_spec w (replace_nl3_free _) (l ++ a) (b ++ r)).
    rewrite Hw, <- !app_assoc. reflexivity.
Qed.

Lemma walk_heading (n : nat) (in_pre : bool) (attrs : list (str * str))
  (kids : list HtmlToMd.hnode) :
  1 <= n <= 6 ->
  HtmlToMd.walk in_pre (HtmlToMd.HElem (heading_tag n) attrs kids)
  = repeat (ch "#") n ++ ch " "
      :: trim (flat_map (HtmlToMd.walk false) kids) ++ [nl].
Proof.
  intros Hn. destruct n as [|[|[|[|[|[|[|n]]]]]]]; try lia; reflexivity.
Qed.

(** X28.  A document that is one heading element becomes one heading line of
    the same level, whose text is the trimmed text of the element. *)
Theorem html_heading_line (parse : str -> HtmlToMd.hnode) (html : str)
  (n : nat) (attrs : list (str * str)) (kids : list HtmlToMd.hnode)
  (k : LineKind) :
  falsy html = false ->
  parse html = HtmlToMd.HElem (u "body") []
                 [HtmlToMd.HElem (heading_tag n) attrs kids] ->
  1 <= n <= 6 -> rank k = 6 - n ->
  let title := trim (flat_map (HtmlToMd.walk false) kids) in
  title <> [] -> ~ In nl title ->
  HtmlToMd.htmlToMarkdown parse html = repeat (ch "#") n ++ ch " " :: title
  /\ lineType (HtmlToMd.htmlToMarkdown parse html) = k.
Proof.
  intros Hhtml Hparse Hn Hk title Hne Hnl.
  assert (Hmd : HtmlToMd.htmlToMarkdown parse html
                = repeat (ch "#") n ++ ch " " :: title).
  { unfold HtmlToMd.htmlToMarkdown. rewrite Hhtml, Hparse.
    assert (Hw : HtmlToMd.walk false
                   (HtmlToMd.HElem (u "body") []
                      [HtmlToMd.HElem (heading_tag n) attrs kids])
                 = (repeat (ch "#") n ++ ch " " :: title) ++ [nl]).
    { change (HtmlToMd.walk false (HtmlToMd.HElem (u "body") [] ?x))
        with (flat_map (HtmlToMd.walk false) x).
      cbn [flat_map]. rewrite app_nil_r, walk_heading by exact Hn.
      now rewrite <- app_assoc. }
    rewrite Hw. rewrite unmatched_replace.
    - destruct (trim_ends (flat_map (HtmlToMd.walk false) kids))
        as [E|[_ (init & d & Hl & Hd)]]; [contradiction|].
      fold title in Hl.
      destruct n as [|n]; [lia|].
      apply (trim_app_ws _ (repeat (ch "#") (S n) ++ ch " " :: init)
               (repeat (ch "#") n ++ ch " " :: title) [nl] (ch "#") d);
        try reflexivity; [|exact Hd].
      rewrite Hl. now rewrite <- app_assoc.
    - apply unmatched_nl3_plain; [|reflexivity].
      intros H. apply in_app_or in H as [H|[H|H]].
      + apply repeat_spec in H. discriminate H.
      + discriminate H.
      + contradiction. }
  split; [exact Hmd|]. rewrite Hmd. now apply heading_kind.
Qed.

(** An example for [html_heading_line]. *)
Lemma html_heading_line_witness :
  let body :=
    HtmlToMd.HElem (u "body") []
      [HtmlToMd.HElem (u "h2") [] [HtmlToMd.HText (u " Release notes ")]] in
  HtmlToMd.htmlToMarkdown (fun _ => body) (u "<h2> Release notes </h2>")
  = u "## Release notes"
  /\ lineType (HtmlToMd.htmlToMarkdown (fun _ => body)
                 (u "<h2> Release notes </h2>")) = Heading2.
Proof.
  intros body.
  exact (html_heading_line (fun _ => body) (u "<h2> Release notes </h2>") 2 []
           [HtmlToMd.HText (u " Release notes ")] Heading2
           eq_refl eq_refl ltac:(lia) eq_refl ltac:(discriminate)
           ltac:(vm_compute; intuition discriminate)).
Defined.

Lemma word_char_props (c : char) :
  HtmlToMd.is_word c = true ->
  is_space c = false /\ is_line_terminator c = false
  /\ (c =? ch "`")%N = false /\ (c =? nl)%N = false.
Proof.
  unfold HtmlToMd.is_word, is_letter, is_digit, is_space, is_line_terminator.
  change (ch "_") with 95%N. change (ch "`") with 96%N. change nl with 10%N.
  rewrite !orb_true_iff, !andb_true_iff, !N.leb_le, N.eqb_eq. intros H.
  repeat match goal with
    | |- context [(?a =? ?b)%N] => destruct (N.eqb_spec a b); [lia|]
    | |- context [(?a <=? ?b)%N] => destruct (N.leb_spec a b); try lia
    end; repeat split; reflexivity.
Qed.

Lemma word_lang_ok (lang : str) :
  forallb HtmlToMd.is_word lang = true ->
  lang_ok lang = true /\ ~ In nl lang.
Proof.
  intros H.
  assert (Hall : forall c, In c lang ->
                   is_space c = false /\ is_line_terminator c = false
                   /\ (c =? ch "`")%N = false /\ (c =? nl)%N = false).
  { intros c Hc. apply word_char_props. rewrite forallb_forall in H.
    now apply H. }
  split.
  - unfold lang_ok. rewrite !andb_true_iff. repeat split.
    + destruct lang as [|c lang]; [reflexivity|].
      change (u "`") with [ch "`"]. rewrite starts_with_cons.
      destruct (Hall c (or_introl eq_refl)) as (_ & _ & -> & _). reflexivity.
    + apply forallb_forall. intros c Hc.
      destruct (Hall c Hc) as (_ & -> & _). reflexivity.
    + unfold str_eqb. destruct (str_eq_dec (trim lang) lang) as [|Hne];
        [reflexivity|]. exfalso. apply Hne.
      destruct lang as [|c lang]; [reflexivity|].
      destruct (@exists_last _ (c :: lang) ltac:(discriminate))
        as (init & d & Hlast).
      rewrite <- (app_nil_r (c :: lang)) at 1.
      apply (trim_app_ws (c :: lang) init lang [] c d); try reflexivity.
      * now destruct (Hall c (or_introl eq_refl)) as (-> & _).
      * exact Hlast.
      * assert (Hd : In d (c :: lang))
          by (rewrite Hlast; apply in_or_app; right; now left).
        now destruct (Hall d Hd) as (-> & _).
  - intros Hin. destruct (Hall nl Hin) as (_ & _ & _ & Hnl).
    discriminate Hnl.
Qed.

Lemma language_of_class (lang : str) :
  lang <> [] -> forallb HtmlToMd.is_word lang = true ->
  HtmlToMd.language_of (u "language-" ++ lang) = Some lang.
Proof.
  intros Hne Hw.
  change (HtmlToMd.language_of (u "language-" ++ lang))
    with (match (match fst (span HtmlToMd.is_word lang) with
                 | [] => None
                 | w => Some w
                 end) with
          | Some w => Some w
          | None => HtmlToMd.language_of (skipn 1 (u "language-" ++ lang))
          end).
  pose proof (span_exact HtmlToMd.is_word lang [] Hw I) as Hs.
  rewrite app_nil_r in Hs. rewrite Hs. cbn [fst].
  destruct lang; [contradiction | reflexivity].
Qed.

(** X29.  A [pre] element that holds a [code] element of class [language-]
    and a language comes out as a fenced group, which [_draw] turns into
    one code block of that language with the same code less one final
    line break, when no line of the code closes a fence and the code does
    not bring three line breaks in a row. *)
Theorem html_pre_draws_code_block (parse : str -> HtmlToMd.hnode)
  (html lang code : str) (attrs : list (str * str)) :
  falsy html = false ->
  parse html
  = HtmlToMd.HElem (u "body") []
      [HtmlToMd.HElem (u "pre") attrs
         [HtmlToMd.HElem (u "code") [(u "class", u "language-" ++ lang)]
            [HtmlToMd.HText code]]] ->
  lang <> [] -> forallb HtmlToMd.is_word lang = true ->
  let c := HtmlToMd.strip_final_nl code in
  code_ok c = true -> nl3_free (nl :: c ++ [nl]) = true ->
  HtmlToMd.htmlToMarkdown parse html
  = u "```" ++ lang ++ nl :: c ++ nl :: u "```"
  /\ draw_nodes (HtmlToMd.htmlToMarkdown parse html) = [makeCodeBlock lang c].
Proof.
  intros Hhtml Hparse Hne Hword c Hcode Hfree.
  destruct (word_lang_ok lang Hword) as [Hlang Hnonl].
  assert (Hmd : HtmlToMd.htmlToMarkdown parse html
                = u "```" ++ lang ++ nl :: c ++ nl :: u "```").
  { unfold HtmlToMd.htmlToMarkdown. rewrite Hhtml, Hparse.
    assert (Hw : HtmlToMd.walk false
                   (HtmlToMd.HElem (u "body") []
                      [HtmlToMd.HElem (u "pre") attrs
                         [HtmlToMd.HElem (u "code")
                            [(u "class", u "language-" ++ lang)]
                            [HtmlToMd.HText code]]])
                 = (u "```" ++ lang) ++ (nl :: c ++ [nl]) ++ u "```" ++ [nl]).
    { change (HtmlToMd.walk false (HtmlToMd.HElem (u "body") [] ?x))
        with (flat_map (HtmlToMd.walk false) x).
      cbn [flat_map]. rewrite app_nil_r.
      change (HtmlToMd.walk false (HtmlToMd.HElem (u "pre") attrs ?x))
        with (u "```"
                ++ match HtmlToMd.language_of (u "language-" ++ lang) with
                   | Some w => w
                   | None => []
                   end
                ++ [nl] ++ HtmlToMd.strip_final_nl (code ++ [])
                ++ [nl] ++ u "```" ++ [nl]).
      rewrite (language_of_class lang Hne Hword), app_nil_r. fold c.
      repeat (first [rewrite <- app_assoc | progress cbn [app]]). reflexivity. }
    rewrite Hw. rewrite unmatched_replace.
    - assert (Hshape : (u "```" ++ lang) ++ (nl :: c ++ [nl]) ++ u "```" ++ [nl]
                       = (u "```" ++ lang ++ nl :: c ++ nl :: u "```") ++ [nl])
        by (repeat (first [rewrite <- app_assoc | progress cbn [app]]);
            reflexivity).
      rewrite Hshape.
      apply (trim_app_ws (u "```" ++ lang ++ nl :: c ++ nl :: u "```")
               (u "```" ++ lang ++ nl :: c ++ nl :: u "``")
               (u "``" ++ lang ++ nl :: c ++ nl :: u "```") [nl]
               (ch "`") (ch "`")); try reflexivity.
      repeat (first [rewrite <- app_assoc | progress cbn [app]]).
      reflexivity.
    - apply unmatched_nl3_plain.
      + intros H. apply in_app_or in H as [H|H]; [|contradiction].
        vm_compute in H. intuition discriminate.
      + apply (unmatched_nl3_app (nl :: c ++ [nl]) (ch "`") (u "``" ++ [nl]));
          [discriminate | exact Hfree | reflexivity]. }
  split; [exact Hmd|]. rewrite Hmd. unfold draw_nodes.
  change (falsy (u "```" ++ lang ++ nl :: c ++ nl :: u "```")) with false.
  cbv iota. rewrite app_assoc.
  rewrite split_nl_app, split_nl_app.
  destruct (lang_ok_fence lang Hlang) as (Hfence & Htrim & Hsplit).
  rewrite Hsplit. change (split_nl (u "```")) with [u "```"].
  cbn [app draw_lines]. rewrite Hfence, Htrim.
  rewrite (collect_until_close lang (split_nl c) Hcode [] (u "```") []
             eq_refl).
  cbn [app draw_lines]. now rewrite join_split_nl.
Qed.

(** An example for [html_pre_draws_code_block]. *)
Lemma html_pre_draws_code_block_witness :
  let body :=
    HtmlToMd.HElem (u "body") []
      [HtmlToMd.HElem (u "pre") []
         [HtmlToMd.HElem (u "code") [(u "class", u "language-" ++ u "js")]
            [HtmlToMd.HText (u "let x = 1;" ++ [nl])]]] in
  draw_nodes (HtmlToMd.htmlToMarkdown (fun _ => body) (u "<pre>"))
  = [makeCodeBlock (u "js") (u "let x = 1;")].
Proof.
  intros body.
  exact (proj2 (html_pre_draws_code_block (fun _ => body) (u "<pre>") (u "js")
                  (u "let x = 1;" ++ [nl]) [] eq_refl eq_refl
                  ltac:(discriminate) eq_refl eq_refl eq_refl)).
Defined.

(** ** MarkdownEditor.js: one line in edit mode *)

Section OneEditor.

Variable renderedText : str -> str.
Variable nextNumber : str -> str.

















End OneEditor.

